(** * aiovantage: a verification development

    A shallow embedding of the parts of the aiovantage client that its
    specification makes claims about, with the claims settled as theorems.

    Python integers are unbounded and are modelled by [Z]; text is
    [string]; a raised exception is a value of [exn] carried on the left of
    a sum; dictionaries are stdpp's [gmap]. *)

From Stdlib Require Import ZArith String Ascii List Lia.
From Stdlib Require Import Decimal DecimalString DecimalZ.
From stdpp Require Import base option gmap strings list.

Local Open Scope string_scope.
Local Open Scope Z_scope.
Local Open Scope list_scope.

(** ** Exceptions and the error monad *)

Inductive exn : Type :=
| KeyError (key : string)
| KeyErrorId (vid : Z)
| IndexError
| ValueError
| StructError
| InvalidOperation
| DecodeError
| CommandError (code : Z)
| TimeoutError
| ConnectionLostError.

Definition res (A : Type) : Type := exn + A.

Definition ok {A} (a : A) : res A := inr a.
Definition raise {A} (e : exn) : res A := inl e.

Definition rbind {A B} (m : res A) (k : A -> res B) : res B :=
  match m with
  | inl e => inl e
  | inr a => k a
  end.

Notation "'let!' x ':=' m 'in' k" := (rbind m (fun x => k))
  (at level 10, x name, m at level 100, k at level 200).
Notation "'let!' ' p ':=' m 'in' k" := (rbind m (fun p => k))
  (at level 10, p strict pattern, m at level 100, k at level 200).

Definition of_option {A} (e : exn) (o : option A) : res A :=
  match o with
  | Some a => ok a
  | None => raise e
  end.

(** Python's [seq[i]] for a non-negative index: [IndexError] out of range. *)
Definition subscript {A} (l : list A) (i : nat) : res A :=
  of_option IndexError (l !! i).

(** A list comprehension whose body can raise: the elements are handled in
    order and the first exception ends the loop. *)
Fixpoint rmapM {A B} (f : A -> res B) (l : list A) : res (list B) :=
  match l with
  | [] => ok []
  | x :: rest =>
      let! y := f x in
      let! ys := rmapM f rest in
      ok (y :: ys)
  end.

(** ** Text of integers *)

Module Text.

(** [str(n)] for a Python [int]. *)
Definition str_of_int (z : Z) : string :=
  NilZero.string_of_int (Z.to_int z).

(** [int(s)] for a Python [str], on the sign-and-ASCII-digits fragment:
    an optional [+] or [-] followed by at least one decimal digit.  On
    this fragment it agrees with [int].  Outside it (surrounding white
    space, digit-group underscores, non-ASCII digits) [int] may still
    return a number where this function raises [ValueError]; the theorems
    apply it to text of the fragment, or hold whatever it returns. *)
Definition python_int (s : string) : res Z :=
  match s with
  | String "+" s' =>
      of_option ValueError (Z.of_uint <$> NilZero.uint_of_string s')
  | _ => of_option ValueError (Z.of_int <$> NilZero.int_of_string s)
  end.

(** [" ".join(l)] *)
Fixpoint join_sp (l : list string) : string :=
  match l with
  | [] => ""
  | [x] => x
  | x :: rest => x +:+ " " +:+ join_sp rest
  end.

End Text.

(** ** RGB loads: [command_client/object_interfaces/rgb_load.py] *)

Module RGBLoad.

Record InterfaceResponse : Type := {
  result : string;
  args : list string;
}.

(** A call handed to [Interface.invoke]: target id, method name and the
    positional parameters. *)
Record Invocation : Type := {
  inv_vid : Z;
  inv_method : string;
  inv_params : list Z;
}.

(** Modelled from the spec: the request line built by the absent
    [Interface.invoke], [INVOKE <id> <Interface.Method> [arg ...]] with
    integer arguments as decimal text. *)
Definition request_line (c : Invocation) : string :=
  Text.join_sp
    ("INVOKE" :: Text.str_of_int (inv_vid c) :: inv_method c
       :: map Text.str_of_int (inv_params c)).

(** [max(min(x, hi), 0)] *)
Definition clamp (x hi : Z) : Z := Z.max (Z.min x hi) 0.

(** [RGBLoadInterface.set_rgb]: the invocation it awaits. *)
Definition set_rgb (vid red green blue : Z) : Invocation :=
  let red := clamp red 255 in
  let green := clamp green 255 in
  let blue := clamp blue 255 in
  {| inv_vid := vid; inv_method := "RGBLoad.SetRGB";
     inv_params := [red; green; blue] |}.

(** [struct.pack(">i", x)] read back as a tuple of ints: the four bytes of
    the 32-bit two's-complement pattern, most significant first;
    [struct.error] outside the signed 32-bit range. *)
Definition struct_pack_be_i (x : Z) : res (list Z) :=
  if (- 2 ^ 31 <=? x) && (x <? 2 ^ 31) then
    let u := x mod 2 ^ 32 in
    ok [Z.land (Z.shiftr u 24) 255; Z.land (Z.shiftr u 16) 255;
        Z.land (Z.shiftr u 8) 255; Z.land u 255]
  else raise StructError.

Definition parse_packed_color_response (response : InterfaceResponse)
  : res (list Z) :=
  let! n := Text.python_int (result response) in
  struct_pack_be_i n.

Definition parse_get_color_response := parse_packed_color_response.

Section WithClient.
(** The reply the command client hands back for an invocation. *)
Variable invoke : Z -> string -> list Z -> res InterfaceResponse.

Definition get_color (vid : Z) : res (list Z) :=
  let! response := invoke vid "RGBLoad.GetColor" [] in
  parse_get_color_response response.

(** [color[:3]] *)
Definition get_rgb_color (vid : Z) : res (list Z) :=
  let! color := get_color vid in
  ok (take 3 color).
End WithClient.

(** [class RGBChannel(IntEnum)] *)
Inductive RGBChannel : Type := Red | Green | Blue | White.

Definition RGBChannel_value (c : RGBChannel) : Z :=
  match c with
  | Red => 0
  | Green => 1
  | Blue => 2
  | White => 3
  end.

Definition RGBChannel_members : list RGBChannel := [Red; Green; Blue; White].

(** [class HSLAttribute(IntEnum)] *)
Inductive HSLAttribute : Type := Hue | Saturation | Lightness.

Definition HSLAttribute_value (a : HSLAttribute) : Z :=
  match a with
  | Hue => 0
  | Saturation => 1
  | Lightness => 2
  end.

Definition HSLAttribute_members : list HSLAttribute :=
  [Hue; Saturation; Lightness].

(** [parse_color_channel_response]: the value is the result, the channel
    the first argument; the pair is [(channel, value)]. *)
Definition parse_color_channel_response (response : InterfaceResponse)
  : res (Z * Z) :=
  let! value := Text.python_int (result response) in
  let! arg0 := subscript (args response) 0 in
  let! channel := Text.python_int arg0 in
  ok (channel, value).

Definition parse_get_rgb_response := parse_color_channel_response.
Definition parse_get_hsl_response := parse_color_channel_response.
Definition parse_get_rgbw_response := parse_color_channel_response.

(** [RGBLoadInterface.set_rgb_component] *)
Definition set_rgb_component (vid : Z) (channel : RGBChannel) (value : Z)
  : Invocation :=
  let value := clamp value 255 in
  {| inv_vid := vid; inv_method := "RGBLoad.SetRGBComponent";
     inv_params := [RGBChannel_value channel; value] |}.

(** [RGBLoadInterface.set_hsl_attribute] *)
Definition set_hsl_attribute (vid : Z) (attribute : HSLAttribute) (value : Z)
  : Invocation :=
  let value :=
    if HSLAttribute_value attribute =? HSLAttribute_value Hue
    then clamp value 360
    else clamp value 100 in
  {| inv_vid := vid; inv_method := "RGBLoad.SetHSLAttribute";
     inv_params := [HSLAttribute_value attribute; value] |}.

Section Getters.
Variable invoke : Z -> string -> list Z -> res InterfaceResponse.

(** [RGBLoadInterface.get_rgb] *)
Definition get_rgb (vid channel : Z) : res Z :=
  let! response := invoke vid "RGBLoad.GetRGB" [channel] in
  let! '(_, value) := parse_get_rgb_response response in
  ok value.

(** [RGBLoadInterface.get_hsl] *)
Definition get_hsl (vid attribute : Z) : res Z :=
  let! response := invoke vid "RGBLoad.GetHSL" [attribute] in
  let! '(_, value) := parse_get_hsl_response response in
  ok value.

(** [RGBLoadInterface.get_rgbw] *)
Definition get_rgbw (vid channel : Z) : res Z :=
  let! response := invoke vid "RGBLoad.GetRGBW" [channel] in
  let! '(_, value) := parse_get_rgbw_response response in
  ok value.

(** [RGBLoadInterface.get_rgbw_color]:
    [tuple([await self.get_rgbw(vid, chan) for chan in self.RGBChannel])] *)
Definition get_rgbw_color (vid : Z) : res (list Z) :=
  rmapM (fun chan => get_rgbw vid (RGBChannel_value chan)) RGBChannel_members.

(** [RGBLoadInterface.get_hsl_color]:
    [tuple([await self.get_hsl(vid, attr) for attr in self.HSLAttribute])] *)
Definition get_hsl_color (vid : Z) : res (list Z) :=
  rmapM (fun attr => get_hsl vid (HSLAttribute_value attr)) HSLAttribute_members.
End Getters.

End RGBLoad.

(** ** Objects and their state attributes *)

Module Objects.

(** A finite [decimal.Decimal]: [coeff * 10 ^ expo].  The special values
    (NaN, which is not equal to itself, and the infinities) and the sign
    of a zero are not represented; statements about equal values are made
    for finite decimals only. *)
Record PyDecimal : Type := {
  coeff : Z;
  expo : Z;
}.

(** The values an attribute can hold. *)
Inductive value : Type :=
| VNone
| VBool (b : bool)
| VInt (z : Z)
| VDecimal (d : PyDecimal)
| VStr (s : string)
| VBytes (l : list Z).

(** Numbers compare by value across [bool], [int] and [Decimal]. *)
Definition numeric (v : value) : option PyDecimal :=
  match v with
  | VBool b => Some {| coeff := Z.b2z b; expo := 0 |}
  | VInt z => Some {| coeff := z; expo := 0 |}
  | VDecimal d => Some d
  | _ => None
  end.

Definition dec_eqb (a b : PyDecimal) : bool :=
  let e := Z.min (expo a) (expo b) in
  coeff a * 10 ^ (expo a - e) =? coeff b * 10 ^ (expo b - e).

(** Python's [a == b] on attribute values. *)
Definition py_eq (a b : value) : bool :=
  match numeric a, numeric b with
  | Some x, Some y => dec_eqb x y
  | None, None =>
      match a, b with
      | VNone, VNone => true
      | VStr s, VStr t => String.eqb s t
      | VBytes l, VBytes m => bool_decide (l = m)
      | _, _ => false
      end
  | _, _ => false
  end.

(** The text up to the first full stop, and the text after it if there is
    one. *)
Fixpoint split_dot (s : string) : string * option string :=
  match s with
  | EmptyString => ("", None)
  | String c rest =>
      if Ascii.eqb c "." then ("", Some rest)
      else let '(a, b) := split_dot rest in (String c a, b)
  end.

(** [Decimal(s)] on plain decimal numerals: an optional sign, digits, and
    an optional full stop followed by digits, with a digit on at least one
    side; on these it agrees with [Decimal].  Everything else gives
    [InvalidOperation] here, although [Decimal] also accepts exponent
    notation, [NaN], [Infinity], digit-group underscores and surrounding
    white space; the theorems apply it to fixed-point text, or speak only
    of the kind of exception. *)
Definition Decimal_of_str (s : string) : res PyDecimal :=
  let '(neg, body) :=
    match s with
    | String "-" r => (true, r)
    | String "+" r => (false, r)
    | _ => (false, s)
    end in
  let '(ip, fp) := split_dot body in
  let fp := default "" fp in
  if String.eqb (ip +:+ fp) "" then raise InvalidOperation
  else
    match NilEmpty.uint_of_string (ip +:+ fp) with
    | Some n =>
        ok {| coeff := if neg then - Z.of_uint n else Z.of_uint n;
              expo := - Z.of_nat (String.length fp) |}
    | None => raise InvalidOperation
    end.

(** A SystemObject: its system-wide id, its type tag and its attributes. *)
Record SystemObject : Type := {
  obj_id : Z;
  obj_type : string;
  obj_attrs : gmap string value;
}.

(** [getattr(obj, key)] and [setattr(obj, key, v)] *)
Definition getattr (obj : SystemObject) (key : string) : option value :=
  obj_attrs obj !! key.

Definition setattr (obj : SystemObject) (key : string) (v : value)
  : SystemObject :=
  {| obj_id := obj_id obj; obj_type := obj_type obj;
     obj_attrs := <[key := v]> (obj_attrs obj) |}.

(** [config_client/objects/temperature.py]: a [Temperature] as discovery
    builds it; [__post_init__] declares the state attribute [value] and
    leaves it [None]. *)
Definition Temperature (vid parent_id : Z) : SystemObject :=
  setattr
    {| obj_id := vid; obj_type := "Temperature";
       obj_attrs := {[ "parent_id" := VInt parent_id ]} |}
    "value" VNone.

End Objects.

(** ** The client object: [aiovantage/__init__.py] *)

Module Registry.

Export Objects.

(** Modelled from the spec: the cache of the absent [BaseController], a
    mapping from id to SystemObject scoped to the declared object types,
    with its membership test and id-indexed lookup. *)
Record Controller : Type := {
  vantage_types : list string;
  items : gmap Z SystemObject;
}.

(** [vid in controller] *)
Definition controller_contains (c : Controller) (vid : Z) : bool :=
  bool_decide (is_Some (items c !! vid)).

(** [controller[vid]] *)
Definition controller_getitem (c : Controller) (vid : Z) : res SystemObject :=
  of_option (KeyErrorId vid) (items c !! vid).

(** Modelled from the spec: how the absent [BaseController] fills its cache,
    keeping of the discovered catalog the objects whose type is one of the
    controller's declared [vantage_types]. *)
Definition populate (types : list string) (catalog : list SystemObject)
  : Controller :=
  {| vantage_types := types;
     items := list_to_map
                ((fun o => (obj_id o, o))
                   <$> filter (fun o => obj_type o ∈ types) catalog) |}.

(** The declarations found in the source:
    [TemperatureSensorsController], [LoadGroupsController] and
    [LoadsController]. *)
Definition TemperatureSensorsController_types : list string := ["Temperature"].
Definition LoadGroupsController_types : list string := ["LoadGroup"].
Definition LoadsController_types : list string := ["Load"].

(** [Vantage._controllers].  Python iterates the set in an order that is
    fixed for one instance; the list is that order. *)
Record Vantage : Type := {
  controllers : list Controller;
}.

(** The body of [Vantage.__getitem__]: the first controller, in iteration
    order, that contains the id answers. *)
Fixpoint getitem_loop (cs : list Controller) (vid : Z) : res SystemObject :=
  match cs with
  | [] => raise (KeyErrorId vid)
  | controller :: rest =>
      if controller_contains controller vid
      then controller_getitem controller vid
      else getitem_loop rest vid
  end.

(** The methods take the instance and hand it back next to their result, so
    that what they do to it can be stated. *)
Definition __getitem__ (vid : Z) (self : Vantage) : res SystemObject * Vantage :=
  (getitem_loop (controllers self) vid, self).

(** [any(vid in controller for controller in self._controllers)] *)
Definition __contains__ (vid : Z) (self : Vantage) : bool * Vantage :=
  (existsb (fun controller => controller_contains controller vid)
     (controllers self), self).

(** [Vantage.get]: [KeyError] becomes [None], anything else propagates. *)
Definition get (vid : Z) (self : Vantage)
  : res (option SystemObject) * Vantage :=
  match __getitem__ vid self with
  | (inr o, self') => (ok (Some o), self')
  | (inl (KeyErrorId _), self') => (ok None, self')
  | (inl (KeyError _), self') => (ok None, self')
  | (inl e, self') => (raise e, self')
  end.

(** A client whose controllers were filled from one catalog. *)
Definition build (declared : list (list string)) (catalog : list SystemObject)
  : Vantage :=
  {| controllers := (fun types => populate types catalog) <$> declared |}.

(** Modelled from the spec: full iteration over the cache of the absent
    [BaseController], the cached objects one after the other. *)
Definition controller_iter (c : Controller) : list SystemObject :=
  snd <$> map_to_list (items c).

(** [Vantage.__iter__]: [yield from controller] for each controller in
    turn. *)
Definition __iter__ (self : Vantage) : list SystemObject * Vantage :=
  (controller ← controllers self; controller_iter controller, self).

End Registry.

(** ** Thermostats: [command_client/interfaces/thermostat.py] *)

Module Thermostat.

(** [class Status(IntEnum)] *)
Inductive Status : Type := Off | Cooling | Heating | Offline.

Definition Status_value (s : Status) : Z :=
  match s with
  | Off => 0
  | Cooling => 1
  | Heating => 2
  | Offline => 3
  end.

Definition Status_name (s : Status) : string :=
  match s with
  | Off => "Off"
  | Cooling => "Cooling"
  | Heating => "Heating"
  | Offline => "Offline"
  end.

Definition Status_members : list Status := [Off; Cooling; Heating; Offline].

(** [Status[name]]: lookup in the name table, [KeyError] for anything that
    is not a member's name. *)
Definition Status_getitem (name : string) : res Status :=
  of_option (KeyError name)
    (List.find (fun s => String.eqb (Status_name s) name) Status_members).

(** Modelled from the spec: what the absent [Interface.invoke] hands back
    in this interface, the reply's tokens after the command word.  The reply shapes written at the call sites of the
    source, [R:INVOKE <id> <status> Thermostat.GetStatus] read through
    [args[1]], place the id at index 0 and the result at index 1. *)
Record CommandResponse : Type := {
  command : string;
  args : list string;
}.

(** Modelled from the spec: the absent command client's reading of a reply
    line, tokens separated by single spaces, the first being the command
    word behind its two-character [R:] prefix. *)
Fixpoint split_sp (cur : string) (s : string) : list string :=
  match s with
  | EmptyString => [cur]
  | String c rest =>
      if Ascii.eqb c " " then cur :: split_sp "" rest
      else split_sp (cur +:+ String c "") rest
  end.

(** Modelled from the spec: a reply line
    [R:<COMMAND> <id> <result> <Interface.Method> [arg ...]] as the absent
    command client turns it into a response. *)
Definition parse_reply (line : string) : res CommandResponse :=
  match split_sp "" line with
  | String "R" (String ":" cmd) :: rest =>
      ok {| command := cmd; args := rest |}
  | _ => raise ValueError
  end.

Section WithClient.
Variable invoke : Z -> string -> res CommandResponse.

(** [ThermostatInterface.get_status] *)
Definition get_status (vid : Z) : res Status :=
  let! response := invoke vid "Thermostat.GetStatus" in
  let! name := subscript (args response) 1 in
  Status_getitem name.
End WithClient.

(** A client whose connection answers every request with [line]. *)
Definition replying (line : string) (_ : Z) (_ : string) : res CommandResponse :=
  parse_reply line.

(** An [IntEnum]: its members in declaration order, each with its name and
    its value. *)
Class IntEnum (E : Type) : Type := {
  enum_members : list E;
  enum_name : E -> string;
  enum_value : E -> Z;
}.

(** [E[name]]: lookup in the name table of the enumeration, [KeyError] for
    anything that is not a member's name. *)
Definition enum_getitem {E} `{IntEnum E} (name : string) : res E :=
  of_option (KeyError name)
    (List.find (fun m => String.eqb (enum_name m) name) enum_members).

(** [class OperationMode(IntEnum)] *)
Module OperationMode.
Inductive t : Type := Off | Cool | Heat | Auto | Unknown.
End OperationMode.

#[global] Instance OperationMode_enum : IntEnum OperationMode.t := {|
  enum_members :=
    [OperationMode.Off; OperationMode.Cool; OperationMode.Heat;
     OperationMode.Auto; OperationMode.Unknown];
  enum_name m :=
    match m with
    | OperationMode.Off => "Off"
    | OperationMode.Cool => "Cool"
    | OperationMode.Heat => "Heat"
    | OperationMode.Auto => "Auto"
    | OperationMode.Unknown => "Unknown"
    end;
  enum_value m :=
    match m with
    | OperationMode.Off => 0
    | OperationMode.Cool => 1
    | OperationMode.Heat => 2
    | OperationMode.Auto => 3
    | OperationMode.Unknown => 4
    end;
|}.

(** [class FanMode(IntEnum)] *)
Module FanMode.
Inductive t : Type := Off | On | Unknown.
End FanMode.

#[global] Instance FanMode_enum : IntEnum FanMode.t := {|
  enum_members := [FanMode.Off; FanMode.On; FanMode.Unknown];
  enum_name m :=
    match m with
    | FanMode.Off => "Off"
    | FanMode.On => "On"
    | FanMode.Unknown => "Unknown"
    end;
  enum_value m :=
    match m with
    | FanMode.Off => 0
    | FanMode.On => 1
    | FanMode.Unknown => 2
    end;
|}.

(** [class DayMode(IntEnum)] *)
Module DayMode.
Inductive t : Type := Day | Night | Unknown | Standby.
End DayMode.

#[global] Instance DayMode_enum : IntEnum DayMode.t := {|
  enum_members := [DayMode.Day; DayMode.Night; DayMode.Unknown; DayMode.Standby];
  enum_name m :=
    match m with
    | DayMode.Day => "Day"
    | DayMode.Night => "Night"
    | DayMode.Unknown => "Unknown"
    | DayMode.Standby => "Standby"
    end;
  enum_value m :=
    match m with
    | DayMode.Day => 0
    | DayMode.Night => 1
    | DayMode.Unknown => 2
    | DayMode.Standby => 3
    end;
|}.

(** [class HoldMode(IntEnum)] *)
Module HoldMode.
Inductive t : Type := Normal | Hold | Unknown.
End HoldMode.

#[global] Instance HoldMode_enum : IntEnum HoldMode.t := {|
  enum_members := [HoldMode.Normal; HoldMode.Hold; HoldMode.Unknown];
  enum_name m :=
    match m with
    | HoldMode.Normal => "Normal"
    | HoldMode.Hold => "Hold"
    | HoldMode.Unknown => "Unknown"
    end;
  enum_value m :=
    match m with
    | HoldMode.Normal => 0
    | HoldMode.Hold => 1
    | HoldMode.Unknown => 2
    end;
|}.

Section Getters.
Variable invoke : Z -> string -> res CommandResponse.

(** [ThermostatInterface.get_operation_mode] *)
Definition get_operation_mode (vid : Z) : res OperationMode.t :=
  let! response := invoke vid "Thermostat.GetOperationMode" in
  let! name := subscript (args response) 1 in
  enum_getitem name.

(** [ThermostatInterface.get_fan_mode] *)
Definition get_fan_mode (vid : Z) : res FanMode.t :=
  let! response := invoke vid "Thermostat.GetFanMode" in
  let! name := subscript (args response) 1 in
  enum_getitem name.

(** [ThermostatInterface.get_day_mode] *)
Definition get_day_mode (vid : Z) : res DayMode.t :=
  let! response := invoke vid "Thermostat.GetDayMode" in
  let! name := subscript (args response) 1 in
  enum_getitem name.

(** [ThermostatInterface.get_hold_mode] *)
Definition get_hold_mode (vid : Z) : res HoldMode.t :=
  let! response := invoke vid "Thermostat.GetHoldMode" in
  let! name := subscript (args response) 1 in
  enum_getitem name.

(** [ThermostatInterface.get_indoor_temperature]:
    [Decimal(response.args[1])] *)
Definition get_indoor_temperature (vid : Z) : res Objects.PyDecimal :=
  let! response := invoke vid "Thermostat.GetIndoorTemperature" in
  let! temp := subscript (args response) 1 in
  Objects.Decimal_of_str temp.

(** [ThermostatInterface.get_outdoor_temperature] *)
Definition get_outdoor_temperature (vid : Z) : res Objects.PyDecimal :=
  let! response := invoke vid "Thermostat.GetOutdoorTemperature" in
  let! temp := subscript (args response) 1 in
  Objects.Decimal_of_str temp.

(** [ThermostatInterface.get_heat_set_point] *)
Definition get_heat_set_point (vid : Z) : res Objects.PyDecimal :=
  let! response := invoke vid "Thermostat.GetHeatSetPoint" in
  let! temp := subscript (args response) 1 in
  Objects.Decimal_of_str temp.

(** [ThermostatInterface.get_cool_set_point] *)
Definition get_cool_set_point (vid : Z) : res Objects.PyDecimal :=
  let! response := invoke vid "Thermostat.GetCoolSetPoint" in
  let! temp := subscript (args response) 1 in
  Objects.Decimal_of_str temp.

(** [ThermostatInterface.get_auto_set_point] *)
Definition get_auto_set_point (vid : Z) : res Objects.PyDecimal :=
  let! response := invoke vid "Thermostat.GetAutoSetPoint" in
  let! temp := subscript (args response) 1 in
  Objects.Decimal_of_str temp.
End Getters.

End Thermostat.

(** ** Controllers: state updates and status pushes *)

Module Controller.

Export Objects.

(** Modelled from the spec: the notification a controller emits: the object's id and the
    names of the attributes that changed, in update order. *)
Record Event : Type := {
  ev_vid : Z;
  ev_attrs_changed : list string;
}.

Record Subscription : Type := {
  callback : nat;
  objectFilter : option (SystemObject -> bool);
}.

Definition matches (obj : SystemObject) (s : Subscription) : bool :=
  match objectFilter s with
  | None => true
  | Some f => f obj
  end.

(** Modelled from the spec: an update entry differs from the cache when the attribute was never set
    or holds a value that is not equal to the new one. *)
Definition differs (cached : option value) (v : value) : bool :=
  match cached with
  | Some old => negb (py_eq old v)
  | None => true
  end.

(** Modelled from the spec: [update_state] of the absent [BaseController].
    Each entry of the partial update is compared against the cached value;
    only entries that differ are written; the names written are collected. *)
Fixpoint update_loop (obj : SystemObject) (state : list (string * value))
  : SystemObject * list string :=
  match state with
  | [] => (obj, [])
  | (key, v) :: rest =>
      if differs (getattr obj key) v then
        let '(obj', changed) := update_loop (setattr obj key v) rest in
        (obj', key :: changed)
      else update_loop obj rest
  end.

(** The names of the entries of a partial update whose value differs from
    what the object holds. *)
Definition changed_keys (obj : SystemObject) (state : list (string * value))
  : list string :=
  fst <$> filter (fun kv => differs (getattr obj (fst kv)) (snd kv) = true) state.

(** Modelled from the spec: an event is emitted only when the changed set
    is not empty. *)
Definition update_state (obj : SystemObject) (state : list (string * value))
  : SystemObject * list Event :=
  let '(obj', changed) := update_loop obj state in
  match changed with
  | [] => (obj', [])
  | _ :: _ => (obj', [ {| ev_vid := obj_id obj'; ev_attrs_changed := changed |} ])
  end.

(** Modelled from the spec: every matching subscription is invoked once per
    emitted event; the result lists the callback invocations. *)
Definition notify (subs : list Subscription) (obj : SystemObject)
    (events : list Event) : list (nat * Event) :=
  ev ← events; (fun s => (callback s, ev)) <$> filter (fun s => matches obj s = true) subs.

(** [controllers/temperature_sensors.py] *)
Definition status_types : list string := ["TEMP"].

Definition handle_category_status (obj : SystemObject) (status : string)
    (args : list string) : res (SystemObject * list Event) :=
  if negb (String.eqb status "TEMP") then ok (obj, [])
  else
    let! arg0 := subscript args 0 in
    let! d := Decimal_of_str arg0 in
    let state := [("value", VDecimal d)] in
    ok (update_state obj state).

(** Modelled from the spec: the ControllerCache of one controller. *)
Record State : Type := {
  items : gmap Z SystemObject;
}.

(** Modelled from the spec: a status push [S:<CATEGORY> <id> [arg ...]] as
    the absent event stream reads it. *)
Definition parse_status (line : string) : res (string * Z * list string) :=
  match Thermostat.split_sp "" line with
  | String "S" (String ":" category) :: vid :: args =>
      let! n := Text.python_int vid in
      ok (category, n, args)
  | _ => raise ValueError
  end.

(** Modelled from the spec: the absent [BaseController] hands a status push
    of one of its declared categories, for an object it caches, to
    [handle_category_status]; the object in the cache is the one updated.
    The result carries the events emitted. *)
Definition handle_status_line (c : State) (line : string)
  : res (State * list Event) :=
  let! '(category, vid, args) := parse_status line in
  if bool_decide (category ∈ status_types) then
    match items c !! vid with
    | None => ok (c, [])
    | Some obj =>
        let! '(obj', events) := handle_category_status obj category args in
        ok ({| items := <[vid := obj']> (items c) |}, events)
    end
  else ok (c, []).

End Controller.

(** ** Object interfaces: variables and current sensors *)

Module Interface.

Export Objects.

(** Modelled from the spec: [update_property] of the absent [Interface]
    base class, the single-attribute form of [update_state]: the attribute
    is written only when the new value differs from the cached one, and its
    name is returned when it was written. *)
Definition update_property (obj : SystemObject) (property : string)
    (v : value) : SystemObject * option string :=
  if Controller.differs (getattr obj property) v
  then (setattr obj property v, Some property)
  else (obj, None).

End Interface.

Module GMem.

Export Interface.

(** [GMemInterface.fetch_state], given the value that [get_value] fetched:
    the list holding the changed property's name, or [None]. *)
Definition fetch_state (obj : SystemObject) (fetched : value)
  : SystemObject * option (list string) :=
  match update_property obj "value" fetched with
  | (obj', Some changed) =>
      if String.eqb changed "" then (obj', None) else (obj', Some [changed])
  | (obj', None) => (obj', None)
  end.

End GMem.

Module CurrentSensor.

Export Interface.

(** [CurrentSensorInterface.handle_category_status] *)
Definition handle_category_status (obj : SystemObject) (category : string)
    (args : list string) : res (SystemObject * option string) :=
  if String.eqb category "CURRENT" then
    let! arg0 := subscript args 0 in
    let! d := Decimal_of_str arg0 in
    ok (update_property obj "current" (VDecimal d))
  else ok (obj, None).

End CurrentSensor.

(** ** The command client *)

Module CommandClient.

(** Modelled from the spec: a PendingRequest, its target, method and arguments; the completion it
    carries is named by [ticket]. *)
Record Request : Type := {
  ticket : nat;
  targetId : Z;
  method : string;
  args : list string;
}.

(** Modelled from the spec: a parsed reply line [R:INVOKE <id> <result> <Interface.Method> [arg ...]]. *)
Record Reply : Type := {
  reply_id : Z;
  reply_result : Z;
  reply_method : string;
  reply_args : list string;
}.

Inductive completion : Type :=
| Succeeded (r : Reply)
| Failed (e : exn).

(** Modelled from the spec: what the client does to its connection:
    connect, perform the login handshake, send a request line. *)
Inductive wire : Type :=
| Connect
| Login
| Write (rq : Request).

Inductive link : Type := Closed | Ready.

(** Modelled from the spec: the state of the absent [CommandClient]: its
    connection, the FIFO of admitted calls (the head is the one sent), the
    log of what was put on the connection, and the completions resolved so
    far, oldest first. *)
Record Client : Type := {
  connection : link;
  queue : list Request;
  written : list wire;
  resolved : list (nat * completion);
}.

Definition initial : Client :=
  {| connection := Closed; queue := []; written := []; resolved := [] |}.

(** Modelled from the spec: what the scheduler hands to the client: a
    caller's [invoke], a parsed reply line, the deadline of the outstanding
    request, the loss of the connection. *)
Inductive event : Type :=
| Invoke (rq : Request)
| ReplyLine (r : Reply)
| Deadline
| ConnectionDropped.

(** Modelled from the spec: a non-zero result code is a [CommandError]
    carrying the code. *)
Definition outcome (r : Reply) : completion :=
  if reply_result r =? 0 then Succeeded r else Failed (CommandError (reply_result r)).

(** Modelled from the spec: the client reconnects lazily, on next use, and
    connecting includes the login handshake. *)
Definition ensure_connected (c : Client) : Client :=
  match connection c with
  | Ready => c
  | Closed =>
      {| connection := Ready; queue := queue c;
         written := written c ++ [Connect; Login]; resolved := resolved c |}
  end.

(** Modelled from the spec: the head of the queue, if any, goes on the
    wire. *)
Definition send_head (c : Client) : Client :=
  match queue c with
  | [] => c
  | rq :: _ =>
      {| connection := connection c; queue := queue c;
         written := written c ++ [Write rq]; resolved := resolved c |}
  end.

(** Modelled from the spec: the head leaves the queue with its completion
    and the next queued call is sent. *)
Definition resolve_head (c : Client) (how : Request -> completion) : Client :=
  match queue c with
  | [] => c
  | rq :: rest =>
      send_head
        {| connection := connection c; queue := rest; written := written c;
           resolved := resolved c ++ [(ticket rq, how rq)] |}
  end.

(** Modelled from the spec: one step of the correlation algorithm and of
    its failure handling. *)
Definition step (c : Client) (e : event) : Client :=
  match e with
  | Invoke rq =>
      let c := ensure_connected c in
      match queue c with
      | [] =>
          send_head
            {| connection := connection c; queue := [rq];
               written := written c; resolved := resolved c |}
      | _ :: _ =>
          {| connection := connection c; queue := queue c ++ [rq];
             written := written c; resolved := resolved c |}
      end
  | ReplyLine r => resolve_head c (fun _ => outcome r)
  | Deadline => resolve_head c (fun _ => Failed TimeoutError)
  | ConnectionDropped =>
      {| connection := Closed; queue := [];
         written := written c;
         resolved := resolved c
                     ++ ((fun rq => (ticket rq, Failed ConnectionLostError))
                           <$> queue c) |}
  end.

Definition run (c : Client) (es : list event) : Client := foldl step c es.

(** The requests written to the connection, in wire order. *)
Definition writes (l : list wire) : list Request :=
  omap (fun a => match a with Write rq => Some rq | _ => None end) l.

Definition invoked (es : list event) : list Request :=
  omap (fun e => match e with Invoke rq => Some rq | _ => None end) es.

(** Modelled from the spec: the client together with the controller at the
    other end, which
    answers the request lines it has read in the order it read them.
    [served] counts the reply lines it has produced. *)
Record World : Type := {
  client : Client;
  served : nat;
}.

(** Request lines written and not yet answered. *)
Definition outstanding (w : World) : list Request :=
  drop (served w) (writes (written (client w))).

Inductive action : Type :=
| Call (rq : Request)
| Deliver.

Section WithController.
Variable answer : Request -> Reply.

Definition world_step (w : World) (a : action) : World :=
  match a with
  | Call rq => {| client := step (client w) (Invoke rq); served := served w |}
  | Deliver =>
      match outstanding w with
      | [] => w
      | rq :: _ =>
          {| client := step (client w) (ReplyLine (answer rq));
             served := S (served w) |}
      end
  end.

Definition world_run (w : World) (acts : list action) : World :=
  foldl world_step w acts.

(** The completion a call gets when it is resolved with the controller's
    answer to its own request. *)
Definition own_completion (rq : Request) : nat * completion :=
  (ticket rq, outcome (answer rq)).

(** With [cs] the calls admitted so far, in admission order: the first
    [served] are resolved, each with its own completion, the others are
    queued in order, and what went on the wire is the resolved calls
    followed by the head of the queue. *)
Definition fifo_inv (cs : list Request) (w : World) : Prop :=
  (served w <= length cs)%nat
  /\ queue (client w) = drop (served w) cs
  /\ writes (written (client w)) = take (S (served w)) cs
  /\ resolved (client w) = own_completion <$> take (served w) cs.
End WithController.

Definition calls (acts : list action) : list Request :=
  omap (fun a => match a with Call rq => Some rq | Deliver => None end) acts.

Definition world0 : World := {| client := initial; served := 0 |}.

End CommandClient.

(** ** The value codec *)

Module Codec.

Export Objects.

(** *** Characters and text *)

Definition is_digit (c : ascii) : bool :=
  match c with
  | "0" | "1" | "2" | "3" | "4" | "5" | "6" | "7" | "8" | "9" => true
  | _ => false
  end%char.

Fixpoint all_chars (p : ascii -> bool) (s : string) : bool :=
  match s with
  | EmptyString => true
  | String c rest => p c && all_chars p rest
  end.

(** One or more decimal digits. *)
Definition digits1 (s : string) : bool :=
  match s with
  | EmptyString => false
  | _ => all_chars is_digit s
  end.

Fixpoint str_take (n : nat) (s : string) : string :=
  match n, s with
  | S n', String c rest => String c (str_take n' rest)
  | _, _ => ""
  end.

Fixpoint str_drop (n : nat) (s : string) : string :=
  match n, s with
  | S n', String _ rest => str_drop n' rest
  | _, _ => s
  end.

Fixpoint zeros (n : nat) : string :=
  match n with
  | O => ""
  | S n' => String "0" (zeros n')
  end.

(** The decimal digits of a natural number, ["0"] for zero. *)
Definition digits_of (n : N) : string :=
  NilEmpty.string_of_uint (N.to_uint n).

Definition optional_minus (s : string) : bool * string :=
  match s with
  | String c r => if Ascii.eqb c "-" then (true, r) else (false, s)
  | EmptyString => (false, s)
  end.

(** *** Types and values *)

(** Modelled from the spec: an enumeration is its explicit table of names
    and ordinals. *)
Definition enumeration : Type := list (string * Z).

Inductive ty : Type :=
| TInt
| TDecimal
| TBool
| TStr
| TBytes
| TEnum (table : enumeration).

Inductive value : Type :=
| VInt (z : Z)
| VDecimal (d : PyDecimal)
| VBool (b : bool)
| VStr (s : string)
| VBytes (l : list Z)
| VEnum (table : enumeration) (name : string) (ordinal : Z).

Definition type_of (v : value) : ty :=
  match v with
  | VInt _ => TInt
  | VDecimal _ => TDecimal
  | VBool _ => TBool
  | VStr _ => TStr
  | VBytes _ => TBytes
  | VEnum table _ _ => TEnum table
  end.

(** Modelled from the spec: the values the wire can carry: a fixed-point decimal has no positive
    exponent, a byte is in 0..255, an enumeration member is an entry of its
    table and the table's names are distinct. *)
Definition representable (v : value) : Prop :=
  match v with
  | VDecimal d => expo d <= 0
  | VBytes l => Forall (fun b => 0 <= b < 256) l
  | VEnum table name ordinal => NoDup table.*1 /\ (name, ordinal) ∈ table
  | _ => True
  end.

(** Modelled from the spec: the two wire forms of a byte buffer. *)
Inductive bytes_form : Type := HexPairs | DecimalList.

(** *** Encoding *)

(** Modelled from the spec: integers are decimal text. *)
Definition encode_int (z : Z) : string := Text.str_of_int z.

(** Modelled from the spec: a fixed-point value is decimal text: sign,
    integer digits, and as many fractional digits as the exponent says. *)
Definition encode_decimal (d : PyDecimal) : string :=
  if 0 <? expo d then Text.str_of_int (coeff d * 10 ^ expo d)
  else
    let k := Z.to_nat (- expo d) in
    let ds := digits_of (Z.to_N (Z.abs (coeff d))) in
    let padded := zeros (S k - String.length ds) +:+ ds in
    let cut := (String.length padded - k)%nat in
    (if coeff d <? 0 then "-" else "")
      +:+ str_take cut padded
      +:+ (match k with O => "" | S _ => String "." (str_drop cut padded) end).

(** Modelled from the spec: booleans are [0] and [1]. *)
Definition encode_bool (b : bool) : string := if b then "1" else "0".

(** The double quote and the backslash, characters 34 and 92. *)
Definition dquote : ascii :=
  Ascii false true false false false true false false.

Definition backslash : ascii :=
  Ascii false false true true true false true false.

(** Modelled from the spec: an embedded double quote is written as a
    backslash and the quote. *)
Fixpoint escape (s : string) : string :=
  match s with
  | EmptyString => ""
  | String c rest =>
      if Ascii.eqb c dquote then String backslash (String dquote (escape rest))
      else String c (escape rest)
  end.

(** Modelled from the spec: a string goes between double quotes. *)
Definition encode_str (s : string) : string :=
  String dquote (escape s +:+ String dquote "").

(** The upper-case hexadecimal digit of a number below 16. *)
Definition hex_digit (n : Z) : ascii :=
  ascii_of_nat (Z.to_nat (if n <? 10 then 48 + n else 55 + n)).

Definition hex_pair (b : Z) : string :=
  String (hex_digit (b / 16)) (String (hex_digit (b mod 16)) "").

Fixpoint join_comma (l : list string) : string :=
  match l with
  | [] => ""
  | [x] => x
  | x :: rest => x +:+ String "," (join_comma rest)
  end.

(** Modelled from the spec: a byte buffer is [{h1,h2,...}], hexadecimal
    pairs, or [[b1,b2,...]], decimal bytes. *)
Definition encode_bytes (form : bytes_form) (l : list Z) : string :=
  match form with
  | HexPairs => String "{" (join_comma (hex_pair <$> l) +:+ "}")
  | DecimalList => String "[" (join_comma (Text.str_of_int <$> l) +:+ "]")
  end.

(** Modelled from the spec: [encode] of the absent codec; it is total, and
    an enumeration member goes by its symbolic name. *)
Definition encode (form : bytes_form) (v : value) : string :=
  match v with
  | VInt z => encode_int z
  | VDecimal d => encode_decimal d
  | VBool b => encode_bool b
  | VStr s => encode_str s
  | VBytes l => encode_bytes form l
  | VEnum _ name _ => name
  end.

(** *** Decoding *)

(** Modelled from the spec: the decoders of the absent codec, one per
    type; each fails with [DecodeError]. *)
Definition decode_int (tok : string) : res Z :=
  of_option DecodeError (Z.of_int <$> NilZero.int_of_string tok).

Definition decode_decimal (tok : string) : res PyDecimal :=
  let '(neg, body) := optional_minus tok in
  let '(ip, fp) := split_dot body in
  match ip, fp with
  | EmptyString, _ => raise DecodeError
  | _, Some EmptyString => raise DecodeError
  | _, _ =>
      let fp := default "" fp in
      match NilEmpty.uint_of_string (ip +:+ fp) with
      | Some n =>
          ok {| coeff := if neg then - Z.of_uint n else Z.of_uint n;
                expo := - Z.of_nat (String.length fp) |}
      | None => raise DecodeError
      end
  end.

Definition decode_bool (tok : string) : res bool :=
  match tok with
  | "0" => ok false
  | "1" => ok true
  | _ => raise DecodeError
  end.

(** What follows the opening quote, up to and including the closing one. *)
Fixpoint unescape (s : string) : option string :=
  match s with
  | EmptyString => None
  | String c rest =>
      match rest with
      | EmptyString => if Ascii.eqb c dquote then Some "" else None
      | String c2 rest2 =>
          if Ascii.eqb c dquote then None
          else if Ascii.eqb c backslash && Ascii.eqb c2 dquote then
            match rest2 with
            | EmptyString => Some (String backslash "")
            | _ => String dquote <$> unescape rest2
            end
          else String c <$> unescape rest
      end
  end.

Definition decode_str (tok : string) : res string :=
  match tok with
  | String c rest =>
      if Ascii.eqb c dquote then of_option DecodeError (unescape rest)
      else raise DecodeError
  | EmptyString => raise DecodeError
  end.

(** The value of a hexadecimal digit of either case, from its character
    code. *)
Definition hex_value (c : ascii) : option Z :=
  let code := Z.of_nat (nat_of_ascii c) in
  if (48 <=? code) && (code <=? 57) then Some (code - 48)
  else if (65 <=? code) && (code <=? 70) then Some (code - 55)
  else if (97 <=? code) && (code <=? 102) then Some (code - 87)
  else None.

Definition decode_hex_pair (s : string) : option Z :=
  match s with
  | String h (String l EmptyString) =>
      hv ← hex_value h; lv ← hex_value l; Some (16 * hv + lv)
  | _ => None
  end.

Definition decode_dec_byte (s : string) : option Z :=
  n ← NilZero.uint_of_string s;
  if Z.of_uint n <? 256 then Some (Z.of_uint n) else None.

(** The comma-separated items up to the closing bracket, which must end
    the token. *)
Fixpoint split_items (close : ascii) (cur : string) (s : string)
  : option (list string) :=
  match s with
  | EmptyString => None
  | String c rest =>
      if Ascii.eqb c close then
        match rest with
        | EmptyString => Some [cur]
        | _ => None
        end
      else if Ascii.eqb c "," then (cons cur) <$> split_items close "" rest
      else split_items close (cur +:+ String c "") rest
  end.

(** An item holds neither a comma nor the closing bracket. *)
Definition plain (close : ascii) (i : string) : bool :=
  all_chars (fun c => negb (Ascii.eqb c close) && negb (Ascii.eqb c ",")) i.

Definition decode_items (item : string -> option Z) (close : ascii)
    (rest : string) : option (list Z) :=
  items ← split_items close "" rest;
  match items with
  | [EmptyString] => Some []
  | _ => mapM item items
  end.

Definition decode_bytes (tok : string) : res (list Z) :=
  match tok with
  | String "{" rest => of_option DecodeError (decode_items decode_hex_pair "}" rest)
  | String "[" rest => of_option DecodeError (decode_items decode_dec_byte "]" rest)
  | _ => raise DecodeError
  end.

(** Modelled from the spec: an enumeration member is decoded by looking
    its name up in the table, never from an ordinal. *)
Definition decode_enum (table : enumeration) (tok : string) : res value :=
  match List.find (fun entry => String.eqb (fst entry) tok) table with
  | Some (name, ordinal) => ok (VEnum table name ordinal)
  | None => raise DecodeError
  end.

(** Modelled from the spec: [decode(token, expectedType)] of the absent
    codec. *)
Definition decode (t : ty) (tok : string) : res value :=
  match t with
  | TInt => let! z := decode_int tok in ok (VInt z)
  | TDecimal => let! d := decode_decimal tok in ok (VDecimal d)
  | TBool => let! b := decode_bool tok in ok (VBool b)
  | TStr => let! s := decode_str tok in ok (VStr s)
  | TBytes => let! l := decode_bytes tok in ok (VBytes l)
  | TEnum table => decode_enum table tok
  end.

(** *** The grammar of each type's tokens *)

(** Modelled from the spec: the grammar of a signed integer, an optional
    minus sign and one or more digits. *)
Definition is_int_token (tok : string) : bool :=
  digits1 (snd (optional_minus tok)).

(** Modelled from the spec: the grammar of a fixed-point decimal, an
    optional minus sign, one or more digits and, optionally, a full stop
    followed by one or more digits. *)
Definition is_decimal_token (tok : string) : bool :=
  let '(ip, fp) := split_dot (snd (optional_minus tok)) in
  digits1 ip && match fp with None => true | Some f => digits1 f end.

(** Modelled from the spec: the grammar of a boolean, [0] or [1]. *)
Definition is_bool_token (tok : string) : bool :=
  String.eqb tok "0" || String.eqb tok "1".

(** Modelled from the spec: the grammar of a quoted string.  After the
    opening quote: every double quote but the last character is
    preceded by a backslash, and the last character is a double quote. *)
Fixpoint quoted_tail (after_backslash : bool) (s : string) : bool :=
  match s with
  | EmptyString => false
  | String c EmptyString => Ascii.eqb c dquote
  | String c rest =>
      (if Ascii.eqb c dquote then after_backslash else true)
      && quoted_tail (Ascii.eqb c backslash) rest
  end.

Definition is_str_token (tok : string) : bool :=
  match tok with
  | String c rest => Ascii.eqb c dquote && quoted_tail false rest
  | EmptyString => false
  end.

Definition is_hex (c : ascii) : bool :=
  match c with
  | "0" | "1" | "2" | "3" | "4" | "5" | "6" | "7" | "8" | "9"
  | "A" | "B" | "C" | "D" | "E" | "F"
  | "a" | "b" | "c" | "d" | "e" | "f" => true
  | _ => false
  end%char.

(** Exactly two hexadecimal digits. *)
Definition is_hex_pair (s : string) : bool :=
  match s with
  | String h (String l EmptyString) => is_hex h && is_hex l
  | _ => false
  end.

(** One or more digits naming a number below 256. *)
Definition is_dec_byte (s : string) : bool :=
  digits1 s
  && match NilEmpty.uint_of_string s with
     | Some n => Z.of_uint n <? 256
     | None => false
     end.

Definition is_item_list (item : string -> bool) (close : ascii)
    (rest : string) : bool :=
  match split_items close "" rest with
  | Some [EmptyString] => true
  | Some items => forallb item items
  | None => false
  end.

(** Modelled from the spec: the grammar of a byte buffer,
    [{h1,h2,...}] or [[b1,b2,...]], possibly empty. *)
Definition is_bytes_token (tok : string) : bool :=
  match tok with
  | String "{" rest => is_item_list is_hex_pair "}" rest
  | String "[" rest => is_item_list is_dec_byte "]" rest
  | _ => false
  end.

(** Modelled from the spec: the grammar of an enumeration member, a name
    of the enumeration's table. *)
Definition is_enum_token (table : enumeration) (tok : string) : bool :=
  existsb (fun entry => String.eqb (fst entry) tok) table.

(** Modelled from the spec: the grammar of the expected type. *)
Definition in_grammar (t : ty) (tok : string) : bool :=
  match t with
  | TInt => is_int_token tok
  | TDecimal => is_decimal_token tok
  | TBool => is_bool_token tok
  | TStr => is_str_token tok
  | TBytes => is_bytes_token tok
  | TEnum table => is_enum_token table tok
  end.

End Codec.

(** ** Variables: [object_interfaces/gmem.py] *)

Module GMemInterface.

Export Interface.

(** [s.startswith(c)] and [s.endswith(c)] for a one-character [c]. *)
Definition startswith (c : ascii) (s : string) : bool :=
  match s with
  | String c' _ => Ascii.eqb c' c
  | EmptyString => false
  end.

Fixpoint endswith (c : ascii) (s : string) : bool :=
  match s with
  | EmptyString => false
  | String c' EmptyString => Ascii.eqb c' c
  | String _ rest => endswith c rest
  end.

(** [GMemInterface._parse_value]: a token wrapped in double quotes is
    deserialized as [str], one wrapped in braces or square brackets as
    [bytes], anything else as [int]; [converter.deserialize(T, value)] is
    the decoder of the codec for [T]. *)
Definition _parse_value (value : string) : res Objects.value :=
  if startswith Codec.dquote value && endswith Codec.dquote value then
    let! s := Codec.decode_str value in ok (Objects.VStr s)
  else if (startswith "{" value && endswith "}" value)
          || (startswith "[" value && endswith "]" value) then
    let! l := Codec.decode_bytes value in ok (Objects.VBytes l)
  else
    let! z := Codec.decode_int value in ok (Objects.VInt z).

(** [GMemInterface.handle_category_status] *)
Definition handle_category_status (obj : SystemObject) (category : string)
    (args : list string) : res (SystemObject * option string) :=
  if String.eqb category "VARIABLE" then
    let! arg0 := subscript args 0 in
    let! v := _parse_value arg0 in
    ok (update_property obj "value" v)
  else ok (obj, None).

Section WithClient.
(** [self.command_client], [None] when the object was given none; its
    [command] takes the command word and the id. *)
Variable command_client
  : option (string -> Z -> res Thermostat.CommandResponse).

(** [GMemInterface.get_value] of the object with id [vid] *)
Definition get_value (vid : Z) : res Objects.value :=
  match command_client with
  | None => raise ValueError
  | Some command =>
      let! response := command "GETVARIABLE" vid in
      let! arg1 := subscript (Thermostat.args response) 1 in
      _parse_value arg1
  end.

(** [GMemInterface.fetch_state] *)
Definition fetch_state (obj : SystemObject)
  : res (SystemObject * option (list string)) :=
  let! value := get_value (obj_id obj) in
  ok (GMem.fetch_state obj value).
End WithClient.

End GMemInterface.

(** ** Loads and load groups: [_controllers/loads.py],
    [_controllers/load_groups.py] *)

Module Loads.

Export Registry.

(** Modelled from the spec: the query view [filter(predicate)] of the
    absent [BaseController]; consumed, it scans the cache and gives the
    cached objects that satisfy the predicate. *)
Definition filter_view (c : Controller) (predicate : SystemObject -> bool)
  : list SystemObject :=
  List.filter predicate (controller_iter c).

Section WithObjects.
(** What the controllers read of the absent [Load] and [LoadGroup]
    classes: four properties of a load and a group's table of load ids. *)
Variables is_on is_relay is_motor is_light : SystemObject -> bool.
Variable load_table : SystemObject -> list Z.

(** [LoadsController.on] *)
Definition on (self : Controller) : list SystemObject :=
  filter_view self (fun load => is_on load).

(** [LoadsController.off] *)
Definition off (self : Controller) : list SystemObject :=
  filter_view self (fun load => negb (is_on load)).

(** [LoadsController.relays] *)
Definition relays (self : Controller) : list SystemObject :=
  filter_view self (fun load => is_relay load).

(** [LoadsController.motors] *)
Definition motors (self : Controller) : list SystemObject :=
  filter_view self (fun load => is_motor load).

(** [LoadsController.lights] *)
Definition lights (self : Controller) : list SystemObject :=
  filter_view self (fun load => is_light load).

(** [LoadGroupsController.loads]; [vantage_loads] is
    [self._vantage.loads]. *)
Definition loads (self vantage_loads : Controller) (vid : Z)
  : res (list SystemObject) :=
  let! load_group := controller_getitem self vid in
  ok (filter_view vantage_loads
        (fun load => bool_decide (obj_id load ∈ load_table load_group))).
End WithObjects.

End Loads.

(** ** RGB loads: the setters that take floating-point levels *)

Module RGBLoadFloats.

(** A Python number handed to a setter: an [int], or a [float], which is
    a finite fraction, an infinity or NaN.  (Every finite float is a
    fraction [num / den]; its rounding is not modelled.) *)
Inductive number : Type :=
| NInt (z : Z)
| NFloat (num : Z) (den : positive)
| NInf (negative : bool)
| NNaN.

(** Python's [a < b]: exact between [int] and [float], false whenever NaN
    is involved. *)
Definition lt (a b : number) : bool :=
  match a, b with
  | NNaN, _ => false
  | _, NNaN => false
  | NInf s, NInf t => s && negb t
  | NInf s, _ => s
  | _, NInf t => negb t
  | NInt x, NInt y => x <? y
  | NInt x, NFloat n d => x * Z.pos d <? n
  | NFloat n d, NInt y => n <? y * Z.pos d
  | NFloat n d, NFloat n' d' => n * Z.pos d' <? n' * Z.pos d
  end.

(** [min(a, b)] and [max(a, b)]: the first argument is kept unless the
    second is strictly smaller (larger). *)
Definition py_min (a b : number) : number := if lt b a then b else a.
Definition py_max (a b : number) : number := if lt a b then b else a.

(** What [int(x)] raises: [ValueError] for NaN, [OverflowError] for an
    infinity. *)
Inductive int_exn : Type := IntValueError | IntOverflowError.

(** [int(x)]: truncation towards zero. *)
Definition py_int (x : number) : int_exn + Z :=
  match x with
  | NInt z => inr z
  | NFloat n d => inr (Z.quot n (Z.pos d))
  | NInf _ => inl IntOverflowError
  | NNaN => inl IntValueError
  end.

(** [int(max(min(x, hi), 0))] *)
Definition level (hi : Z) (x : number) : int_exn + Z :=
  py_int (py_max (py_min x (NInt hi)) (NInt 0)).

(** A call handed to [Interface.invoke]. *)
Record Invocation : Type := {
  inv_vid : Z;
  inv_method : string;
  inv_params : list number;
}.

Definition bind {A B} (m : int_exn + A) (k : A -> int_exn + B) : int_exn + B :=
  match m with
  | inl e => inl e
  | inr a => k a
  end.

(** [RGBLoadInterface.set_rgbw]: the invocation it awaits. *)
Definition set_rgbw (vid : Z) (red green blue white : number)
  : int_exn + Invocation :=
  bind (level 255 red) (fun red =>
  bind (level 255 green) (fun green =>
  bind (level 255 blue) (fun blue =>
  bind (level 255 white) (fun white =>
  inr {| inv_vid := vid; inv_method := "RGBLoad.SetRGBW";
         inv_params := [NInt red; NInt green; NInt blue; NInt white] |})))).

(** [RGBLoadInterface.dissolve_rgb] *)
Definition dissolve_rgb (vid : Z) (red green blue rate : number)
  : int_exn + Invocation :=
  bind (level 255 red) (fun red =>
  bind (level 255 green) (fun green =>
  bind (level 255 blue) (fun blue =>
  inr {| inv_vid := vid; inv_method := "RGBLoad.DissolveRGB";
         inv_params := [NInt red; NInt green; NInt blue; rate] |}))).

(** [RGBLoadInterface.dissolve_hsl] *)
Definition dissolve_hsl (vid : Z) (hue saturation lightness rate : number)
  : int_exn + Invocation :=
  bind (level 360 hue) (fun hue =>
  bind (level 100 saturation) (fun saturation =>
  bind (level 100 lightness) (fun lightness =>
  inr {| inv_vid := vid; inv_method := "RGBLoad.DissolveHSL";
         inv_params := [NInt hue; NInt saturation; NInt lightness; rate] |}))).

(** A [decimal.Decimal] handed to a setter: finite, an infinity or NaN. *)
Inductive decimal : Type :=
| DFinite (d : Objects.PyDecimal)
| DInfinity (negative : bool)
| DNaN.

(** A level handed to [set_hsl], whose signature admits [int], [float]
    and [Decimal]. *)
Inductive operand : Type :=
| ONumber (x : number)
| ODecimal (d : decimal).

(** The exact value [coeff * 10 ^ expo] of a finite decimal, as a
    fraction. *)
Definition fraction (d : Objects.PyDecimal) : Z * positive :=
  if 0 <=? Objects.expo d
  then (Objects.coeff d * 10 ^ Objects.expo d, 1%positive)
  else (Objects.coeff d, Z.to_pos (10 ^ (- Objects.expo d))).

(** The operand a [Decimal] is compared as: its comparisons with an [int]
    or a [float] are exact. *)
Definition number_of_decimal (d : decimal) : number :=
  match d with
  | DFinite d => let '(n, q) := fraction d in NFloat n q
  | DInfinity negative => NInf negative
  | DNaN => NNaN
  end.

Definition number_of_operand (a : operand) : number :=
  match a with
  | ONumber x => x
  | ODecimal d => number_of_decimal d
  end.

Definition is_nan (x : number) : bool :=
  match x with
  | NNaN => true
  | _ => false
  end.

(** What an ordering comparison with a [Decimal] operand raises when a NaN
    is involved: [decimal.InvalidOperation] (its trap is set in the default
    context). *)
Inductive operand_exn : Type := DecimalInvalidOperation.

(** Python's [a < b] on such levels: between numbers as [lt]; when a [Decimal]
    takes part the comparison is Decimal's, exact, and signals on NaN. *)
Definition operand_lt (a b : operand) : operand_exn + bool :=
  match a, b with
  | ONumber x, ONumber y => inr (lt x y)
  | _, _ =>
      if is_nan (number_of_operand a) || is_nan (number_of_operand b)
      then inl DecimalInvalidOperation
      else inr (lt (number_of_operand a) (number_of_operand b))
  end.

(** [min(a, b)] and [max(a, b)] on such levels. *)
Definition operand_min (a b : operand) : operand_exn + operand :=
  match operand_lt b a with
  | inl e => inl e
  | inr smaller => inr (if smaller then b else a)
  end.

Definition operand_max (a b : operand) : operand_exn + operand :=
  match operand_lt a b with
  | inl e => inl e
  | inr larger => inr (if larger then b else a)
  end.

(** [max(min(x, hi), 0)] *)
Definition clamp_operand (hi : Z) (x : operand) : operand_exn + operand :=
  match operand_min x (ONumber (NInt hi)) with
  | inl e => inl e
  | inr m => operand_max m (ONumber (NInt 0))
  end.

(** A call handed to [Interface.invoke] with levels for parameters. *)
Record LevelInvocation : Type := {
  call_vid : Z;
  call_method : string;
  call_params : list operand;
}.

(** [RGBLoadInterface.set_hsl]: the levels are clamped, one after the
    other, and handed on as they are, without [int]. *)
Definition set_hsl (vid : Z) (hue saturation lightness : operand)
  : operand_exn + LevelInvocation :=
  match clamp_operand 360 hue with
  | inl e => inl e
  | inr hue =>
      match clamp_operand 100 saturation with
      | inl e => inl e
      | inr saturation =>
          match clamp_operand 100 lightness with
          | inl e => inl e
          | inr lightness =>
              inr {| call_vid := vid; call_method := "RGBLoad.SetHSL";
                     call_params := [hue; saturation; lightness] |}
          end
      end
  end.

End RGBLoadFloats.

(** ** A small installation, used to exercise the definitions *)

Module Demo.

Definition catalog : list Objects.SystemObject :=
  [ Objects.Temperature 10 3;
    {| Objects.obj_id := 11; Objects.obj_type := "Load";
       Objects.obj_attrs := {[ "level" := Objects.VInt 0 ]} |};
    {| Objects.obj_id := 12; Objects.obj_type := "LoadGroup";
       Objects.obj_attrs := ∅ |} ].

Definition declared : list (list string) :=
  [ Registry.TemperatureSensorsController_types;
    Registry.LoadGroupsController_types;
    Registry.LoadsController_types ].

Definition vantage : Registry.Vantage := Registry.build declared catalog.

(** A temperature controller that has not heard from sensor 10 yet, and one
    whose cache already holds 21.5 for it. *)
Definition cold : Controller.State :=
  {| Controller.items := {[ 10 := Objects.Temperature 10 3 ]} |}.

Definition reading : Objects.value :=
  Objects.VDecimal {| Objects.coeff := 215; Objects.expo := -1 |}.

Definition warm : Controller.State :=
  {| Controller.items :=
       {[ 10 := Objects.setattr (Objects.Temperature 10 3) "value" reading ]} |}.

(** Two calls made on one command client, and a controller that answers
    each request with the target's id as the first reply argument. *)
Definition get_load : CommandClient.Request :=
  {| CommandClient.ticket := 1; CommandClient.targetId := 11;
     CommandClient.method := "Load.GetLevel"; CommandClient.args := [] |}.

Definition get_temperature : CommandClient.Request :=
  {| CommandClient.ticket := 2; CommandClient.targetId := 10;
     CommandClient.method := "Temperature.GetValue"; CommandClient.args := [] |}.

Definition answer (rq : CommandClient.Request) : CommandClient.Reply :=
  {| CommandClient.reply_id := CommandClient.targetId rq;
     CommandClient.reply_result := 0;
     CommandClient.reply_method := CommandClient.method rq;
     CommandClient.reply_args := [Text.str_of_int (CommandClient.targetId rq)] |}.

Definition subscribers : list Controller.Subscription :=
  [ {| Controller.callback := 0; Controller.objectFilter := None |};
    {| Controller.callback := 1;
       Controller.objectFilter :=
         Some (fun o => Objects.obj_id o =? 11) |};
    {| Controller.callback := 2;
       Controller.objectFilter :=
         Some (fun o => String.eqb (Objects.obj_type o) "Temperature") |} ].

End Demo.

(** * Theorems *)

(** ** Text of integers *)

Lemma to_int_not_nil (z : Z) :
  Z.to_int z <> Decimal.Pos Decimal.Nil /\ Z.to_int z <> Decimal.Neg Decimal.Nil.
Proof.
  destruct z as [|p|p]; simpl; split; try discriminate;
    intros H; injection H as H;
    pose proof (DecimalPos.Unsigned.to_uint_nonnil p); contradiction.
Qed.

Lemma python_int_str_of_int (z : Z) :
  Text.python_int (Text.str_of_int z) = ok z.
Proof.
  unfold Text.python_int, Text.str_of_int.
  destruct (to_int_not_nil z) as [Hp Hn].
  pose proof (NilZero.isi _ Hp Hn) as Hisi.
  assert (Hplus : forall s', NilZero.string_of_int (Z.to_int z) <> String "+" s').
  { intros s' Heq. destruct (Z.to_int z) as [d|d]; simpl in Heq;
      [|discriminate Heq].
    destruct d; discriminate Heq. }
  destruct (NilZero.string_of_int (Z.to_int z)) as [|c s'] eqn:E.
  - simpl in Hisi. discriminate.
  - destruct (Ascii.ascii_dec c "+") as [->|Hc].
    + exfalso. eapply Hplus. reflexivity.
    + assert (Hgo : match String c s' with
                    | String "+" s'' =>
                        of_option ValueError (Z.of_uint <$> NilZero.uint_of_string s'')
                    | _ => of_option ValueError (Z.of_int <$> NilZero.int_of_string (String c s'))
                    end = of_option ValueError (Z.of_int <$> NilZero.int_of_string (String c s'))).
      { destruct c as [[] [] [] [] [] [] [] []]; try reflexivity. congruence. }
      rewrite Hgo, Hisi. simpl. unfold ok. f_equal. apply DecimalZ.of_to.
Qed.

(** ** RGB loads *)

(** C6: [set_rgb] clamps each channel independently into [0, 255]: for all
    integer inputs it invokes [RGBLoad.SetRGB] with
    [max(min(channel, 255), 0)] for red, green and blue, each of which lies
    in [0, 255], is the channel itself when that already does, 255 above
    and 0 below; and [set_rgb(42, 300, -10, 128)] sends (255, 0, 128) on the
    request line [INVOKE 42 RGBLoad.SetRGB 255 0 128]. *)
Theorem set_rgb_clamps_channels (vid red green blue : Z) :
  (exists r g b,
      RGBLoad.set_rgb vid red green blue
      = {| RGBLoad.inv_vid := vid; RGBLoad.inv_method := "RGBLoad.SetRGB";
           RGBLoad.inv_params := [r; g; b] |}
      /\ r = Z.max (Z.min red 255) 0
      /\ g = Z.max (Z.min green 255) 0
      /\ b = Z.max (Z.min blue 255) 0
      /\ Forall (fun c => 0 <= c <= 255) [r; g; b]
      /\ (0 <= red <= 255 -> r = red) /\ (255 < red -> r = 255) /\ (red < 0 -> r = 0)
      /\ (0 <= green <= 255 -> g = green) /\ (255 < green -> g = 255)
      /\ (green < 0 -> g = 0)
      /\ (0 <= blue <= 255 -> b = blue) /\ (255 < blue -> b = 255)
      /\ (blue < 0 -> b = 0))
  /\ RGBLoad.inv_params (RGBLoad.set_rgb 42 300 (-10) 128) = [255; 0; 128]
  /\ RGBLoad.request_line (RGBLoad.set_rgb 42 300 (-10) 128)
     = "INVOKE 42 RGBLoad.SetRGB 255 0 128".
Proof.
  split; [|split; reflexivity].
  exists (RGBLoad.clamp red 255), (RGBLoad.clamp green 255),
    (RGBLoad.clamp blue 255).
  split; [reflexivity|].
  rewrite !Forall_cons, Forall_nil. unfold RGBLoad.clamp. lia.
Qed.

Lemma struct_pack_be_i_bytes (x : Z) :
  - 2 ^ 31 <= x < 2 ^ 31 ->
  exists b0 b1 b2 b3,
    RGBLoad.struct_pack_be_i x = ok [b0; b1; b2; b3]
    /\ Forall (fun b => 0 <= b < 256) [b0; b1; b2; b3]
    /\ b0 * 2 ^ 24 + b1 * 2 ^ 16 + b2 * 2 ^ 8 + b3 = x mod 2 ^ 32.
Proof.
  intros Hx. unfold RGBLoad.struct_pack_be_i.
  replace ((- 2 ^ 31 <=? x) && (x <? 2 ^ 31)) with true
    by (symmetry; apply andb_true_iff; split; [apply Z.leb_le|apply Z.ltb_lt]; lia).
  set (u := x mod 2 ^ 32).
  assert (Hu : 0 <= u < 2 ^ 32) by (apply Z.mod_pos_bound; lia).
  eexists _, _, _, _. split; [reflexivity|].
  change 255 with (Z.ones 8).
  rewrite !Z.land_ones, !Z.shiftr_div_pow2 by lia.
  change (2 ^ 8) with 256 in *. change (2 ^ 24) with 16777216 in *.
  change (2 ^ 16) with 65536 in *. change (2 ^ 32) with 4294967296 in *.
  rewrite !Forall_cons, Forall_nil. clearbody u.
  Z.div_mod_to_equations. lia.
Qed.

Lemma struct_pack_be_i_range (x : Z) :
  ~ (- 2 ^ 31 <= x < 2 ^ 31) -> RGBLoad.struct_pack_be_i x = raise StructError.
Proof.
  intros Hx. unfold RGBLoad.struct_pack_be_i.
  destruct (- 2 ^ 31 <=? x) eqn:E1; [|reflexivity].
  destruct (x <? 2 ^ 31) eqn:E2; [|reflexivity].
  apply Z.leb_le in E1. apply Z.ltb_lt in E2. lia.
Qed.

(** C9: when the result field of the response is the decimal text of an
    integer [r] with -2^31 <= r < 2^31, [parse_get_color_response] returns
    the four bytes of r's 32-bit two's-complement pattern, most significant
    first, and [get_rgb_color] returns the first three of them; when [r] is
    outside that range the parse fails and returns no tuple. *)
Theorem parse_get_color_response_packs (r : Z) (a : list string) :
  let response :=
    {| RGBLoad.result := Text.str_of_int r; RGBLoad.args := a |} in
  (- 2 ^ 31 <= r < 2 ^ 31 ->
   exists b0 b1 b2 b3,
     RGBLoad.parse_get_color_response response = ok [b0; b1; b2; b3]
     /\ Forall (fun b => 0 <= b < 256) [b0; b1; b2; b3]
     /\ b0 * 2 ^ 24 + b1 * 2 ^ 16 + b2 * 2 ^ 8 + b3 = r mod 2 ^ 32
     /\ forall invoke vid,
         invoke vid "RGBLoad.GetColor" [] = ok response ->
         RGBLoad.get_rgb_color invoke vid = ok [b0; b1; b2])
  /\ (~ (- 2 ^ 31 <= r < 2 ^ 31) ->
      RGBLoad.parse_get_color_response response = raise StructError
      /\ forall invoke vid,
          invoke vid "RGBLoad.GetColor" [] = ok response ->
          RGBLoad.get_rgb_color invoke vid = raise StructError).
Proof.
  intros response. unfold RGBLoad.parse_get_color_response,
    RGBLoad.parse_packed_color_response, RGBLoad.get_rgb_color,
    RGBLoad.get_color, RGBLoad.parse_get_color_response,
    RGBLoad.parse_packed_color_response.
  subst response. cbn [RGBLoad.result]. rewrite python_int_str_of_int.
  cbn [rbind ok]. split.
  - intros Hr. destruct (struct_pack_be_i_bytes r Hr)
      as (b0 & b1 & b2 & b3 & Hp & Hb & Hsum).
    exists b0, b1, b2, b3. repeat split; try assumption.
    intros invoke vid Hinv. rewrite Hinv. cbn [rbind ok RGBLoad.result].
    rewrite python_int_str_of_int. cbn [rbind ok]. rewrite Hp. reflexivity.
  - intros Hr. rewrite (struct_pack_be_i_range r Hr). split; [reflexivity|].
    intros invoke vid Hinv. rewrite Hinv. cbn [rbind ok RGBLoad.result].
    rewrite python_int_str_of_int. cbn [rbind ok].
    rewrite (struct_pack_be_i_range r Hr). reflexivity.
Qed.

Lemma parse_get_color_response_packs_witness :
  (exists b0 b1 b2 b3,
      RGBLoad.parse_get_color_response
        {| RGBLoad.result := Text.str_of_int (-2); RGBLoad.args := [] |}
      = ok [b0; b1; b2; b3]
      /\ Forall (fun b => 0 <= b < 256) [b0; b1; b2; b3]
      /\ b0 * 2 ^ 24 + b1 * 2 ^ 16 + b2 * 2 ^ 8 + b3 = (-2) mod 2 ^ 32
      /\ forall invoke vid,
          invoke vid "RGBLoad.GetColor" []
          = ok {| RGBLoad.result := Text.str_of_int (-2); RGBLoad.args := [] |} ->
          RGBLoad.get_rgb_color invoke vid = ok [b0; b1; b2])
  /\ RGBLoad.parse_get_color_response
       {| RGBLoad.result := Text.str_of_int 2147483648; RGBLoad.args := [] |}
     = raise StructError.
Proof.
  split.
  - apply (proj1 (parse_get_color_response_packs (-2) [])). lia.
  - apply (proj2 (parse_get_color_response_packs 2147483648 [])). lia.
Defined.

(** ** The client object *)

Lemma getitem_loop_none (cs : list Registry.Controller) (vid : Z) :
  Forall (fun c => Registry.controller_contains c vid = false) cs ->
  Registry.getitem_loop cs vid = raise (KeyErrorId vid).
Proof.
  induction 1 as [|c cs Hc _ IH]; simpl; [reflexivity|].
  rewrite Hc. exact IH.
Qed.

Lemma controller_contains_true (c : Registry.Controller) (vid : Z) :
  Registry.controller_contains c vid = true <->
  exists o, Registry.items c !! vid = Some o.
Proof.
  unfold Registry.controller_contains.
  rewrite bool_decide_eq_true. reflexivity.
Qed.

Lemma getitem_loop_some (cs : list Registry.Controller) (vid : Z) :
  Exists (fun c => Registry.controller_contains c vid = true) cs ->
  exists i c o,
    cs !! i = Some c
    /\ Registry.items c !! vid = Some o
    /\ (forall j c', (j < i)%nat -> cs !! j = Some c' ->
                     Registry.controller_contains c' vid = false)
    /\ Registry.getitem_loop cs vid = ok o.
Proof.
  induction cs as [|c cs IH]; intros Hex.
  - inversion Hex.
  - simpl. destruct (Registry.controller_contains c vid) eqn:Hc.
    + apply controller_contains_true in Hc as [o Ho].
      exists 0%nat, c, o. repeat split; try assumption.
      * intros j c' Hj. lia.
      * unfold Registry.controller_getitem. rewrite Ho. reflexivity.
    + assert (Hex' : Exists
                (fun c => Registry.controller_contains c vid = true) cs).
      { inversion Hex; subst; [congruence|assumption]. }
      destruct (IH Hex') as (i & c0 & o & Hi & Ho & Hfirst & Hget).
      exists (S i), c0, o. repeat split; try assumption.
      intros [|j] c' Hj Hl; simpl in Hl.
      * congruence.
      * eapply Hfirst; [|eassumption]. lia.
Qed.

(** C10: for every integer [vid], if some controller contains it then
    [Vantage.get(vid)] returns the very object that [Vantage[vid]] returns;
    if no controller contains it, [Vantage[vid]] raises [KeyError(vid)]
    while [Vantage.get(vid)] returns [None] without raising; in both cases
    the client and its controllers are left as they were. *)
Theorem get_agrees_with_getitem (self : Registry.Vantage) (vid : Z) :
  (Exists (fun c => Registry.controller_contains c vid = true)
     (Registry.controllers self) ->
   exists o,
     Registry.__getitem__ vid self = (ok o, self)
     /\ Registry.get vid self = (ok (Some o), self))
  /\ (Forall (fun c => Registry.controller_contains c vid = false)
        (Registry.controllers self) ->
      Registry.__getitem__ vid self = (raise (KeyErrorId vid), self)
      /\ Registry.get vid self = (ok None, self)).
Proof.
  unfold Registry.get, Registry.__getitem__. split.
  - intros Hex. destruct (getitem_loop_some _ _ Hex) as (i & c & o & _ & _ & _ & Hg).
    exists o. rewrite Hg. split; reflexivity.
  - intros Hall. rewrite (getitem_loop_none _ _ Hall). split; reflexivity.
Qed.

Lemma get_agrees_with_getitem_witness :
  (exists o,
      Registry.__getitem__ 10 Demo.vantage = (ok o, Demo.vantage)
      /\ Registry.get 10 Demo.vantage = (ok (Some o), Demo.vantage))
  /\ (Registry.__getitem__ 99 Demo.vantage = (raise (KeyErrorId 99), Demo.vantage)
      /\ Registry.get 99 Demo.vantage = (ok None, Demo.vantage)).
Proof.
  split.
  - apply (proj1 (get_agrees_with_getitem Demo.vantage 10)).
    apply Exists_cons_hd. vm_compute. reflexivity.
  - apply (proj2 (get_agrees_with_getitem Demo.vantage 99)).
    unfold Demo.vantage, Registry.build, Demo.declared.
    cbn [Registry.controllers fmap list_fmap].
    repeat (apply List.Forall_cons; [vm_compute; reflexivity|]).
    apply List.Forall_nil.
Defined.

Lemma NoDup_fmap_inj_on {A B} (f : A -> B) (l : list A) (x y : A) :
  NoDup (f <$> l) -> x ∈ l -> y ∈ l -> f x = f y -> x = y.
Proof.
  induction l as [|a l IH]; intros Hnd Hx Hy Hf.
  - inversion Hx.
  - rewrite fmap_cons in Hnd. apply NoDup_cons in Hnd as [Hnotin Hnd].
    apply elem_of_cons in Hx as [->|Hx]; apply elem_of_cons in Hy as [->|Hy].
    + reflexivity.
    + exfalso. apply Hnotin. rewrite Hf. apply list_elem_of_fmap. eauto.
    + exfalso. apply Hnotin. rewrite <- Hf. apply list_elem_of_fmap. eauto.
    + auto.
Qed.

Lemma populate_lookup (types : list string)
    (catalog : list Objects.SystemObject) (vid : Z) (o : Objects.SystemObject) :
  Registry.items (Registry.populate types catalog) !! vid = Some o ->
  o ∈ catalog /\ Objects.obj_id o = vid /\ Objects.obj_type o ∈ types.
Proof.
  unfold Registry.populate. cbn [Registry.items]. intros H.
  apply elem_of_list_to_map_2 in H.
  apply list_elem_of_fmap in H as (o' & Heq & Hin).
  injection Heq as -> ->.
  apply list_elem_of_filter in Hin as [Hty Hin]. auto.
Qed.

Lemma existsb_Exists {A} (f : A -> bool) (l : list A) :
  existsb f l = true -> Exists (fun a => f a = true) l.
Proof.
  induction l as [|a l IH]; simpl; [discriminate|].
  destruct (f a) eqn:E; simpl; intros H.
  - apply Exists_cons_hd. exact E.
  - apply Exists_cons_tl. auto.
Qed.

(** Exclusivity under an assumption on the declarations.  The registry
    code neither establishes nor checks that an id has one owner; that
    rests on how the controllers are declared and filled.  When the
    controllers cache, of a discovered catalog with globally unique ids,
    the objects of their own declared types, and the declared types are
    pairwise disjoint, every id known to the client is held by exactly one
    controller, and the id-indexed lookup returns the object held by that
    controller.  The declarations found in the source are disjoint; those
    of the other controllers are not part of the source. *)
Theorem registry_exclusive (declared : list (list string))
    (catalog : list Objects.SystemObject) (vid : Z) :
  let self := Registry.build declared catalog in
  NoDup (Objects.obj_id <$> catalog) ->
  (forall i j ti tj t,
      declared !! i = Some ti -> declared !! j = Some tj ->
      t ∈ ti -> t ∈ tj -> i = j) ->
  fst (Registry.__contains__ vid self) = true ->
  exists i c o,
    Registry.controllers self !! i = Some c
    /\ Registry.controller_contains c vid = true
    /\ (forall j c', Registry.controllers self !! j = Some c' ->
                     Registry.controller_contains c' vid = true -> j = i)
    /\ Registry.items c !! vid = Some o
    /\ Objects.obj_id o = vid
    /\ Registry.__getitem__ vid self = (ok o, self).
Proof.
  intros self Hnd Hdisj Hknown.
  unfold Registry.__contains__ in Hknown. cbn [fst] in Hknown.
  apply existsb_Exists in Hknown.
  destruct (getitem_loop_some _ _ Hknown) as (i & c & o & Hi & Ho & _ & Hget).
  exists i, c, o.
  assert (Hc : exists ti, declared !! i = Some ti
                          /\ c = Registry.populate ti catalog).
  { subst self. unfold Registry.build in Hi. cbn [Registry.controllers] in Hi.
    rewrite list_lookup_fmap in Hi.
    destruct (declared !! i) as [ti|]; [|discriminate].
    exists ti. split; [reflexivity|]. injection Hi as <-. reflexivity. }
  destruct Hc as (ti & Hti & ->).
  destruct (populate_lookup _ _ _ _ Ho) as (Hin & Hid & Hty).
  repeat split; try assumption.
  - apply controller_contains_true. eauto.
  - intros j c' Hj Hcj.
    subst self. unfold Registry.build in Hj. cbn [Registry.controllers] in Hj.
    rewrite list_lookup_fmap in Hj.
    destruct (declared !! j) as [tj|] eqn:Htj; [|discriminate].
    injection Hj as <-.
    apply controller_contains_true in Hcj as [o' Ho'].
    destruct (populate_lookup _ _ _ _ Ho') as (Hin' & Hid' & Hty').
    assert (o' = o) as ->.
    { eapply (NoDup_fmap_inj_on Objects.obj_id); eauto. congruence. }
    eapply Hdisj; eauto.
  - unfold Registry.__getitem__. rewrite Hget. reflexivity.
Qed.

Lemma registry_exclusive_witness :
  exists i c o,
    Registry.controllers Demo.vantage !! i = Some c
    /\ Registry.controller_contains c 11 = true
    /\ (forall j c', Registry.controllers Demo.vantage !! j = Some c' ->
                     Registry.controller_contains c' 11 = true -> j = i)
    /\ Registry.items c !! 11 = Some o
    /\ Objects.obj_id o = 11
    /\ Registry.__getitem__ 11 Demo.vantage = (ok o, Demo.vantage).
Proof.
  apply (registry_exclusive Demo.declared Demo.catalog 11).
  - apply (bool_decide_unpack _). vm_compute. exact I.
  - intros i j ti tj t Hi Hj Hti Htj.
    destruct i as [|[|[|i]]]; destruct j as [|[|[|j]]];
      try reflexivity; try discriminate Hi; try discriminate Hj;
      injection Hi as <-; injection Hj as <-; exfalso;
      apply list_elem_of_singleton in Hti, Htj; congruence.
  - vm_compute. reflexivity.
Defined.

(** ** Thermostats *)

Lemma Status_getitem_name (name : string) (s : Thermostat.Status) :
  Thermostat.Status_getitem name = ok s <-> name = Thermostat.Status_name s.
Proof.
  unfold Thermostat.Status_getitem, Thermostat.Status_members.
  cbn [List.find Thermostat.Status_name].
  split.
  - repeat match goal with
           | |- context [String.eqb ?a name] =>
               destruct (String.eqb_spec a name) as [<-|?]
           end; cbn [of_option]; intros H; try discriminate H;
      injection H as <-; reflexivity.
  - intros ->. destruct s; reflexivity.
Qed.

(** C7 (as stated): on the reply line
    [R:INVOKE 7 0 Thermostat.GetStatus Heating] the token that [get_status]
    looks up is [args[1]], which is [0]; the lookup raises [KeyError] and
    [Status.Heating] is not returned. *)
Lemma get_status_trailing_name_fails :
  Thermostat.get_status
    (Thermostat.replying "R:INVOKE 7 0 Thermostat.GetStatus Heating") 7
  = raise (KeyError "0")
  /\ Thermostat.get_status
       (Thermostat.replying "R:INVOKE 7 0 Thermostat.GetStatus Heating") 7
     <> ok Thermostat.Heating.
Proof. split; [reflexivity|discriminate]. Qed.

(** C7 (amended): a reply line [R:INVOKE 7 Heating Thermostat.GetStatus],
    with the status name in the result position, makes [get_status] return
    the enumerated value [Status.Heating].  The value is found by looking
    the token [args[1]] up in the enumeration's name table: [get_status]
    returns a member exactly when that token is the member's name, so a
    token that is an ordinal ([2]) raises [KeyError] instead of being cast,
    and a reply with fewer than two tokens raises [IndexError]. *)
Theorem get_status_by_name :
  Thermostat.get_status
    (Thermostat.replying "R:INVOKE 7 Heating Thermostat.GetStatus") 7
  = ok Thermostat.Heating
  /\ Thermostat.get_status
       (Thermostat.replying "R:INVOKE 7 2 Thermostat.GetStatus") 7
     = raise (KeyError "2")
  /\ (forall invoke vid response,
         invoke vid "Thermostat.GetStatus" = ok response ->
         (forall s,
             Thermostat.get_status invoke vid = ok s <->
             Thermostat.args response !! 1%nat = Some (Thermostat.Status_name s))
         /\ (Thermostat.args response !! 1%nat = None ->
             Thermostat.get_status invoke vid = raise IndexError)
         /\ (forall tok,
                Thermostat.args response !! 1%nat = Some tok ->
                (forall s, tok <> Thermostat.Status_name s) ->
                Thermostat.get_status invoke vid = raise (KeyError tok))).
Proof.
  split; [reflexivity|]. split; [reflexivity|].
  intros invoke vid response Hinv. unfold Thermostat.get_status.
  rewrite Hinv. cbn [rbind ok]. unfold subscript.
  destruct (Thermostat.args response !! 1%nat) as [tok|]; cbn [of_option rbind ok raise].
  - split; [|split].
    + intros s. rewrite Status_getitem_name. split; congruence.
    + discriminate.
    + intros tok' Htok Hno. injection Htok as <-.
      unfold Thermostat.Status_getitem.
      destruct (List.find _ _) as [s|] eqn:Hfind; [|reflexivity].
      exfalso. apply (Hno s).
      apply Status_getitem_name. unfold Thermostat.Status_getitem.
      rewrite Hfind. reflexivity.
  - split; [|split].
    + intros s. split; discriminate.
    + reflexivity.
    + discriminate.
Qed.

(** ** Controllers *)

Example handle_status_line_cold :
  Controller.handle_status_line Demo.cold "S:TEMP 10 21.5"
  = ok (Demo.warm, [ {| Controller.ev_vid := 10;
                        Controller.ev_attrs_changed := ["value"] |} ]).
Proof. vm_compute. reflexivity. Qed.

Lemma getattr_setattr_eq (obj : Objects.SystemObject) (k : string)
    (v : Objects.value) :
  Objects.getattr (Objects.setattr obj k v) k = Some v.
Proof. unfold Objects.getattr, Objects.setattr. simpl. apply lookup_insert_eq. Qed.

Lemma getattr_setattr_ne (obj : Objects.SystemObject) (k k' : string)
    (v : Objects.value) :
  k <> k' -> Objects.getattr (Objects.setattr obj k v) k' = Objects.getattr obj k'.
Proof.
  intros Hne. unfold Objects.getattr, Objects.setattr. simpl.
  apply lookup_insert_ne. exact Hne.
Qed.

Lemma changed_keys_cons (obj : Objects.SystemObject) (k : string)
    (v : Objects.value) (rest : list (string * Objects.value)) :
  Controller.changed_keys obj ((k, v) :: rest)
  = if Controller.differs (Objects.getattr obj k) v
    then k :: Controller.changed_keys obj rest
    else Controller.changed_keys obj rest.
Proof.
  unfold Controller.changed_keys. rewrite filter_cons. cbn [fst snd].
  destruct (Controller.differs (Objects.getattr obj k) v); simpl.
  - destruct (decide (true = true)); [reflexivity|congruence].
  - destruct (decide (false = true)); [congruence|reflexivity].
Qed.

Lemma changed_keys_setattr (obj : Objects.SystemObject) (k : string)
    (v : Objects.value) (rest : list (string * Objects.value)) :
  k ∉ rest.*1 ->
  Controller.changed_keys (Objects.setattr obj k v) rest
  = Controller.changed_keys obj rest.
Proof.
  induction rest as [|[k' v'] rest IH]; intros Hk; [reflexivity|].
  rewrite fmap_cons in Hk. cbn [fst] in Hk.
  apply not_elem_of_cons in Hk as [Hne Hk].
  rewrite !changed_keys_cons, getattr_setattr_ne by congruence.
  rewrite IH by assumption. reflexivity.
Qed.

Lemma changed_keys_subset (obj : Objects.SystemObject)
    (state : list (string * Objects.value)) (k : string) :
  k ∈ Controller.changed_keys obj state -> k ∈ state.*1.
Proof.
  unfold Controller.changed_keys. intros H.
  apply list_elem_of_fmap in H as ([k' v'] & -> & Hin).
  apply list_elem_of_filter in Hin as [_ Hin].
  apply list_elem_of_fmap. exists (k', v'). auto.
Qed.

Lemma update_loop_spec (state : list (string * Objects.value)) :
  forall obj : Objects.SystemObject,
    NoDup state.*1 ->
    snd (Controller.update_loop obj state) = Controller.changed_keys obj state
    /\ Objects.obj_id (fst (Controller.update_loop obj state)) = Objects.obj_id obj
    /\ (forall k v, (k, v) ∈ state ->
                    Controller.differs (Objects.getattr obj k) v = true ->
                    Objects.getattr (fst (Controller.update_loop obj state)) k = Some v)
    /\ (forall k, k ∉ Controller.changed_keys obj state ->
                  Objects.getattr (fst (Controller.update_loop obj state)) k
                  = Objects.getattr obj k).
Proof.
  induction state as [|[key v] rest IH]; intros obj Hnd.
  - simpl. repeat split; try reflexivity. intros k v H. inversion H.
  - rewrite fmap_cons in Hnd. cbn [fst] in Hnd.
    apply NoDup_cons in Hnd as [Hkey Hnd].
    rewrite changed_keys_cons. cbn [Controller.update_loop].
    destruct (Controller.differs (Objects.getattr obj key) v) eqn:Hd.
    + destruct (IH (Objects.setattr obj key v) Hnd) as (Hch & Hid & Hset & Hkeep).
      rewrite changed_keys_setattr in Hch, Hkeep by assumption.
      destruct (Controller.update_loop (Objects.setattr obj key v) rest)
        as [obj' changed] eqn:Hloop.
      cbn [fst snd] in *. repeat split.
      * rewrite Hch. reflexivity.
      * exact Hid.
      * intros k v0 Hin Hdiff. apply elem_of_cons in Hin as [Heq|Hin].
        -- injection Heq as -> ->. rewrite Hkeep.
           ++ apply getattr_setattr_eq.
           ++ intros Hc. apply Hkey. eapply changed_keys_subset. exact Hc.
        -- assert (key <> k).
           { intros ->. apply Hkey. apply list_elem_of_fmap. exists (k, v0). auto. }
           apply Hset; [assumption|].
           rewrite getattr_setattr_ne by assumption. exact Hdiff.
      * intros k Hk. apply not_elem_of_cons in Hk as [Hne Hk].
        rewrite Hkeep by assumption. apply getattr_setattr_ne. congruence.
    + destruct (IH obj Hnd) as (Hch & Hid & Hset & Hkeep).
      repeat split; try assumption.
      intros k v0 Hin Hdiff. apply elem_of_cons in Hin as [Heq|Hin].
      * injection Heq as -> ->. congruence.
      * apply Hset; assumption.
Qed.

Lemma update_loop_noop (state : list (string * Objects.value)) :
  forall obj : Objects.SystemObject,
    snd (Controller.update_loop obj state) = [] ->
    fst (Controller.update_loop obj state) = obj.
Proof.
  induction state as [|[key v] rest IH]; intros obj; [reflexivity|].
  cbn [Controller.update_loop].
  destruct (Controller.differs (Objects.getattr obj key) v).
  - destruct (Controller.update_loop (Objects.setattr obj key v) rest).
    cbn [snd]. discriminate.
  - apply IH.
Qed.

(** C1: for every object and partial attribute update, [update_state]
    writes exactly the entries whose new value differs from the cached one
    and leaves every other attribute as it was; it emits no event when the
    changed set is empty and exactly one event, listing the changed set,
    otherwise, which every matching subscription receives once.  So
    [update_state(obj, {a: sameValue})] triggers zero notifications and
    [update_state(obj, {a: newValue, b: sameValue})] triggers exactly one,
    whose changed-attribute set is [{a}].  The single-attribute callers in
    the source behave alike: [GMemInterface.fetch_state] reports [value]
    as changed only when the fetched value differs, and
    [CurrentSensorInterface.handle_category_status] reports [current] only
    when the pushed reading differs. *)
Theorem update_state_notifies_on_change (obj : Objects.SystemObject)
    (state : list (string * Objects.value))
    (subs : list Controller.Subscription) :
  NoDup state.*1 ->
  let changed := Controller.changed_keys obj state in
  let obj' := fst (Controller.update_state obj state) in
  let events := snd (Controller.update_state obj state) in
  (forall k v, (k, v) ∈ state ->
               Controller.differs (Objects.getattr obj k) v = true ->
               Objects.getattr obj' k = Some v)
  /\ (forall k, k ∉ changed -> Objects.getattr obj' k = Objects.getattr obj k)
  /\ (changed = [] ->
      obj' = obj /\ events = [] /\ Controller.notify subs obj' events = [])
  /\ (changed <> [] ->
      events = [ {| Controller.ev_vid := Objects.obj_id obj;
                    Controller.ev_attrs_changed := changed |} ]
      /\ Controller.notify subs obj' events
         = (fun s => (Controller.callback s,
                      {| Controller.ev_vid := Objects.obj_id obj;
                         Controller.ev_attrs_changed := changed |}))
             <$> filter (fun s => Controller.matches obj' s = true) subs)
  /\ (forall a same,
         Controller.differs (Objects.getattr obj a) same = false ->
         Controller.update_state obj [(a, same)] = (obj, []))
  /\ (forall a b new same,
         a <> b ->
         Controller.differs (Objects.getattr obj a) new = true ->
         Controller.differs (Objects.getattr obj b) same = false ->
         Controller.update_state obj [(a, new); (b, same)]
         = (Objects.setattr obj a new,
            [ {| Controller.ev_vid := Objects.obj_id obj;
                 Controller.ev_attrs_changed := [a] |} ]))
  /\ (forall fetched,
         GMem.fetch_state obj fetched
         = if Controller.differs (Objects.getattr obj "value") fetched
           then (Objects.setattr obj "value" fetched, Some ["value"])
           else (obj, None))
  /\ (forall text d,
         Objects.Decimal_of_str text = ok d ->
         CurrentSensor.handle_category_status obj "CURRENT" [text]
         = ok (if Controller.differs (Objects.getattr obj "current")
                    (Objects.VDecimal d)
               then (Objects.setattr obj "current" (Objects.VDecimal d),
                     Some "current")
               else (obj, None))).
Proof.
  intros Hnd changed obj' events.
  destruct (update_loop_spec state obj Hnd) as (Hch & Hid & Hset & Hkeep).
  pose proof (update_loop_noop state obj) as Hnoop.
  subst obj' events. unfold Controller.update_state.
  destruct (Controller.update_loop obj state) as [o ch] eqn:Hloop.
  cbn [fst snd] in Hch, Hid, Hset, Hkeep, Hnoop. fold changed in Hch, Hkeep.
  subst ch. split; [|split; [|split; [|split; [|split; [|split; [|split]]]]]].
  - intros k v Hin Hd. destruct changed; cbn [fst]; eauto.
  - intros k Hk. destruct changed; cbn [fst]; eauto.
  - intros Hnil. rewrite Hnil in *. cbn [fst snd].
    split; [auto|]. split; reflexivity.
  - intros Hne. destruct changed as [|c0 cs] eqn:Ech; [congruence|].
    cbn [fst snd]. rewrite Hid. split; [reflexivity|].
    unfold Controller.notify. cbn [mbind list_bind]. rewrite app_nil_r.
    reflexivity.
  - intros a same Hd. cbn [Controller.update_loop]. rewrite Hd. reflexivity.
  - intros a b new same Hab Hda Hdb. cbn [Controller.update_loop].
    rewrite Hda, getattr_setattr_ne, Hdb by assumption. reflexivity.
  - intros fetched. unfold GMem.fetch_state, Interface.update_property.
    destruct (Controller.differs (Objects.getattr obj "value") fetched);
      reflexivity.
  - intros text d Hd. unfold CurrentSensor.handle_category_status,
      Interface.update_property.
    replace (String.eqb "CURRENT" "CURRENT") with true by reflexivity.
    cbn [subscript lookup list_lookup of_option rbind ok]. rewrite Hd.
    cbn [rbind ok].
    destruct (Controller.differs (Objects.getattr obj "current")
                (Objects.VDecimal d)); reflexivity.
Qed.

Lemma update_state_notifies_on_change_witness :
  let obj := Objects.Temperature 10 3 in
  let state := [("value", Demo.reading); ("parent_id", Objects.VInt 3)] in
  snd (Controller.update_state obj state)
  = [ {| Controller.ev_vid := 10; Controller.ev_attrs_changed := ["value"] |} ]
  /\ Controller.notify Demo.subscribers (fst (Controller.update_state obj state))
       (snd (Controller.update_state obj state))
     = [ (0%nat, {| Controller.ev_vid := 10;
                    Controller.ev_attrs_changed := ["value"] |});
         (2%nat, {| Controller.ev_vid := 10;
                    Controller.ev_attrs_changed := ["value"] |}) ].
Proof.
  intros obj state.
  assert (Hnd : NoDup state.*1) by (apply (bool_decide_unpack _); vm_compute; exact I).
  destruct (update_state_notifies_on_change obj state Demo.subscribers Hnd)
    as (_ & _ & _ & Hchanged & _).
  apply Hchanged. vm_compute. discriminate.
Defined.






(** ** The command client *)

Lemma writes_app (a b : list CommandClient.wire) :
  CommandClient.writes (a ++ b) = CommandClient.writes a ++ CommandClient.writes b.
Proof. apply omap_app. Qed.

Lemma ensure_connected_keeps (c : CommandClient.Client) :
  CommandClient.queue (CommandClient.ensure_connected c) = CommandClient.queue c
  /\ CommandClient.resolved (CommandClient.ensure_connected c)
     = CommandClient.resolved c
  /\ CommandClient.writes (CommandClient.written (CommandClient.ensure_connected c))
     = CommandClient.writes (CommandClient.written c)
  /\ CommandClient.connection (CommandClient.ensure_connected c)
     = CommandClient.Ready.
Proof.
  unfold CommandClient.ensure_connected.
  destruct (CommandClient.connection c) eqn:E; simpl; repeat split; auto.
  rewrite writes_app. simpl. apply app_nil_r.
Qed.

Lemma calls_snoc (acts : list CommandClient.action) (a : CommandClient.action) :
  CommandClient.calls (acts ++ [a])
  = CommandClient.calls acts
    ++ match a with
       | CommandClient.Call rq => [rq]
       | CommandClient.Deliver => []
       end.
Proof.
  unfold CommandClient.calls. rewrite omap_app. destruct a; reflexivity.
Qed.

Section Fifo.
Variable answer : CommandClient.Request -> CommandClient.Reply.

Lemma fifo_inv_outstanding (cs : list CommandClient.Request)
    (w : CommandClient.World) :
  CommandClient.fifo_inv answer cs w ->
  CommandClient.outstanding w = take 1 (CommandClient.queue (CommandClient.client w)).
Proof.
  intros (Hle & Hq & Hw & Hr). unfold CommandClient.outstanding.
  rewrite Hw, Hq, take_drop_commute. f_equal. f_equal. lia.
Qed.

Lemma fifo_inv_call (cs : list CommandClient.Request)
    (w : CommandClient.World) (rq : CommandClient.Request) :
  CommandClient.fifo_inv answer cs w ->
  CommandClient.fifo_inv answer (cs ++ [rq])
    (CommandClient.world_step answer w (CommandClient.Call rq))
  /\ CommandClient.served
       (CommandClient.world_step answer w (CommandClient.Call rq))
     = CommandClient.served w.
Proof.
  intros (Hle & Hq & Hw & Hr). split; [|reflexivity].
  unfold CommandClient.fifo_inv.
  cbn [CommandClient.world_step CommandClient.client CommandClient.served
         CommandClient.step].
  destruct (ensure_connected_keeps (CommandClient.client w))
    as (Hq' & Hr' & Hw' & _).
  destruct (CommandClient.queue
              (CommandClient.ensure_connected (CommandClient.client w)))
    as [|hd tl] eqn:Hqueue; rewrite <- Hq' in Hq.
  - assert (Hlen : CommandClient.served w = length cs).
    { symmetry in Hq. apply (f_equal length) in Hq.
      rewrite length_drop in Hq. simpl in Hq. lia. }
    cbn [CommandClient.send_head CommandClient.queue CommandClient.written
           CommandClient.resolved].
    rewrite writes_app, Hw', Hw, Hr', Hr, Hlen. cbn [CommandClient.writes omap].
    rewrite length_app. simpl. repeat split.
    + lia.
    + rewrite drop_app_le, drop_ge by lia. reflexivity.
    + rewrite !take_ge by (rewrite ?length_app; simpl; lia). reflexivity.
    + rewrite take_app_le by lia. reflexivity.
  - assert (Hlen : (CommandClient.served w < length cs)%nat).
    { symmetry in Hq. apply (f_equal length) in Hq.
      rewrite length_drop in Hq. simpl in Hq. lia. }
    cbn [CommandClient.queue CommandClient.written CommandClient.resolved].
    rewrite Hw', Hr', Hw, Hr, length_app. simpl. repeat split.
    + lia.
    + rewrite drop_app_le by lia. rewrite <- Hq. reflexivity.
    + rewrite take_app_le by lia. reflexivity.
    + rewrite take_app_le by lia. reflexivity.
Qed.
Lemma fifo_inv_deliver (cs : list CommandClient.Request)
    (w : CommandClient.World) :
  CommandClient.fifo_inv answer cs w ->
  CommandClient.fifo_inv answer cs
    (CommandClient.world_step answer w CommandClient.Deliver)
  /\ CommandClient.served
       (CommandClient.world_step answer w CommandClient.Deliver)
     = (S (CommandClient.served w) `min` length cs)%nat.
Proof.
  intros Hinv. pose proof (fifo_inv_outstanding cs w Hinv) as Hout.
  destruct Hinv as (Hle & Hq & Hw & Hr).
  cbn [CommandClient.world_step]. rewrite Hout.
  destruct (CommandClient.queue (CommandClient.client w)) as [|rq rest] eqn:Hqueue;
    cbn [take].
  - assert (Hlen : CommandClient.served w = length cs).
    { symmetry in Hq. apply (f_equal length) in Hq.
      rewrite length_drop in Hq. simpl in Hq. lia. }
    split; [|lia]. unfold CommandClient.fifo_inv. rewrite Hqueue. auto.
  - assert (Hlook : cs !! CommandClient.served w = Some rq).
    { rewrite <- (Nat.add_0_r (CommandClient.served w)), <- lookup_drop, <- Hq.
      reflexivity. }
    assert (Hlen : (CommandClient.served w < length cs)%nat)
      by (apply lookup_lt_is_Some; eauto).
    assert (Hrest : rest = drop (S (CommandClient.served w)) cs).
    { rewrite (drop_S _ _ _ Hlook) in Hq. congruence. }
    split; [|cbn [CommandClient.served]; lia].
    unfold CommandClient.fifo_inv.
    cbn [CommandClient.client CommandClient.served CommandClient.step].
    unfold CommandClient.resolve_head. rewrite Hqueue.
    unfold CommandClient.send_head. cbn [CommandClient.queue].
    destruct rest as [|rq2 rest'] eqn:Hrest';
      cbn [CommandClient.queue CommandClient.written CommandClient.resolved];
      rewrite ?writes_app, Hw, Hr, (take_S_r _ _ _ Hlook), fmap_app;
      repeat split; try lia; try assumption; try reflexivity.
    + assert (length cs = S (CommandClient.served w)).
      { symmetry in Hrest. apply (f_equal length) in Hrest.
        rewrite length_drop in Hrest. simpl in Hrest. lia. }
      rewrite <- (take_S_r _ _ _ Hlook). rewrite !take_ge by lia. reflexivity.
    + assert (Hlook2 : cs !! S (CommandClient.served w) = Some rq2).
      { rewrite <- (Nat.add_0_r (S (CommandClient.served w))), <- lookup_drop,
          <- Hrest. reflexivity. }
      rewrite (take_S_r _ _ _ Hlook2), (take_S_r _ _ _ Hlook). reflexivity.
Qed.

Lemma fifo_inv_run (acts : list CommandClient.action) :
  CommandClient.fifo_inv answer (CommandClient.calls acts)
    (CommandClient.world_run answer CommandClient.world0 acts).
Proof.
  induction acts as [|a acts IH] using rev_ind.
  - unfold CommandClient.fifo_inv. simpl. auto.
  - unfold CommandClient.world_run in *. rewrite foldl_app, calls_snoc.
    cbn [foldl]. destruct a as [rq|].
    + apply fifo_inv_call. exact IH.
    + rewrite app_nil_r. apply fifo_inv_deliver. exact IH.
Qed.

Lemma fifo_inv_delivers (cs : list CommandClient.Request) (n : nat) :
  forall w,
    CommandClient.fifo_inv answer cs w ->
    CommandClient.fifo_inv answer cs
      (CommandClient.world_run answer w (replicate n CommandClient.Deliver))
    /\ CommandClient.served
         (CommandClient.world_run answer w (replicate n CommandClient.Deliver))
       = ((CommandClient.served w + n) `min` length cs)%nat.
Proof.
  induction n as [|n IH]; intros w Hinv.
  - simpl. split; [exact Hinv|]. destruct Hinv as (Hle & _). lia.
  - cbn [replicate CommandClient.world_run foldl].
    destruct (fifo_inv_deliver cs w Hinv) as (Hinv' & Hs).
    destruct (IH _ Hinv') as (Hinv'' & Hs'').
    split; [exact Hinv''|].
    unfold CommandClient.world_run in Hs''. rewrite Hs'', Hs.
    destruct Hinv as (Hle & _). lia.
Qed.

Lemma fifo_inv_calls (rqs : list CommandClient.Request) :
  CommandClient.calls (CommandClient.Call <$> rqs) = rqs
  /\ CommandClient.served
       (CommandClient.world_run answer CommandClient.world0
          (CommandClient.Call <$> rqs)) = 0%nat.
Proof.
  induction rqs as [|rq rqs IH] using rev_ind; [split; reflexivity|].
  destruct IH as (Hc & Hs). rewrite fmap_app. cbn [fmap list_fmap].
  rewrite calls_snoc, Hc. split; [reflexivity|].
  unfold CommandClient.world_run in *. rewrite foldl_app. cbn [foldl].
  exact Hs.
Qed.
End Fifo.

(** C3: for every schedule of concurrent [invoke] calls and arriving reply
    lines on one CommandClient, at most one request is outstanding on the
    connection and it is the head of the FIFO queue; the calls admitted so
    far are the resolved ones followed by the queued ones, in admission
    order; a call goes on the wire only once all calls before it are
    resolved, so wire order is admission order; every resolution pairs a
    call with the controller's reply to that very call, in the order the
    replies arrive; and N calls followed by N replies yield exactly N
    resolutions and an empty queue. *)
Theorem invoke_fifo_single_flight
    (answer : CommandClient.Request -> CommandClient.Reply)
    (acts : list CommandClient.action) :
  let w := CommandClient.world_run answer CommandClient.world0 acts in
  let cs := CommandClient.calls acts in
  (length (CommandClient.outstanding w) <= 1)%nat
  /\ CommandClient.outstanding w
     = take 1 (CommandClient.queue (CommandClient.client w))
  /\ cs = take (CommandClient.served w) cs
          ++ CommandClient.queue (CommandClient.client w)
  /\ CommandClient.writes (CommandClient.written (CommandClient.client w))
     = take (S (CommandClient.served w)) cs
  /\ CommandClient.resolved (CommandClient.client w)
     = CommandClient.own_completion answer <$> take (CommandClient.served w) cs
  /\ (CommandClient.queue (CommandClient.client w) = [] ->
      CommandClient.resolved (CommandClient.client w)
      = CommandClient.own_completion answer <$> cs)
  /\ (forall rqs,
         let w' :=
           CommandClient.world_run answer CommandClient.world0
             ((CommandClient.Call <$> rqs)
                ++ replicate (length rqs) CommandClient.Deliver) in
         CommandClient.queue (CommandClient.client w') = []
         /\ CommandClient.resolved (CommandClient.client w')
            = CommandClient.own_completion answer <$> rqs
         /\ length (CommandClient.resolved (CommandClient.client w')) = length rqs
         /\ CommandClient.writes (CommandClient.written (CommandClient.client w'))
            = rqs).
Proof.
  intros w cs.
  pose proof (fifo_inv_run answer acts) as Hinv. fold w cs in Hinv.
  pose proof (fifo_inv_outstanding answer cs w Hinv) as Hout.
  destruct Hinv as (Hle & Hq & Hw & Hr).
  split; [|split; [|split; [|split; [|split; [|split]]]]].
  - rewrite Hout, length_take. lia.
  - exact Hout.
  - rewrite Hq. symmetry. apply take_drop.
  - exact Hw.
  - exact Hr.
  - intros Hempty. rewrite Hr. f_equal. apply take_ge.
    rewrite Hempty in Hq. symmetry in Hq. apply (f_equal length) in Hq.
    rewrite length_drop in Hq. simpl in Hq. lia.
  - intros rqs w'. subst w'. unfold CommandClient.world_run.
    rewrite foldl_app.
    pose proof (fifo_inv_run answer (CommandClient.Call <$> rqs)) as Hinv1.
    destruct (fifo_inv_calls answer rqs) as (Hcalls & Hserved).
    rewrite Hcalls in Hinv1.
    destruct (fifo_inv_delivers answer rqs (length rqs) _ Hinv1)
      as ((_ & Hq2 & Hw2 & Hr2) & Hs2).
    rewrite Hserved in Hs2. unfold CommandClient.world_run in *.
    rewrite Hq2, Hw2, Hr2, Hs2.
    replace ((0 + length rqs) `min` length rqs)%nat with (length rqs) by lia.
    rewrite drop_ge, !take_ge, length_fmap by lia. auto.
Qed.

Lemma invoked_snoc (es : list CommandClient.event) (e : CommandClient.event) :
  CommandClient.invoked (es ++ [e])
  = CommandClient.invoked es
    ++ match e with
       | CommandClient.Invoke rq => [rq]
       | _ => []
       end.
Proof.
  unfold CommandClient.invoked. rewrite omap_app. destruct e; reflexivity.
Qed.

Lemma resolve_head_written (c : CommandClient.Client)
    (how : CommandClient.Request -> CommandClient.completion) :
  exists extra,
    CommandClient.written (CommandClient.resolve_head c how)
    = CommandClient.written c ++ extra
    /\ (forall rq, rq ∈ CommandClient.writes extra -> rq ∈ CommandClient.queue c)
    /\ (forall rq, rq ∈ CommandClient.queue (CommandClient.resolve_head c how) ->
                   rq ∈ CommandClient.queue c).
Proof.
  unfold CommandClient.resolve_head.
  destruct (CommandClient.queue c) as [|hd rest] eqn:Hq.
  - exists []. rewrite app_nil_r, Hq. repeat split; auto;
      intros rq H; inversion H.
  - unfold CommandClient.send_head. cbn [CommandClient.queue].
    destruct rest as [|nxt rest'].
    + exists []. cbn [CommandClient.written CommandClient.queue].
      rewrite app_nil_r. repeat split; auto; intros rq H; inversion H.
    + exists [CommandClient.Write nxt].
      cbn [CommandClient.written CommandClient.queue]. repeat split.
      * intros rq H. cbn in H. apply list_elem_of_singleton in H as ->.
        apply list_elem_of_further, list_elem_of_here.
      * intros rq H. apply list_elem_of_further. exact H.
Qed.

Lemma run_writes_only_invoked (c0 : CommandClient.Client)
    (es : list CommandClient.event) :
  CommandClient.queue c0 = [] ->
  exists extra,
    CommandClient.written (CommandClient.run c0 es)
    = CommandClient.written c0 ++ extra
    /\ (forall rq, rq ∈ CommandClient.writes extra -> rq ∈ CommandClient.invoked es)
    /\ (forall rq, rq ∈ CommandClient.queue (CommandClient.run c0 es) ->
                   rq ∈ CommandClient.invoked es).
Proof.
  intros Hq0. induction es as [|e es IH] using rev_ind.
  - exists []. cbn. rewrite app_nil_r, Hq0. repeat split; auto;
      intros rq H; inversion H.
  - destruct IH as (extra & Hw & Hex & Hqu).
    unfold CommandClient.run in *. rewrite foldl_app. cbn [foldl].
    set (c := foldl CommandClient.step c0 es) in *.
    rewrite invoked_snoc. destruct e as [rq|r| |]; cbn [CommandClient.step].
    + destruct (ensure_connected_keeps c) as (Hq' & _ & Hw' & _).
      assert (Hpre : exists pre,
                 CommandClient.written (CommandClient.ensure_connected c)
                 = CommandClient.written c ++ pre
                 /\ CommandClient.writes pre = []).
      { unfold CommandClient.ensure_connected.
        destruct (CommandClient.connection c).
        - eexists. split; reflexivity.
        - exists []. rewrite app_nil_r. split; reflexivity. }
      destruct Hpre as (pre & Hpre & Hprew).
      destruct (CommandClient.queue (CommandClient.ensure_connected c))
        as [|hd tl] eqn:Hqueue.
      * exists (extra ++ pre ++ [CommandClient.Write rq]).
        cbn [CommandClient.send_head CommandClient.queue CommandClient.written].
        rewrite Hpre, Hw, <- !app_assoc. split; [reflexivity|]. split.
        -- intros x Hx. rewrite !writes_app, Hprew in Hx. cbn in Hx.
           apply elem_of_app in Hx as [Hx|Hx]; apply elem_of_app; auto.
        -- intros x Hx. apply list_elem_of_singleton in Hx as ->.
           apply elem_of_app. right. apply list_elem_of_here.
      * exists (extra ++ pre).
        cbn [CommandClient.queue CommandClient.written].
        rewrite Hpre, Hw, <- !app_assoc. split; [reflexivity|]. split.
        -- intros x Hx. rewrite !writes_app, Hprew, app_nil_r in Hx.
           apply elem_of_app. auto.
        -- intros x Hx. rewrite Hq' in Hx.
           apply elem_of_app in Hx as [Hx|Hx]; apply elem_of_app; auto.
    + destruct (resolve_head_written c (fun _ => CommandClient.outcome r))
        as (more & Hm & Hmw & Hmq).
      exists (extra ++ more). rewrite Hm, Hw, <- app_assoc, app_nil_r.
      split; [reflexivity|]. split.
      * intros x Hx. rewrite writes_app in Hx.
        apply elem_of_app in Hx as [Hx|Hx]; auto.
      * intros x Hx. auto.
    + destruct (resolve_head_written c
                  (fun _ => CommandClient.Failed TimeoutError))
        as (more & Hm & Hmw & Hmq).
      exists (extra ++ more). rewrite Hm, Hw, <- app_assoc, app_nil_r.
      split; [reflexivity|]. split.
      * intros x Hx. rewrite writes_app in Hx.
        apply elem_of_app in Hx as [Hx|Hx]; auto.
      * intros x Hx. auto.
    + exists extra. cbn [CommandClient.queue CommandClient.written].
      rewrite app_nil_r. split; [exact Hw|]. split; [exact Hex|].
      intros x Hx. inversion Hx.
Qed.

(** C4: when the connection drops, every request in the queue, the
    outstanding head and the queued-but-unsent ones alike, is resolved with
    [ConnectionLostError]; none is left pending and nothing is written, so
    none is retried: whatever goes on the wire later belongs to a call
    invoked after the drop.  The next [invoke] reconnects and logs in again
    before it writes its request. *)
Theorem connection_drop_fails_all (c : CommandClient.Client) :
  let c' := CommandClient.step c CommandClient.ConnectionDropped in
  CommandClient.queue c' = []
  /\ CommandClient.connection c' = CommandClient.Closed
  /\ CommandClient.written c' = CommandClient.written c
  /\ CommandClient.resolved c'
     = CommandClient.resolved c
       ++ ((fun rq => (CommandClient.ticket rq,
                       CommandClient.Failed ConnectionLostError))
             <$> CommandClient.queue c)
  /\ (forall rq,
         rq ∈ CommandClient.queue c ->
         (CommandClient.ticket rq, CommandClient.Failed ConnectionLostError)
           ∈ CommandClient.resolved c')
  /\ (forall rq,
         let c'' := CommandClient.step c' (CommandClient.Invoke rq) in
         CommandClient.written c''
         = CommandClient.written c
           ++ [CommandClient.Connect; CommandClient.Login; CommandClient.Write rq]
         /\ CommandClient.queue c'' = [rq]
         /\ CommandClient.connection c'' = CommandClient.Ready)
  /\ (forall es rq,
         rq ∈ CommandClient.writes
                (drop (length (CommandClient.written c))
                   (CommandClient.written (CommandClient.run c' es))) ->
         rq ∈ CommandClient.invoked es).
Proof.
  intros c'. subst c'. cbn [CommandClient.step CommandClient.queue
    CommandClient.connection CommandClient.written CommandClient.resolved].
  split; [reflexivity|]. split; [reflexivity|]. split; [reflexivity|].
  split; [reflexivity|]. split; [|split].
  - intros rq Hin. apply elem_of_app. right.
    apply list_elem_of_fmap. exists rq. auto.
  - intros rq. cbn. rewrite <- app_assoc. auto.
  - intros es rq Hin.
    destruct (run_writes_only_invoked
                {| CommandClient.connection := CommandClient.Closed;
                   CommandClient.queue := [];
                   CommandClient.written := CommandClient.written c;
                   CommandClient.resolved :=
                     CommandClient.resolved c
                     ++ ((fun rq => (CommandClient.ticket rq,
                                     CommandClient.Failed ConnectionLostError))
                           <$> CommandClient.queue c) |} es eq_refl)
      as (extra & Hw & Hex & _).
    cbn [CommandClient.written] in Hw. rewrite Hw in Hin.
    rewrite drop_app_length in Hin. auto.
Qed.

(** ** The value codec *)

Lemma uint_of_char_digit (c : ascii) (d : Decimal.uint) :
  if Codec.is_digit c
  then exists d', uint_of_char c (Some d) = Some d'
  else uint_of_char c (Some d) = None.
Proof.
  destruct c as [[] [] [] [] [] [] [] []]; cbn; eauto.
Qed.

Lemma uint_of_string_digits (s : string) :
  if Codec.all_chars Codec.is_digit s
  then exists d, NilEmpty.uint_of_string s = Some d
  else NilEmpty.uint_of_string s = None.
Proof.
  induction s as [|c s IH]; cbn [Codec.all_chars NilEmpty.uint_of_string].
  - eauto.
  - pose proof (uint_of_char_digit c) as Hc.
    destruct (Codec.is_digit c); cbn [andb].
    + destruct (Codec.all_chars Codec.is_digit s).
      * destruct IH as [d ->]. apply Hc.
      * rewrite IH. reflexivity.
    + destruct (NilEmpty.uint_of_string s) as [d|]; [apply Hc|reflexivity].
Qed.

Lemma string_of_uint_digits (d : Decimal.uint) :
  Codec.all_chars Codec.is_digit (NilEmpty.string_of_uint d) = true.
Proof. induction d; cbn; auto. Qed.

Lemma all_chars_app (p : ascii -> bool) (a b : string) :
  Codec.all_chars p (a +:+ b) = Codec.all_chars p a && Codec.all_chars p b.
Proof.
  induction a as [|c a IH]; simpl; [reflexivity|].
  rewrite IH. apply andb_assoc.
Qed.

Lemma decode_int_encode_int (z : Z) :
  Codec.decode_int (Codec.encode_int z) = ok z.
Proof.
  unfold Codec.decode_int, Codec.encode_int, Text.str_of_int.
  destruct (to_int_not_nil z) as [Hp Hn].
  rewrite (NilZero.isi _ Hp Hn). cbn. unfold ok. f_equal. apply DecimalZ.of_to.
Qed.

Lemma digits1_cons (c : ascii) (r : string) :
  Codec.digits1 (String c r) = Codec.all_chars Codec.is_digit (String c r).
Proof. reflexivity. Qed.

Lemma decode_int_rejects (tok : string) :
  Codec.is_int_token tok = false -> Codec.decode_int tok = raise DecodeError.
Proof.
  unfold Codec.is_int_token, Codec.decode_int, Codec.optional_minus,
    NilZero.int_of_string, NilZero.uint_of_string.
  destruct tok as [|c r]; [reflexivity|].
  destruct (Ascii.eqb c "-") eqn:Hc; cbn [snd Codec.digits1].
  - destruct r as [|c2 r2]; [reflexivity|]. intros Hd.
    try rewrite digits1_cons in Hd.
    pose proof (uint_of_string_digits (String c2 r2)) as H.
    rewrite Hd in H. rewrite H. reflexivity.
  - intros Hd.
    pose proof (uint_of_string_digits (String c r)) as H.
    rewrite Hd in H. rewrite H. reflexivity.
Qed.

Lemma decode_int_accepts (tok : string) :
  Codec.is_int_token tok = true -> exists z, Codec.decode_int tok = ok z.
Proof.
  unfold Codec.is_int_token, Codec.decode_int, Codec.optional_minus,
    NilZero.int_of_string, NilZero.uint_of_string.
  destruct tok as [|c r]; [discriminate|].
  destruct (Ascii.eqb c "-") eqn:Hc; cbn [snd Codec.digits1].
  - destruct r as [|c2 r2]; [discriminate|]. intros Hd.
    try rewrite digits1_cons in Hd.
    try rewrite digits1_cons in Hd.
    pose proof (uint_of_string_digits (String c2 r2)) as H.
    rewrite Hd in H. destruct H as [d ->]. cbn. eauto.
  - intros Hd.
    pose proof (uint_of_string_digits (String c r)) as H.
    rewrite Hd in H. destruct H as [d ->]. cbn. eauto.
Qed.

Lemma decode_bool_rejects (tok : string) :
  Codec.is_bool_token tok = false -> Codec.decode_bool tok = raise DecodeError.
Proof.
  unfold Codec.is_bool_token. intros H.
  destruct (String.eqb_spec tok "0") as [E0|H0]; [discriminate H|].
  destruct (String.eqb_spec tok "1") as [E1|H1]; [discriminate H|].
  destruct tok as [|c [|c2 r]]; try reflexivity;
    destruct c as [[] [] [] [] [] [] [] []]; try reflexivity; congruence.
Qed.

Lemma decode_enum_member (table : Codec.enumeration) (name : string)
    (ordinal : Z) :
  NoDup table.*1 -> (name, ordinal) ∈ table ->
  Codec.decode_enum table name = ok (Codec.VEnum table name ordinal).
Proof.
  unfold Codec.decode_enum. intros Hnd Hin.
  assert (Hfind : List.find (fun entry => String.eqb (fst entry) name) table
                  = Some (name, ordinal)).
  { clear -Hnd Hin. induction table as [|[n o] table IH]; [inversion Hin|].
    rewrite fmap_cons in Hnd. apply NoDup_cons in Hnd as [Hn Hnd].
    cbn [List.find fst]. destruct (String.eqb_spec n name) as [->|Hne].
    - apply elem_of_cons in Hin as [Heq|Hin]; [congruence|].
      exfalso. apply Hn. apply list_elem_of_fmap. exists (name, ordinal). auto.
    - apply elem_of_cons in Hin as [Heq|Hin]; [congruence|]. auto. }
  rewrite Hfind. reflexivity.
Qed.

Lemma decode_enum_rejects (table : Codec.enumeration) (tok : string) :
  Codec.is_enum_token table tok = false ->
  Codec.decode_enum table tok = raise DecodeError.
Proof.
  unfold Codec.is_enum_token, Codec.decode_enum. intros H.
  assert (Hfind : List.find (fun entry => String.eqb (fst entry) tok) table = None).
  { induction table as [|e table IH]; [reflexivity|].
    cbn [existsb List.find] in *.
    destruct (String.eqb (fst e) tok); [discriminate H|]. auto. }
  rewrite Hfind. reflexivity.
Qed.

Lemma escape_tail_head (s : string) :
  match s, (Codec.escape s +:+ String Codec.dquote "") with
  | EmptyString, t => t = String Codec.dquote ""
  | String _ _, String c _ => Ascii.eqb c Codec.dquote = false
  | String _ _, EmptyString => False
  end.
Proof.
  destruct s as [|c s]; [reflexivity|]. cbn [Codec.escape].
  destruct (Ascii.eqb c Codec.dquote) eqn:E; [reflexivity|exact E].
Qed.

Lemma unescape_cons2 (c c2 : ascii) (rest2 : string) :
  Codec.unescape (String c (String c2 rest2))
  = if Ascii.eqb c Codec.dquote then None
    else if Ascii.eqb c Codec.backslash && Ascii.eqb c2 Codec.dquote then
      match rest2 with
      | EmptyString => Some (String Codec.backslash "")
      | _ => String Codec.dquote <$> Codec.unescape rest2
      end
    else String c <$> Codec.unescape (String c2 rest2).
Proof. reflexivity. Qed.

Lemma unescape_escape (s : string) :
  Codec.unescape (Codec.escape s +:+ String Codec.dquote "") = Some s.
Proof.
  induction s as [|c s IH]; [reflexivity|].
  pose proof (escape_tail_head s) as Hhead.
  cbn [Codec.escape]. destruct (Ascii.eqb_spec c Codec.dquote) as [->|Hc].
  - change ((String Codec.backslash (String Codec.dquote (Codec.escape s)))
              +:+ String Codec.dquote "")
      with (String Codec.backslash
              (String Codec.dquote (Codec.escape s +:+ String Codec.dquote ""))).
    rewrite unescape_cons2.
    replace (Ascii.eqb Codec.backslash Codec.dquote) with false by reflexivity.
    replace (Ascii.eqb Codec.backslash Codec.backslash) with true by reflexivity.
    replace (Ascii.eqb Codec.dquote Codec.dquote) with true by reflexivity.
    cbn [andb]. rewrite IH.
    destruct (Codec.escape s +:+ String Codec.dquote "") eqn:E;
      [destruct s; [discriminate E|rewrite E in Hhead; destruct Hhead]|reflexivity].
  - change ((String c (Codec.escape s)) +:+ String Codec.dquote "")
      with (String c (Codec.escape s +:+ String Codec.dquote "")).
    destruct (Codec.escape s +:+ String Codec.dquote "") as [|c2 rest2] eqn:E;
      [destruct s; [discriminate E|rewrite E in Hhead; destruct Hhead]|].
    rewrite unescape_cons2.
    replace (Ascii.eqb c Codec.dquote) with false
      by (symmetry; apply Ascii.eqb_neq; exact Hc).
    destruct (Ascii.eqb c Codec.backslash && Ascii.eqb c2 Codec.dquote) eqn:Hesc.
    + apply andb_true_iff in Hesc as [Hb Hq].
      apply Ascii.eqb_eq in Hb. subst c.
      destruct s as [|c' s'].
      * cbn in E. injection E as <- <-. reflexivity.
      * rewrite E in Hhead. congruence.
    + rewrite IH. reflexivity.
Qed.

Lemma decode_str_encode_str (s : string) :
  Codec.decode_str (Codec.encode_str s) = ok s.
Proof.
  unfold Codec.decode_str, Codec.encode_str.
  replace (Ascii.eqb Codec.dquote Codec.dquote) with true by reflexivity.
  rewrite unescape_escape. reflexivity.
Qed.

Lemma quoted_tail_cons2 (prev : bool) (c c2 : ascii) (rest2 : string) :
  Codec.quoted_tail prev (String c (String c2 rest2))
  = (if Ascii.eqb c Codec.dquote then prev else true)
    && Codec.quoted_tail (Ascii.eqb c Codec.backslash) (String c2 rest2).
Proof. reflexivity. Qed.

Lemma unescape_quoted_tail (n : nat) :
  forall s r prev,
    (String.length s <= n)%nat ->
    Codec.unescape s = Some r -> Codec.quoted_tail prev s = true.
Proof.
  induction n as [|n IH]; intros s r prev Hlen Hun.
  - destruct s; [discriminate Hun|simpl in Hlen; lia].
  - destruct s as [|c [|c2 rest2]]; [discriminate Hun| |].
    + cbn in Hun |- *. destruct (Ascii.eqb c Codec.dquote); [reflexivity|discriminate].
    + rewrite unescape_cons2 in Hun. rewrite quoted_tail_cons2.
      destruct (Ascii.eqb c Codec.dquote) eqn:Hq; [discriminate Hun|].
      cbn [andb].
      destruct (Ascii.eqb c Codec.backslash && Ascii.eqb c2 Codec.dquote) eqn:Hesc.
      * apply andb_true_iff in Hesc as [Hb Hq2]. rewrite Hb.
        destruct rest2 as [|c3 rest3]; [cbn; exact Hq2|].
        rewrite quoted_tail_cons2, Hq2. cbn [andb].
        destruct (Codec.unescape (String c3 rest3)) as [r'|] eqn:Hr;
          [|discriminate Hun].
        apply (IH _ r'); [simpl in Hlen |- *; lia|exact Hr].
      * destruct (Codec.unescape (String c2 rest2)) as [r'|] eqn:Hr;
          [|discriminate Hun].
        apply (IH _ r'); [simpl in Hlen |- *; lia|exact Hr].
Qed.

Lemma decode_str_rejects (tok : string) :
  Codec.is_str_token tok = false -> Codec.decode_str tok = raise DecodeError.
Proof.
  unfold Codec.is_str_token, Codec.decode_str.
  destruct tok as [|c rest]; [reflexivity|].
  destruct (Ascii.eqb c Codec.dquote); [|reflexivity]. cbn [andb].
  intros Hq. destruct (Codec.unescape rest) as [r|] eqn:Hr; [|reflexivity].
  rewrite (unescape_quoted_tail _ rest r false (le_n _) Hr) in Hq.
  discriminate Hq.
Qed.

Lemma quoted_tail_unescape (n : nat) :
  forall s prev,
    (String.length s <= n)%nat ->
    Codec.quoted_tail prev s = true ->
    (prev = false
     \/ match s with
        | String c (String _ _) => Ascii.eqb c Codec.dquote = false
        | _ => True
        end) ->
    exists r, Codec.unescape s = Some r.
Proof.
  induction n as [|n IH]; intros s prev Hlen Hq Hside.
  - destruct s; [discriminate Hq|simpl in Hlen; lia].
  - destruct s as [|c [|c2 rest2]]; [discriminate Hq| |].
    + cbn in Hq |- *. rewrite Hq. eauto.
    + rewrite quoted_tail_cons2 in Hq. rewrite unescape_cons2.
      apply andb_true_iff in Hq as [Hfirst Hrest].
      assert (Hc : Ascii.eqb c Codec.dquote = false).
      { destruct Hside as [->|H]; [|exact H].
        destruct (Ascii.eqb c Codec.dquote); [discriminate Hfirst|reflexivity]. }
      rewrite Hc.
      destruct (Ascii.eqb c Codec.backslash) eqn:Hb; cbn [andb].
      * destruct (Ascii.eqb c2 Codec.dquote) eqn:Hq2.
        -- destruct rest2 as [|c3 rest3]; [eauto|].
           rewrite quoted_tail_cons2, Hq2 in Hrest. cbn [andb] in Hrest.
           replace (Ascii.eqb c2 Codec.backslash) with false in Hrest.
           ++ destruct (IH (String c3 rest3) false) as [r Hr];
                [simpl in Hlen |- *; lia|exact Hrest|left; reflexivity|].
              rewrite Hr. cbn. eauto.
           ++ apply Ascii.eqb_eq in Hq2. subst c2. reflexivity.
        -- destruct (IH (String c2 rest2) true) as [r Hr];
             [simpl in Hlen |- *; lia|exact Hrest| |].
           ++ right. destruct rest2; [exact I|exact Hq2].
           ++ rewrite Hr. cbn. eauto.
      * destruct (IH (String c2 rest2) false) as [r Hr];
          [simpl in Hlen |- *; lia|exact Hrest|left; reflexivity|].
        rewrite Hr. cbn. eauto.
Qed.

Lemma decode_str_accepts (tok : string) :
  Codec.is_str_token tok = true -> exists s, Codec.decode_str tok = ok s.
Proof.
  unfold Codec.is_str_token, Codec.decode_str.
  destruct tok as [|c rest]; [discriminate|].
  destruct (Ascii.eqb c Codec.dquote); [|discriminate]. cbn [andb].
  intros Hq.
  destruct (quoted_tail_unescape _ rest false (le_n _) Hq (or_introl eq_refl))
    as [r ->].
  cbn. eauto.
Qed.

Lemma str_app_cons (c : ascii) (s t : string) :
  String c s +:+ t = String c (s +:+ t).
Proof. reflexivity. Qed.

Lemma str_app_nil_l (t : string) : "" +:+ t = t.
Proof. reflexivity. Qed.

Lemma str_app_nil_r (s : string) : s +:+ "" = s.
Proof.
  induction s as [|c s IH]; [reflexivity|].
  rewrite str_app_cons, IH. reflexivity.
Qed.

Lemma str_app_assoc (a b c : string) : (a +:+ b) +:+ c = a +:+ (b +:+ c).
Proof.
  induction a as [|x a IH]; [reflexivity|].
  rewrite !str_app_cons, IH. reflexivity.
Qed.

Lemma str_length_app (a b : string) :
  String.length (a +:+ b) = (String.length a + String.length b)%nat.
Proof.
  induction a as [|x a IH]; [reflexivity|].
  rewrite str_app_cons. cbn [String.length]. rewrite IH. reflexivity.
Qed.

Section Items.
Variable close : ascii.
Hypothesis close_not_comma : Ascii.eqb "," close = false.

Lemma split_items_item (i : string) :
  Codec.plain close i = true ->
  forall cur rest,
    Codec.split_items close cur (i +:+ String "," rest)
    = cons (cur +:+ i) <$> Codec.split_items close "" rest.
Proof.
  induction i as [|c i IH]; intros Hp cur rest.
  - rewrite str_app_nil_l, str_app_nil_r. cbn [Codec.split_items].
    rewrite close_not_comma. reflexivity.
  - cbn in Hp. apply andb_true_iff in Hp as [Hc Hi].
    apply andb_true_iff in Hc as [Hc1 Hc2].
    apply negb_true_iff in Hc1, Hc2.
    rewrite str_app_cons. cbn [Codec.split_items]. rewrite Hc1, Hc2.
    rewrite (IH Hi), str_app_assoc. reflexivity.
Qed.

Lemma split_items_last (i : string) :
  Codec.plain close i = true ->
  forall cur,
    Codec.split_items close cur (i +:+ String close "") = Some [cur +:+ i].
Proof.
  induction i as [|c i IH]; intros Hp cur.
  - rewrite str_app_nil_l, str_app_nil_r. cbn [Codec.split_items].
    rewrite Ascii.eqb_refl. reflexivity.
  - cbn in Hp. apply andb_true_iff in Hp as [Hc Hi].
    apply andb_true_iff in Hc as [Hc1 Hc2].
    apply negb_true_iff in Hc1, Hc2.
    rewrite str_app_cons. cbn [Codec.split_items]. rewrite Hc1, Hc2.
    rewrite (IH Hi), str_app_assoc. reflexivity.
Qed.

Lemma split_items_join (items : list string) :
  items <> [] ->
  Forall (fun i => Codec.plain close i = true) items ->
  Codec.split_items close "" (Codec.join_comma items +:+ String close "")
  = Some items.
Proof.
  induction items as [|x items IH]; intros Hne Hall; [congruence|].
  apply Forall_cons in Hall as [Hx Hall].
  destruct items as [|y items].
  - cbn [Codec.join_comma]. rewrite (split_items_last x Hx). reflexivity.
  - change (Codec.join_comma (x :: y :: items))
      with (x +:+ String "," (Codec.join_comma (y :: items))).
    rewrite str_app_assoc, str_app_cons.
    rewrite (split_items_item x Hx), IH by (congruence || assumption).
    reflexivity.
Qed.

Lemma decode_items_join (item : string -> option Z) (enc : Z -> string)
    (l : list Z) :
  Forall (fun b => Codec.plain close (enc b) = true /\ enc b <> "" /\ item (enc b) = Some b) l ->
  Codec.decode_items item close (Codec.join_comma (enc <$> l) +:+ String close "")
  = Some l.
Proof.
  intros Hall. unfold Codec.decode_items. destruct l as [|b l].
  - simpl. rewrite Ascii.eqb_refl. reflexivity.
  - rewrite split_items_join.
    + cbn [mbind option_bind].
      assert (Hm : mapM item (enc <$> b :: l) = Some (b :: l)).
      { apply mapM_fmap_Forall_Some. eapply Forall_impl; [exact Hall|].
        intros x (_ & _ & Hx). exact Hx. }
      rewrite fmap_cons in Hm |- *.
      apply Forall_cons in Hall as [(_ & Hne & _) _].
      destruct (enc b) as [|c r] eqn:E; [congruence|].
      destruct (enc <$> l); exact Hm.
    + rewrite fmap_cons. discriminate.
    + apply Forall_fmap. eapply Forall_impl; [exact Hall|].
      intros x (Hx & _). exact Hx.
Qed.
End Items.

Lemma hex_value_is_hex (c : ascii) :
  if Codec.is_hex c
  then exists v, Codec.hex_value c = Some v
  else Codec.hex_value c = None.
Proof. destruct c as [[] [] [] [] [] [] [] []]; cbn; eauto. Qed.

Lemma hex_digit_value_nat (m : nat) :
  (m < 16)%nat ->
  Codec.hex_value (Codec.hex_digit (Z.of_nat m)) = Some (Z.of_nat m)
  /\ Ascii.eqb (Codec.hex_digit (Z.of_nat m)) "}" = false
  /\ Ascii.eqb (Codec.hex_digit (Z.of_nat m)) "," = false.
Proof.
  intros Hm.
  do 16 (destruct m as [|m]; [repeat split; reflexivity|]). lia.
Qed.

Lemma hex_digit_value (n : Z) :
  0 <= n < 16 ->
  Codec.hex_value (Codec.hex_digit n) = Some n
  /\ Ascii.eqb (Codec.hex_digit n) "}" = false
  /\ Ascii.eqb (Codec.hex_digit n) "," = false.
Proof.
  intros Hn. rewrite <- (Z2Nat.id n) by lia. apply hex_digit_value_nat. lia.
Qed.

Lemma hex_pair_item (b : Z) :
  0 <= b < 256 ->
  Codec.plain "}" (Codec.hex_pair b) = true
  /\ Codec.hex_pair b <> ""
  /\ Codec.decode_hex_pair (Codec.hex_pair b) = Some b.
Proof.
  intros Hb.
  assert (Hhi : 0 <= b / 16 < 16) by (split; [apply Z.div_pos|apply Z.div_lt_upper_bound]; lia).
  assert (Hlo : 0 <= b mod 16 < 16) by (apply Z.mod_pos_bound; lia).
  destruct (hex_digit_value _ Hhi) as (Hv1 & Hc1 & Hm1).
  destruct (hex_digit_value _ Hlo) as (Hv2 & Hc2 & Hm2).
  unfold Codec.hex_pair, Codec.plain, Codec.decode_hex_pair.
  cbn [Codec.all_chars]. rewrite Hv1, Hv2, Hc1, Hc2, Hm1, Hm2.
  repeat split; [discriminate|]. cbn. f_equal.
  pose proof (Z.div_mod b 16). lia.
Qed.

Lemma nonneg_text (b : Z) :
  0 <= b ->
  exists d,
    d <> Decimal.Nil
    /\ Text.str_of_int b = NilEmpty.string_of_uint d
    /\ Z.of_uint d = b.
Proof.
  intros Hb. unfold Text.str_of_int.
  destruct (to_int_not_nil b) as [Hp _].
  pose proof (DecimalZ.of_to b) as Hof.
  destruct (Z.to_int b) as [d|d] eqn:E.
  - exists d. repeat split.
    + intros ->. apply Hp. reflexivity.
    + destruct d; try reflexivity. exfalso. apply Hp. reflexivity.
    + exact Hof.
  - exfalso. destruct b; simpl in E; try discriminate E. lia.
Qed.

Lemma digit_is_plain (close : ascii) (s : string) :
  Codec.is_digit close = false ->
  Codec.all_chars Codec.is_digit s = true -> Codec.plain close s = true.
Proof.
  intros Hclose. unfold Codec.plain.
  induction s as [|c s IH]; [reflexivity|]. cbn [Codec.all_chars].
  intros H. apply andb_true_iff in H as [Hc Hs]. rewrite (IH Hs), andb_true_r.
  apply andb_true_iff. split; apply negb_true_iff.
  - destruct (Ascii.eqb_spec c close) as [->|_]; [congruence|reflexivity].
  - destruct (Ascii.eqb_spec c ",") as [->|_]; [discriminate Hc|reflexivity].
Qed.

Lemma dec_byte_item (b : Z) :
  0 <= b < 256 ->
  Codec.plain "]" (Text.str_of_int b) = true
  /\ Text.str_of_int b <> ""
  /\ Codec.decode_dec_byte (Text.str_of_int b) = Some b.
Proof.
  intros Hb. destruct (nonneg_text b) as (d & Hd & Htext & Hval); [lia|].
  rewrite Htext. repeat split.
  - apply digit_is_plain; [reflexivity|apply string_of_uint_digits].
  - destruct d; try discriminate. congruence.
  - unfold Codec.decode_dec_byte.
    replace (NilEmpty.string_of_uint d) with (NilZero.string_of_uint d)
      by (destruct d; congruence || reflexivity).
    rewrite NilZero.usu by exact Hd.
    cbn [mbind option_bind]. rewrite Hval.
    replace (b <? 256) with true by (symmetry; apply Z.ltb_lt; lia).
    reflexivity.
Qed.

Lemma decode_bytes_encode_bytes (form : Codec.bytes_form) (l : list Z) :
  Forall (fun b => 0 <= b < 256) l ->
  Codec.decode_bytes (Codec.encode_bytes form l) = ok l.
Proof.
  intros Hl. destruct form; unfold Codec.encode_bytes, Codec.decode_bytes.
  - rewrite (decode_items_join "}" eq_refl Codec.decode_hex_pair Codec.hex_pair);
      [reflexivity|].
    eapply Forall_impl; [exact Hl|]. intros b Hb. apply hex_pair_item. exact Hb.
  - rewrite (decode_items_join "]" eq_refl Codec.decode_dec_byte Text.str_of_int);
      [reflexivity|].
    eapply Forall_impl; [exact Hl|]. intros b Hb. apply dec_byte_item. exact Hb.
Qed.

Lemma decode_hex_pair_rejects (s : string) :
  if Codec.is_hex_pair s
  then exists v, Codec.decode_hex_pair s = Some v
  else Codec.decode_hex_pair s = None.
Proof.
  unfold Codec.is_hex_pair, Codec.decode_hex_pair.
  destruct s as [|h [|l [|x r]]]; try reflexivity.
  pose proof (hex_value_is_hex h) as Hh. pose proof (hex_value_is_hex l) as Hl.
  destruct (Codec.is_hex h); cbn [andb].
  - destruct Hh as [v ->]. destruct (Codec.is_hex l).
    + destruct Hl as [w ->]. cbn. eauto.
    + rewrite Hl. reflexivity.
  - rewrite Hh. reflexivity.
Qed.

Lemma decode_dec_byte_rejects (s : string) :
  if Codec.is_dec_byte s
  then exists v, Codec.decode_dec_byte s = Some v
  else Codec.decode_dec_byte s = None.
Proof.
  unfold Codec.is_dec_byte, Codec.decode_dec_byte, NilZero.uint_of_string.
  destruct s as [|c r]; [reflexivity|]. rewrite digits1_cons.
  pose proof (uint_of_string_digits (String c r)) as H.
  destruct (Codec.all_chars Codec.is_digit (String c r)); cbn [andb].
  - destruct H as [d ->]. cbn [mbind option_bind].
    destruct (Z.of_uint d <? 256); eauto.
  - rewrite H. reflexivity.
Qed.

Lemma forallb_mapM (ok_item : string -> bool) (item : string -> option Z)
    (items : list string) :
  (forall s, if ok_item s then exists v, item s = Some v else item s = None) ->
  if forallb ok_item items
  then exists l, mapM item items = Some l
  else mapM item items = None.
Proof.
  intros Hitem. induction items as [|x items IH]; cbn [forallb].
  - exists []. reflexivity.
  - pose proof (Hitem x) as Hx. destruct (ok_item x); cbn [andb].
    + destruct Hx as [v Hv]. destruct (forallb ok_item items).
      * destruct IH as [l Hl]. exists (v :: l). cbn. rewrite Hv. cbn.
        rewrite Hl. reflexivity.
      * cbn. rewrite Hv. cbn. rewrite IH. reflexivity.
    + cbn. rewrite Hx. reflexivity.
Qed.

Lemma decode_items_grammar (ok_item : string -> bool)
    (item : string -> option Z) (close : ascii) (rest : string) :
  (forall s, if ok_item s then exists v, item s = Some v else item s = None) ->
  if Codec.is_item_list ok_item close rest
  then exists l, Codec.decode_items item close rest = Some l
  else Codec.decode_items item close rest = None.
Proof.
  intros Hitem. unfold Codec.is_item_list, Codec.decode_items.
  destruct (Codec.split_items close "" rest) as [items|]; [|reflexivity].
  cbn [mbind option_bind].
  pose proof (forallb_mapM ok_item item items Hitem) as Hm.
  destruct items as [|[|c r] [|y items]]; try exact Hm.
  exists []. reflexivity.
Qed.

Lemma decode_bytes_grammar (tok : string) :
  if Codec.is_bytes_token tok
  then exists l, Codec.decode_bytes tok = ok l
  else Codec.decode_bytes tok = raise DecodeError.
Proof.
  destruct tok as [|c rest]; [reflexivity|].
  destruct c as [[] [] [] [] [] [] [] []]; try reflexivity;
    unfold Codec.is_bytes_token, Codec.decode_bytes.
  - pose proof (decode_items_grammar Codec.is_hex_pair Codec.decode_hex_pair
                  "}" rest decode_hex_pair_rejects) as H.
    destruct (Codec.is_item_list Codec.is_hex_pair "}" rest).
    + destruct H as [l ->]. cbn. eauto.
    + rewrite H. reflexivity.
  - pose proof (decode_items_grammar Codec.is_dec_byte Codec.decode_dec_byte
                  "]" rest decode_dec_byte_rejects) as H.
    destruct (Codec.is_item_list Codec.is_dec_byte "]" rest).
    + destruct H as [l ->]. cbn. eauto.
    + rewrite H. reflexivity.
Qed.

Lemma is_digit_not_punct (c : ascii) :
  Codec.is_digit c = true ->
  Ascii.eqb c "." = false /\ Ascii.eqb c "-" = false.
Proof. destruct c as [[] [] [] [] [] [] [] []]; cbn; intros H; try discriminate H; auto. Qed.

Lemma split_dot_digits (a : string) :
  Codec.all_chars Codec.is_digit a = true ->
  Objects.split_dot a = (a, None)
  /\ forall b, Objects.split_dot (a +:+ String "." b) = (a, Some b).
Proof.
  induction a as [|c a IH]; intros Ha.
  - split; reflexivity.
  - cbn [Codec.all_chars] in Ha. apply andb_true_iff in Ha as [Hc Ha].
    destruct (is_digit_not_punct c Hc) as [Hdot _].
    destruct (IH Ha) as [IH1 IH2]. split.
    + cbn [Objects.split_dot]. rewrite Hdot, IH1. reflexivity.
    + intros b. rewrite str_app_cons. cbn [Objects.split_dot].
      rewrite Hdot, IH2. reflexivity.
Qed.

Lemma str_take_drop (n : nat) (s : string) :
  Codec.str_take n s +:+ Codec.str_drop n s = s.
Proof.
  revert s. induction n as [|n IH]; intros [|c s]; try reflexivity.
  cbn [Codec.str_take Codec.str_drop]. rewrite str_app_cons, IH. reflexivity.
Qed.

Lemma str_drop_length (n : nat) (s : string) :
  String.length (Codec.str_drop n s) = (String.length s - n)%nat.
Proof.
  revert s. induction n as [|n IH]; intros [|c s]; try reflexivity.
  cbn [Codec.str_drop String.length]. rewrite IH. reflexivity.
Qed.

Lemma zeros_length (n : nat) : String.length (Codec.zeros n) = n.
Proof. induction n as [|n IH]; [reflexivity|]. cbn. rewrite IH. reflexivity. Qed.

Lemma zeros_digits (n : nat) :
  Codec.all_chars Codec.is_digit (Codec.zeros n) = true.
Proof. induction n as [|n IH]; [reflexivity|]. cbn. exact IH. Qed.

Lemma uint_of_string_zeros (n : nat) (s : string) (d : Decimal.uint) :
  NilEmpty.uint_of_string s = Some d ->
  exists d',
    NilEmpty.uint_of_string (Codec.zeros n +:+ s) = Some d'
    /\ Z.of_uint d' = Z.of_uint d.
Proof.
  intros Hs. induction n as [|n (d' & Hd' & Hv)].
  - exists d. split; [exact Hs|reflexivity].
  - exists (Decimal.D0 d'). cbn [Codec.zeros]. rewrite str_app_cons.
    cbn [NilEmpty.uint_of_string]. rewrite Hd'. split; [reflexivity|].
    rewrite <- Hv. reflexivity.
Qed.

Lemma digits_of_value (n : N) :
  Codec.all_chars Codec.is_digit (Codec.digits_of n) = true
  /\ exists d,
      NilEmpty.uint_of_string (Codec.digits_of n) = Some d
      /\ Z.of_uint d = Z.of_N n.
Proof.
  unfold Codec.digits_of. split; [apply string_of_uint_digits|].
  exists (N.to_uint n). split; [apply NilEmpty.usu|].
  unfold Z.of_uint. f_equal. apply DecimalN.Unsigned.of_to.
Qed.

Lemma decode_decimal_parts (tok body : string) (neg : bool) (c : ascii)
    (ip' fp : string) :
  Codec.optional_minus tok = (neg, body) ->
  Objects.split_dot body
  = (String c ip', match fp with EmptyString => None | _ => Some fp end) ->
  Codec.decode_decimal tok
  = match NilEmpty.uint_of_string (String c ip' +:+ fp) with
    | Some n =>
        ok {| Objects.coeff := if neg then - Z.of_uint n else Z.of_uint n;
              Objects.expo := - Z.of_nat (String.length fp) |}
    | None => raise DecodeError
    end.
Proof.
  intros Hm Hs. unfold Codec.decode_decimal. rewrite Hm, Hs.
  destruct fp; reflexivity.
Qed.

Lemma decode_decimal_encode_decimal (d : Objects.PyDecimal) :
  Objects.expo d <= 0 ->
  Codec.decode_decimal (Codec.encode_decimal d) = ok d.
Proof.
  intros Hexp. unfold Codec.encode_decimal.
  replace (0 <? Objects.expo d) with false by (symmetry; apply Z.ltb_ge; lia).
  set (k := Z.to_nat (- Objects.expo d)).
  set (ds := Codec.digits_of (Z.to_N (Z.abs (Objects.coeff d)))).
  set (padded := Codec.zeros (S k - String.length ds) +:+ ds).
  set (cut := (String.length padded - k)%nat).
  destruct (digits_of_value (Z.to_N (Z.abs (Objects.coeff d))))
    as (Hds & d0 & Hd0 & Hv0). fold ds in Hds, Hd0.
  destruct (uint_of_string_zeros (S k - String.length ds) ds d0 Hd0)
    as (d1 & Hd1 & Hv1). fold padded in Hd1.
  assert (Hpd : Codec.all_chars Codec.is_digit padded = true).
  { unfold padded. rewrite all_chars_app, zeros_digits, Hds. reflexivity. }
  assert (Hplen : (S k <= String.length padded)%nat).
  { unfold padded. rewrite str_length_app, zeros_length. lia. }
  assert (Hsplit : Codec.str_take cut padded +:+ Codec.str_drop cut padded = padded)
    by apply str_take_drop.
  assert (Hfl : String.length (Codec.str_drop cut padded) = k).
  { rewrite str_drop_length. unfold cut. lia. }
  set (ip := Codec.str_take cut padded) in *.
  set (fp := Codec.str_drop cut padded) in *.
  assert (Hparts : Codec.all_chars Codec.is_digit ip = true
                   /\ Codec.all_chars Codec.is_digit fp = true).
  { rewrite <- Hsplit, all_chars_app in Hpd. apply andb_true_iff. exact Hpd. }
  destruct Hparts as [Hipd Hfpd].
  assert (Hipne : exists c ip', ip = String c ip').
  { destruct ip as [|c ip']; [|eauto]. exfalso.
    rewrite str_app_nil_l in Hsplit. rewrite Hsplit in Hfl. lia. }
  destruct Hipne as (c & ip' & Hip).
  assert (Hc : Ascii.eqb c "-" = false).
  { rewrite Hip in Hipd. cbn [Codec.all_chars] in Hipd.
    apply andb_true_iff in Hipd as [Hcd _].
    apply (is_digit_not_punct c Hcd). }
  set (tail := match k with O => "" | S _ => String "." fp end).
  assert (Htail : tail = match fp with EmptyString => "" | _ => String "." fp end).
  { unfold tail. destruct k, fp; try reflexivity; simpl in Hfl; lia. }
  assert (Hbody : Objects.split_dot (ip +:+ tail)
                  = (String c ip',
                     match fp with EmptyString => None | _ => Some fp end)).
  { rewrite Htail, <- Hip. destruct (split_dot_digits ip Hipd) as [H1 H2].
    destruct fp; [rewrite str_app_nil_r; exact H1|apply H2]. }
  assert (Hminus : Codec.optional_minus
                     ((if Objects.coeff d <? 0 then "-" else "") +:+ ip +:+ tail)
                   = (Objects.coeff d <? 0, ip +:+ tail)).
  { destruct (Objects.coeff d <? 0); [reflexivity|].
    rewrite str_app_nil_l, Hip, str_app_cons. cbn [Codec.optional_minus].
    rewrite Hc. reflexivity. }
  rewrite (decode_decimal_parts _ _ _ _ _ _ Hminus Hbody).
  rewrite <- Hip, Hsplit, Hd1, Hfl, Hv1, Hv0. unfold ok. f_equal.
  destruct d as [co ex]. cbn [Objects.coeff Objects.expo] in *.
  f_equal.
  - destruct (Z.ltb_spec co 0); rewrite Z2N.id; lia.
  - unfold k. rewrite Z2Nat.id; lia.
Qed.

Lemma decode_decimal_grammar (tok : string) :
  if Codec.is_decimal_token tok
  then exists d, Codec.decode_decimal tok = ok d
  else Codec.decode_decimal tok = raise DecodeError.
Proof.
  unfold Codec.is_decimal_token, Codec.decode_decimal.
  destruct (Codec.optional_minus tok) as [neg body]. cbn [snd].
  destruct (Objects.split_dot body) as [ip fp].
  destruct ip as [|c ip']; [reflexivity|]. rewrite digits1_cons.
  destruct fp as [[|c2 f']|].
  - rewrite andb_false_r. reflexivity.
  - rewrite digits1_cons, <- all_chars_app. cbv zeta. cbn [default]. unfold id.
    pose proof (uint_of_string_digits (String c ip' +:+ String c2 f')) as H.
    destruct (Codec.all_chars Codec.is_digit (String c ip' +:+ String c2 f')).
    + destruct H as [n ->]. eauto.
    + rewrite H. reflexivity.
  - rewrite andb_true_r. cbv zeta. cbn [default]. rewrite str_app_nil_r.
    pose proof (uint_of_string_digits (String c ip')) as H.
    destruct (Codec.all_chars Codec.is_digit (String c ip')).
    + destruct H as [n ->]. eauto.
    + rewrite H. reflexivity.
Qed.

Lemma decode_bool_accepts (tok : string) :
  Codec.is_bool_token tok = true -> exists b, Codec.decode_bool tok = ok b.
Proof.
  unfold Codec.is_bool_token. intros H. apply orb_true_iff in H as [H|H];
    apply String.eqb_eq in H; subst tok; cbn; eauto.
Qed.

Lemma decode_enum_accepts (table : Codec.enumeration) (tok : string) :
  Codec.is_enum_token table tok = true ->
  exists name ordinal,
    Codec.decode_enum table tok = ok (Codec.VEnum table name ordinal).
Proof.
  unfold Codec.is_enum_token, Codec.decode_enum. intros H.
  assert (Hfind : exists e,
             List.find (fun entry => String.eqb (fst entry) tok) table = Some e).
  { induction table as [|e table IH]; [discriminate H|].
    cbn [existsb List.find] in *.
    destruct (String.eqb (fst e) tok); [eauto|]. auto. }
  destruct Hfind as [[name ordinal] ->]. eauto.
Qed.

Lemma decode_grammar (t : Codec.ty) (tok : string) :
  if Codec.in_grammar t tok
  then exists v, Codec.decode t tok = ok v /\ Codec.type_of v = t
  else Codec.decode t tok = raise DecodeError.
Proof.
  destruct t as [| | | | |table]; cbn [Codec.in_grammar Codec.decode].
  - destruct (Codec.is_int_token tok) eqn:H.
    + destruct (decode_int_accepts tok H) as [z ->]. cbn. eauto.
    + rewrite (decode_int_rejects tok H). reflexivity.
  - pose proof (decode_decimal_grammar tok) as H.
    destruct (Codec.is_decimal_token tok).
    + destruct H as [d ->]. cbn. eauto.
    + rewrite H. reflexivity.
  - destruct (Codec.is_bool_token tok) eqn:H.
    + destruct (decode_bool_accepts tok H) as [b ->]. cbn. eauto.
    + rewrite (decode_bool_rejects tok H). reflexivity.
  - destruct (Codec.is_str_token tok) eqn:H.
    + destruct (decode_str_accepts tok H) as [s ->]. cbn. eauto.
    + rewrite (decode_str_rejects tok H). reflexivity.
  - pose proof (decode_bytes_grammar tok) as H.
    destruct (Codec.is_bytes_token tok).
    + destruct H as [l ->]. cbn. eauto.
    + rewrite H. reflexivity.
  - destruct (Codec.is_enum_token table tok) eqn:H.
    + destruct (decode_enum_accepts table tok H) as (name & ordinal & ->). eauto.
    + apply decode_enum_rejects. exact H.
Qed.

(** C2: for every value representable in a supported codec type (signed
    integers, fixed-point decimals, booleans, quoted strings, byte buffers
    in either wire form, enumeration members), decoding its encoding at its
    type gives the value back; a token is decoded successfully exactly when
    it matches the grammar of the expected type, so every token outside the
    grammar fails, the failure is always [DecodeError], and the same token
    and type always give the same result. *)
Theorem codec_round_trip_and_rejection :
  (forall form v,
      Codec.representable v ->
      Codec.decode (Codec.type_of v) (Codec.encode form v) = ok v)
  /\ (forall t tok,
         Codec.in_grammar t tok = false ->
         Codec.decode t tok = raise DecodeError)
  /\ (forall t tok,
         Codec.in_grammar t tok = true ->
         exists v, Codec.decode t tok = ok v /\ Codec.type_of v = t)
  /\ (forall t tok e, Codec.decode t tok = raise e -> e = DecodeError)
  /\ (forall t tok r1 r2,
         Codec.decode t tok = r1 -> Codec.decode t tok = r2 -> r1 = r2).
Proof.
  split; [|split; [|split; [|split]]].
  - intros form v Hv.
    destruct v as [z|d|b|s|l|table name ordinal];
      cbn [Codec.type_of Codec.encode Codec.decode Codec.representable] in *.
    + rewrite decode_int_encode_int. reflexivity.
    + rewrite decode_decimal_encode_decimal by exact Hv. reflexivity.
    + destruct b; reflexivity.
    + rewrite decode_str_encode_str. reflexivity.
    + rewrite decode_bytes_encode_bytes by exact Hv. reflexivity.
    + destruct Hv as [Hnd Hin]. apply decode_enum_member; assumption.
  - intros t tok H. pose proof (decode_grammar t tok) as G.
    rewrite H in G. exact G.
  - intros t tok H. pose proof (decode_grammar t tok) as G.
    rewrite H in G. exact G.
  - intros t tok e H. pose proof (decode_grammar t tok) as G.
    destruct (Codec.in_grammar t tok).
    + destruct G as (v & Hv & _). rewrite Hv in H. discriminate H.
    + rewrite G in H. injection H as <-. reflexivity.
  - intros t tok r1 r2 <- <-. reflexivity.
Qed.

(** ** The definitions at work *)

Example two_calls_in_flight :
  let w := CommandClient.world_run Demo.answer CommandClient.world0
             [CommandClient.Call Demo.get_load;
              CommandClient.Call Demo.get_temperature] in
  CommandClient.written (CommandClient.client w)
  = [CommandClient.Connect; CommandClient.Login;
     CommandClient.Write Demo.get_load]
  /\ CommandClient.outstanding w = [Demo.get_load]
  /\ CommandClient.queue (CommandClient.client w)
     = [Demo.get_load; Demo.get_temperature].
Proof. repeat split; reflexivity. Qed.

Example two_calls_resolved :
  let w := CommandClient.world_run Demo.answer CommandClient.world0
             [CommandClient.Call Demo.get_load;
              CommandClient.Call Demo.get_temperature;
              CommandClient.Deliver; CommandClient.Deliver] in
  CommandClient.resolved (CommandClient.client w)
  = [ (1%nat, CommandClient.Succeeded (Demo.answer Demo.get_load));
      (2%nat, CommandClient.Succeeded (Demo.answer Demo.get_temperature)) ]
  /\ CommandClient.queue (CommandClient.client w) = [].
Proof. split; reflexivity. Qed.

Example drop_with_two_queued :
  let c := CommandClient.run CommandClient.initial
             [CommandClient.Invoke Demo.get_load;
              CommandClient.Invoke Demo.get_temperature;
              CommandClient.ConnectionDropped] in
  CommandClient.resolved c
  = [ (1%nat, CommandClient.Failed ConnectionLostError);
      (2%nat, CommandClient.Failed ConnectionLostError) ]
  /\ CommandClient.connection c = CommandClient.Closed.
Proof. split; reflexivity. Qed.

Example decimal_tokens :
  Codec.encode Codec.HexPairs
    (Codec.VDecimal {| Objects.coeff := -5; Objects.expo := -3 |}) = "-0.005"
  /\ Codec.decode Codec.TDecimal "21.50"
     = ok (Codec.VDecimal {| Objects.coeff := 2150; Objects.expo := -2 |})
  /\ Codec.decode Codec.TDecimal "1.2.3" = raise DecodeError
  /\ Codec.decode Codec.TInt "12a" = raise DecodeError.
Proof. repeat split; reflexivity. Qed.

Example byte_buffer_tokens :
  Codec.encode Codec.HexPairs (Codec.VBytes [0; 255; 16]) = "{00,FF,10}"
  /\ Codec.encode Codec.DecimalList (Codec.VBytes [0; 255; 16]) = "[0,255,16]"
  /\ Codec.decode Codec.TBytes "{00,ff,10}" = ok (Codec.VBytes [0; 255; 16])
  /\ Codec.decode Codec.TBytes "[256]" = raise DecodeError
  /\ Codec.decode Codec.TBytes "{}" = ok (Codec.VBytes []).
Proof. repeat split; reflexivity. Qed.

Example packed_color :
  RGBLoad.parse_get_color_response
    {| RGBLoad.result := "16711935"; RGBLoad.args := [] |}
  = ok [0; 255; 0; 255]
  /\ RGBLoad.parse_get_color_response
       {| RGBLoad.result := "-2"; RGBLoad.args := [] |}
     = ok [255; 255; 255; 254].
Proof. split; reflexivity. Qed.

(** * Further properties of the code *)

(** ** The client object *)

Lemma getitem_loop_ok_inv (cs : list Registry.Controller) (vid : Z)
    (o : Objects.SystemObject) :
  Registry.getitem_loop cs vid = ok o ->
  Exists (fun c => Registry.controller_contains c vid = true) cs.
Proof.
  induction cs as [|c cs IH]; simpl; [discriminate|].
  destruct (Registry.controller_contains c vid) eqn:Hc; intros H.
  - apply Exists_cons_hd. exact Hc.
  - apply Exists_cons_tl. auto.
Qed.

Lemma existsb_Exists_iff {A} (f : A -> bool) (l : list A) :
  existsb f l = true <-> Exists (fun a => f a = true) l.
Proof.
  split; [apply existsb_Exists|].
  induction 1 as [a l Ha|a l _ IH]; simpl.
  - rewrite Ha. reflexivity.
  - rewrite IH. apply orb_true_r.
Qed.

(** X1: on one client the three lookups agree: [vid in vantage] is true
    exactly when [vantage[vid]] returns an object, and exactly when
    [vantage.get(vid)] returns an object rather than [None]; [get] never
    raises, and the only exception [vantage[vid]] raises is
    [KeyError(vid)]. *)
Theorem vantage_lookups_agree (self : Registry.Vantage) (vid : Z) :
  (fst (Registry.__contains__ vid self) = true <->
   exists o, fst (Registry.__getitem__ vid self) = ok o)
  /\ (forall o,
         fst (Registry.__getitem__ vid self) = ok o <->
         fst (Registry.get vid self) = ok (Some o))
  /\ (fst (Registry.__contains__ vid self) = false <->
      fst (Registry.get vid self) = ok None)
  /\ (exists r, fst (Registry.get vid self) = ok r)
  /\ (forall e, fst (Registry.__getitem__ vid self) = raise e ->
                e = KeyErrorId vid).
Proof.
  unfold Registry.__contains__, Registry.get, Registry.__getitem__.
  cbn [fst].
  set (known := existsb
                  (fun controller => Registry.controller_contains controller vid)
                  (Registry.controllers self)).
  destruct (Registry.getitem_loop (Registry.controllers self) vid)
    as [e|o] eqn:Hg.
  - assert (Hnone : ~ Exists
              (fun c => Registry.controller_contains c vid = true)
              (Registry.controllers self)).
    { intros Hex. destruct (getitem_loop_some _ _ Hex) as (i & c & o & _ & _ & _ & Hok).
      rewrite Hok in Hg. discriminate Hg. }
    assert (Hknown : known = false).
    { apply not_true_is_false. intros Hb. apply Hnone.
      apply existsb_Exists_iff. exact Hb. }
    assert (He : e = KeyErrorId vid).
    { assert (Hall : Forall (fun c => Registry.controller_contains c vid = false)
                       (Registry.controllers self)).
      { apply Forall_forall. intros c Hc.
        destruct (Registry.controller_contains c vid) eqn:E; [|reflexivity].
        exfalso. apply Hnone. apply Exists_exists. eauto. }
      rewrite (getitem_loop_none _ _ Hall) in Hg. injection Hg as <-. reflexivity. }
    subst e. cbn [fst]. rewrite Hknown.
    split; [|split; [|split; [|split]]].
    + split; [discriminate|]. intros (o & Ho). discriminate Ho.
    + intros o. split; discriminate.
    + split; reflexivity.
    + eauto.
    + intros e He. injection He as <-. reflexivity.
  - pose proof (getitem_loop_ok_inv _ _ _ Hg) as Hex.
    assert (Hknown : known = true) by (apply existsb_Exists_iff; exact Hex).
    cbn [fst]. rewrite Hknown.
    split; [|split; [|split; [|split]]].
    + split; eauto.
    + intros o'. split; intros Ho; injection Ho as <-; reflexivity.
    + split; discriminate.
    + eauto.
    + discriminate.
Qed.

Lemma controller_contains_false (c : Registry.Controller) (vid : Z) :
  Registry.controller_contains c vid = false <-> Registry.items c !! vid = None.
Proof.
  unfold Registry.controller_contains. rewrite bool_decide_eq_false.
  rewrite <- eq_None_not_Some. reflexivity.
Qed.

Lemma getitem_loop_first (cs : list Registry.Controller) (vid : Z)
    (o : Objects.SystemObject) :
  Registry.getitem_loop cs vid = ok o <->
  exists i c,
    cs !! i = Some c
    /\ Registry.items c !! vid = Some o
    /\ forall j c', (j < i)%nat -> cs !! j = Some c' ->
                    Registry.items c' !! vid = None.
Proof.
  split.
  - intros Hg. pose proof (getitem_loop_ok_inv _ _ _ Hg) as Hex.
    destruct (getitem_loop_some _ _ Hex) as (i & c & o' & Hi & Ho & Hfirst & Hg').
    rewrite Hg in Hg'. injection Hg' as ->. exists i, c.
    repeat split; try assumption.
    intros j c' Hj Hc'. apply controller_contains_false. eauto.
  - revert cs. intros cs (i & c & Hi & Ho & Hfirst).
    revert i Hi Hfirst. induction cs as [|c0 cs IH]; intros i Hi Hfirst.
    + rewrite lookup_nil in Hi. discriminate Hi.
    + cbn [Registry.getitem_loop]. destruct i as [|i].
      * injection Hi as ->.
        replace (Registry.controller_contains c vid) with true
          by (symmetry; apply controller_contains_true; eauto).
        unfold Registry.controller_getitem. rewrite Ho. reflexivity.
      * replace (Registry.controller_contains c0 vid) with false
          by (symmetry; apply controller_contains_false;
              apply (Hfirst 0%nat c0); [lia|reflexivity]).
        apply (IH i); [exact Hi|].
        intros j c' Hj Hc'. apply (Hfirst (S j) c'); [lia|exact Hc'].
Qed.

(** X2: [vantage[vid]] returns the object of the first controller, in
    iteration order, whose cache holds the id: it returns [o] exactly when
    some controller holds [o] under [vid] and no controller before it holds
    the id at all.  A later controller holding the same id is never
    consulted. *)
Theorem vantage_getitem_first_holder (self : Registry.Vantage) (vid : Z)
    (o : Objects.SystemObject) :
  fst (Registry.__getitem__ vid self) = ok o <->
  exists i c,
    Registry.controllers self !! i = Some c
    /\ Registry.items c !! vid = Some o
    /\ forall j c', (j < i)%nat -> Registry.controllers self !! j = Some c' ->
                    Registry.items c' !! vid = None.
Proof. unfold Registry.__getitem__. cbn [fst]. apply getitem_loop_first. Qed.

(** X3: iterating over the client yields exactly the objects its
    controllers cache: an object is yielded if and only if some controller
    holds it under some id; so whatever [vantage[vid]] returns is also met
    while iterating, and iteration leaves the client as it was. *)
Theorem vantage_iter_yields_cached (self : Registry.Vantage) :
  (forall o,
      o ∈ fst (Registry.__iter__ self) <->
      exists c vid, c ∈ Registry.controllers self
                    /\ Registry.items c !! vid = Some o)
  /\ (forall vid o,
         fst (Registry.__getitem__ vid self) = ok o ->
         o ∈ fst (Registry.__iter__ self))
  /\ snd (Registry.__iter__ self) = self.
Proof.
  assert (Hiter : forall o,
             o ∈ fst (Registry.__iter__ self) <->
             exists c vid, c ∈ Registry.controllers self
                           /\ Registry.items c !! vid = Some o).
  { intros o. unfold Registry.__iter__, Registry.controller_iter. cbn [fst].
    rewrite list_elem_of_bind. split.
    - intros (c & Ho & Hc). apply list_elem_of_fmap in Ho as ([vid o'] & -> & Hin).
      apply elem_of_map_to_list in Hin. exists c, vid. auto.
    - intros (c & vid & Hc & Ho). exists c. split; [|exact Hc].
      apply list_elem_of_fmap. exists (vid, o). split; [reflexivity|].
      apply elem_of_map_to_list. exact Ho. }
  split; [exact Hiter|]. split; [|reflexivity].
  intros vid o Hg. apply Hiter.
  unfold Registry.__getitem__ in Hg. cbn [fst] in Hg.
  apply getitem_loop_first in Hg as (i & c & Hi & Ho & _).
  exists c, vid. split; [|exact Ho]. eapply list_elem_of_lookup_2. exact Hi.
Qed.

(** ** RGB loads *)

(** X4: what [set_rgb] sends is stable under sending it again: feeding the
    three channels it sent back into [set_rgb] produces the same request;
    and clamping keeps the order of channel values, so a larger input never
    sends a smaller channel. *)
Theorem set_rgb_resend_same (vid red green blue : Z) :
  (forall r g b,
      RGBLoad.inv_params (RGBLoad.set_rgb vid red green blue) = [r; g; b] ->
      RGBLoad.set_rgb vid r g b = RGBLoad.set_rgb vid red green blue)
  /\ (forall red' green' blue',
         red <= red' -> green <= green' -> blue <= blue' ->
         Forall2 Z.le
           (RGBLoad.inv_params (RGBLoad.set_rgb vid red green blue))
           (RGBLoad.inv_params (RGBLoad.set_rgb vid red' green' blue'))).
Proof.
  unfold RGBLoad.set_rgb, RGBLoad.clamp. cbn [RGBLoad.inv_params]. split.
  - intros r g b H. injection H as <- <- <-.
    f_equal. f_equal; [|f_equal; [|f_equal]]; lia.
  - intros red' green' blue' Hr Hg Hb.
    repeat (apply Forall2_cons; split; [lia|]). apply Forall2_nil. exact I.
Qed.

(** X5: [set_rgb_component] sends the channel's ordinal (0 to 3) and a value
    clamped into [0, 255]; [set_hsl_attribute] sends the attribute's ordinal
    and a value clamped into [0, 360] for the hue and into [0, 100] for
    saturation and lightness; a value already in range is sent as it is. *)
Theorem component_setters_clamp (vid value : Z) :
  (forall channel,
      exists v,
        RGBLoad.set_rgb_component vid channel value
        = {| RGBLoad.inv_vid := vid;
             RGBLoad.inv_method := "RGBLoad.SetRGBComponent";
             RGBLoad.inv_params := [RGBLoad.RGBChannel_value channel; v] |}
        /\ 0 <= RGBLoad.RGBChannel_value channel <= 3
        /\ 0 <= v <= 255
        /\ (0 <= value <= 255 -> v = value)
        /\ (value < 0 -> v = 0) /\ (255 < value -> v = 255))
  /\ (forall attribute,
         let top := match attribute with RGBLoad.Hue => 360 | _ => 100 end in
         exists v,
           RGBLoad.set_hsl_attribute vid attribute value
           = {| RGBLoad.inv_vid := vid;
                RGBLoad.inv_method := "RGBLoad.SetHSLAttribute";
                RGBLoad.inv_params := [RGBLoad.HSLAttribute_value attribute; v] |}
           /\ 0 <= v <= top
           /\ (0 <= value <= top -> v = value)
           /\ (value < 0 -> v = 0) /\ (top < value -> v = top)).
Proof.
  split.
  - intros channel. exists (RGBLoad.clamp value 255).
    split; [reflexivity|]. unfold RGBLoad.clamp.
    destruct channel; cbn [RGBLoad.RGBChannel_value]; lia.
  - intros attribute top.
    exists (RGBLoad.clamp value top). subst top.
    split; [destruct attribute; reflexivity|].
    unfold RGBLoad.clamp. destruct attribute; lia.
Qed.

Lemma parse_color_channel_response_ok (response : RGBLoad.InterfaceResponse)
    (channel value : Z) :
  RGBLoad.parse_color_channel_response response = ok (channel, value) <->
  Text.python_int (RGBLoad.result response) = ok value
  /\ exists arg0, RGBLoad.args response !! 0%nat = Some arg0
                  /\ Text.python_int arg0 = ok channel.
Proof.
  unfold RGBLoad.parse_color_channel_response, subscript.
  destruct (Text.python_int (RGBLoad.result response)) as [e|v]; cbn [rbind].
  - split; [discriminate|]. intros [H _]. discriminate H.
  - destruct (RGBLoad.args response !! 0%nat) as [arg0|]; cbn [of_option rbind ok raise].
    + destruct (Text.python_int arg0) as [e|ch] eqn:Hch; cbn [rbind ok].
      * split; [discriminate|]. intros (_ & a & Ha & Hp).
        injection Ha as <-. rewrite Hch in Hp. discriminate Hp.
      * split.
        -- intros H. injection H as <- <-. split; [reflexivity|]. eauto.
        -- intros (Hv & a & Ha & Hp). injection Ha as <-.
           rewrite Hch in Hp. injection Hp as <-. injection Hv as <-.
           reflexivity.
    + split; [discriminate|]. intros (_ & a & Ha & _). discriminate Ha.
Qed.

(** X6: [get_rgb] returns the number in the reply's result position, never
    the channel echoed in the first argument; it succeeds exactly when the
    result is an integer and the reply carries a first argument that is an
    integer too, although that argument is then thrown away: with an
    integer result and no argument it raises [IndexError].  [get_hsl] and
    [get_rgbw] read their replies the same way. *)
Theorem get_rgb_reads_result
    (invoke : Z -> string -> list Z -> res RGBLoad.InterfaceResponse)
    (vid channel : Z) (response : RGBLoad.InterfaceResponse) :
  (invoke vid "RGBLoad.GetRGB" [channel] = ok response ->
   (forall value,
       RGBLoad.get_rgb invoke vid channel = ok value <->
       Text.python_int (RGBLoad.result response) = ok value
       /\ exists arg0 echoed,
           RGBLoad.args response !! 0%nat = Some arg0
           /\ Text.python_int arg0 = ok echoed)
   /\ (forall value,
          Text.python_int (RGBLoad.result response) = ok value ->
          RGBLoad.args response = [] ->
          RGBLoad.get_rgb invoke vid channel = raise IndexError))
  /\ (invoke vid "RGBLoad.GetHSL" [channel] = ok response ->
      forall value,
        RGBLoad.get_hsl invoke vid channel = ok value <->
        Text.python_int (RGBLoad.result response) = ok value
        /\ exists arg0 echoed,
            RGBLoad.args response !! 0%nat = Some arg0
            /\ Text.python_int arg0 = ok echoed)
  /\ (invoke vid "RGBLoad.GetRGBW" [channel] = ok response ->
      forall value,
        RGBLoad.get_rgbw invoke vid channel = ok value <->
        Text.python_int (RGBLoad.result response) = ok value
        /\ exists arg0 echoed,
            RGBLoad.args response !! 0%nat = Some arg0
            /\ Text.python_int arg0 = ok echoed).
Proof.
  assert (Hread : forall value,
             (let! '(_, v) := RGBLoad.parse_color_channel_response response in
              ok v) = ok value <->
             Text.python_int (RGBLoad.result response) = ok value
             /\ exists arg0 echoed,
                 RGBLoad.args response !! 0%nat = Some arg0
                 /\ Text.python_int arg0 = ok echoed).
  { intros value.
    destruct (RGBLoad.parse_color_channel_response response) as [e|[ch v]] eqn:Hp;
      cbn [rbind ok].
    - split; [discriminate|]. intros (Hv & a & ch & Ha & Hc).
      assert (Hok : RGBLoad.parse_color_channel_response response
                    = ok (ch, value))
        by (apply parse_color_channel_response_ok; eauto).
      rewrite Hp in Hok. discriminate Hok.
    - apply parse_color_channel_response_ok in Hp as (Hv & a & Ha & Hc). split.
      + intros H. injection H as <-. eauto.
      + intros (Hv' & _). rewrite Hv in Hv'. injection Hv' as <-. reflexivity. }
  split; [|split].
  - intros Hinv. unfold RGBLoad.get_rgb, RGBLoad.parse_get_rgb_response.
    rewrite Hinv. cbn [rbind ok]. split; [exact Hread|].
    intros value Hv Hargs. unfold RGBLoad.parse_color_channel_response, subscript.
    rewrite Hv, Hargs. reflexivity.
  - intros Hinv. unfold RGBLoad.get_hsl, RGBLoad.parse_get_hsl_response.
    rewrite Hinv. cbn [rbind ok]. exact Hread.
  - intros Hinv. unfold RGBLoad.get_rgbw, RGBLoad.parse_get_rgbw_response.
    rewrite Hinv. cbn [rbind ok]. exact Hread.
Qed.

Lemma struct_pack_be_i_inj (x y : Z) :
  - 2 ^ 31 <= x < 2 ^ 31 -> - 2 ^ 31 <= y < 2 ^ 31 ->
  RGBLoad.struct_pack_be_i x = RGBLoad.struct_pack_be_i y -> x = y.
Proof.
  intros Hx Hy Heq.
  destruct (struct_pack_be_i_bytes x Hx) as (a0 & a1 & a2 & a3 & Ha & _ & Hsa).
  destruct (struct_pack_be_i_bytes y Hy) as (b0 & b1 & b2 & b3 & Hb & _ & Hsb).
  rewrite Ha, Hb in Heq. injection Heq as -> -> -> ->.
  rewrite Hsa in Hsb. clear -Hx Hy Hsb.
  change (2 ^ 32) with 4294967296 in Hsb. change (2 ^ 31) with 2147483648 in *.
  Z.div_mod_to_equations. lia.
Qed.

(** X7: the packed colour reply loses nothing.  For any four bytes
    (red, green, blue, white) the signed 32-bit number whose big-endian
    pattern they form is parsed back into exactly those four bytes, and
    [get_rgb_color] returns the first three; and two results in the 32-bit
    range that parse to the same tuple are the same number. *)
Theorem packed_color_unpacks (b0 b1 b2 b3 : Z) (a : list string) :
  0 <= b0 < 256 -> 0 <= b1 < 256 -> 0 <= b2 < 256 -> 0 <= b3 < 256 ->
  let u := b0 * 2 ^ 24 + b1 * 2 ^ 16 + b2 * 2 ^ 8 + b3 in
  let r := if u <? 2 ^ 31 then u else u - 2 ^ 32 in
  let response := {| RGBLoad.result := Text.str_of_int r; RGBLoad.args := a |} in
  RGBLoad.parse_get_color_response response = ok [b0; b1; b2; b3]
  /\ (forall invoke vid,
         invoke vid "RGBLoad.GetColor" [] = ok response ->
         RGBLoad.get_rgb_color invoke vid = ok [b0; b1; b2])
  /\ (forall x y,
         - 2 ^ 31 <= x < 2 ^ 31 -> - 2 ^ 31 <= y < 2 ^ 31 ->
         RGBLoad.parse_get_color_response
           {| RGBLoad.result := Text.str_of_int x; RGBLoad.args := a |}
         = RGBLoad.parse_get_color_response
             {| RGBLoad.result := Text.str_of_int y; RGBLoad.args := a |} ->
         x = y).
Proof.
  intros H0 H1 H2 H3 u r response.
  assert (Hr : - 2 ^ 31 <= r < 2 ^ 31).
  { subst r u. change (2 ^ 31) with 2147483648. change (2 ^ 32) with 4294967296.
    change (2 ^ 24) with 16777216. change (2 ^ 16) with 65536.
    change (2 ^ 8) with 256.
    destruct (Z.ltb_spec (b0 * 16777216 + b1 * 65536 + b2 * 256 + b3) 2147483648);
      lia. }
  assert (Hparse : RGBLoad.parse_get_color_response response = ok [b0; b1; b2; b3]).
  { unfold RGBLoad.parse_get_color_response, RGBLoad.parse_packed_color_response.
    subst response. cbn [RGBLoad.result]. rewrite python_int_str_of_int.
    cbn [rbind ok].
    destruct (struct_pack_be_i_bytes r Hr) as (c0 & c1 & c2 & c3 & Hc & Hb & Hs).
    rewrite Hc. rewrite !Forall_cons, Forall_nil in Hb.
    assert (Hmod : r mod 2 ^ 32 = u).
    { subst r u. change (2 ^ 31) with 2147483648. change (2 ^ 32) with 4294967296.
      change (2 ^ 24) with 16777216. change (2 ^ 16) with 65536.
      change (2 ^ 8) with 256.
      destruct (Z.ltb_spec (b0 * 16777216 + b1 * 65536 + b2 * 256 + b3) 2147483648);
        Z.div_mod_to_equations; lia. }
    rewrite Hmod in Hs. subst u.
    change (2 ^ 24) with 16777216 in Hs. change (2 ^ 16) with 65536 in Hs.
    change (2 ^ 8) with 256 in Hs.
    assert (c0 = b0 /\ c1 = b1 /\ c2 = b2 /\ c3 = b3) as (-> & -> & -> & ->) by lia.
    reflexivity. }
  split; [exact Hparse|]. split.
  - intros invoke vid Hinv. unfold RGBLoad.get_rgb_color, RGBLoad.get_color.
    rewrite Hinv. cbn [rbind ok]. rewrite Hparse. reflexivity.
  - intros x y Hx Hy.
    unfold RGBLoad.parse_get_color_response, RGBLoad.parse_packed_color_response.
    cbn [RGBLoad.result]. rewrite !python_int_str_of_int. cbn [rbind ok].
    apply struct_pack_be_i_inj; assumption.
Qed.

Lemma packed_color_unpacks_witness :
  RGBLoad.parse_get_color_response
    {| RGBLoad.result := Text.str_of_int (-16711936); RGBLoad.args := [] |}
  = ok [255; 0; 255; 0].
Proof.
  apply (packed_color_unpacks 255 0 255 0 []); lia.
Defined.

Lemma rmapM_ok {A B} (f : A -> res B) (l : list A) (r : list B) :
  rmapM f l = ok r <-> Forall2 (fun x y => f x = ok y) l r.
Proof.
  revert r. induction l as [|x l IH]; intros r; cbn [rmapM].
  - split.
    + intros H. injection H as <-. apply Forall2_nil. exact I.
    + intros H. apply Forall2_nil_inv_l in H. subst r. reflexivity.
  - destruct (f x) as [e|y] eqn:Hx; cbn [rbind].
    + split; [discriminate|]. intros H.
      apply Forall2_cons_inv_l in H as (y & r' & Hy & _ & _).
      rewrite Hx in Hy. discriminate Hy.
    + destruct (rmapM f l) as [e|ys] eqn:Hl; cbn [rbind ok].
      * split; [discriminate|]. intros H.
        apply Forall2_cons_inv_l in H as (y' & r' & _ & Hr & _).
        apply IH in Hr. discriminate Hr.
      * split.
        -- intros H. injection H as <-. apply Forall2_cons. split; [exact Hx|].
           apply IH. reflexivity.
        -- intros H. apply Forall2_cons_inv_l in H as (y' & r' & Hy & Hr & ->).
           rewrite Hx in Hy. injection Hy as <-.
           apply IH in Hr. injection Hr as <-. reflexivity.
Qed.

Lemma rmapM_raise {A B} (f : A -> res B) (l : list A) (e : exn) :
  rmapM f l = raise e <->
  exists i x,
    l !! i = Some x /\ f x = raise e
    /\ forall j y, (j < i)%nat -> l !! j = Some y -> exists v, f y = ok v.
Proof.
  induction l as [|x l IH]; cbn [rmapM].
  - split; [discriminate|]. intros (i & x & Hi & _). rewrite lookup_nil in Hi.
    discriminate Hi.
  - destruct (f x) as [e'|y] eqn:Hx; cbn [rbind].
    + split.
      * intros H. injection H as <-. exists 0%nat, x.
        repeat split; [exact Hx|]. intros j y Hj. lia.
      * intros ([|i] & x' & Hi & Hf & Hbefore).
        -- injection Hi as <-. rewrite Hx in Hf. injection Hf as ->.
           reflexivity.
        -- destruct (Hbefore 0%nat x) as [v Hv]; [lia|reflexivity|].
           rewrite Hx in Hv. discriminate Hv.
    + destruct (rmapM f l) as [e'|ys] eqn:Hl; cbn [rbind ok].
      * split.
        -- intros H. injection H as <-.
           destruct (proj1 IH eq_refl) as (i & x' & Hi & Hf & Hbefore).
           exists (S i), x'. repeat split; try assumption.
           intros [|j] y' Hj Hy'.
           ++ injection Hy' as <-. eauto.
           ++ apply (Hbefore j y'); [lia|exact Hy'].
        -- intros ([|i] & x' & Hi & Hf & Hbefore).
           ++ injection Hi as <-. rewrite Hx in Hf. discriminate Hf.
           ++ apply IH. exists i, x'. repeat split; try assumption.
              intros j y' Hj Hy'. apply (Hbefore (S j) y'); [lia|exact Hy'].
      * split; [discriminate|].
        intros ([|i] & x' & Hi & Hf & Hbefore).
        -- injection Hi as <-. rewrite Hx in Hf. discriminate Hf.
        -- assert (Hr : @inr exn (list B) ys = raise e).
           { apply IH. exists i, x'. repeat split; try assumption.
             intros j y' Hj Hy'. apply (Hbefore (S j) y'); [lia|exact Hy']. }
           discriminate Hr.
Qed.

(** X8: [get_rgbw_color] asks for the four channels in the order red,
    green, blue, white and returns their values in that order: it returns a
    tuple exactly when all four [get_rgbw] calls succeed, and the tuple has
    those four values; when a channel fails, the exception raised is that
    of the first failing channel.  [get_hsl_color] does the same with hue,
    saturation and lightness. *)
Theorem color_getters_in_channel_order
    (invoke : Z -> string -> list Z -> res RGBLoad.InterfaceResponse)
    (vid : Z) :
  (forall l,
      RGBLoad.get_rgbw_color invoke vid = ok l <->
      exists r g b w,
        l = [r; g; b; w]
        /\ RGBLoad.get_rgbw invoke vid 0 = ok r
        /\ RGBLoad.get_rgbw invoke vid 1 = ok g
        /\ RGBLoad.get_rgbw invoke vid 2 = ok b
        /\ RGBLoad.get_rgbw invoke vid 3 = ok w)
  /\ (forall e,
         RGBLoad.get_rgbw_color invoke vid = raise e <->
         exists k,
           0 <= k <= 3
           /\ RGBLoad.get_rgbw invoke vid k = raise e
           /\ forall j, 0 <= j < k ->
                        exists v, RGBLoad.get_rgbw invoke vid j = ok v)
  /\ (forall l,
         RGBLoad.get_hsl_color invoke vid = ok l <->
         exists h s li,
           l = [h; s; li]
           /\ RGBLoad.get_hsl invoke vid 0 = ok h
           /\ RGBLoad.get_hsl invoke vid 1 = ok s
           /\ RGBLoad.get_hsl invoke vid 2 = ok li).
Proof.
  split; [|split].
  - intros l. unfold RGBLoad.get_rgbw_color. rewrite rmapM_ok.
    unfold RGBLoad.RGBChannel_members. split.
    + intros H.
      apply Forall2_cons_inv_l in H as (r & l1 & Hr & H & ->).
      apply Forall2_cons_inv_l in H as (g & l2 & Hg & H & ->).
      apply Forall2_cons_inv_l in H as (b & l3 & Hb & H & ->).
      apply Forall2_cons_inv_l in H as (w & l4 & Hw & H & ->).
      apply Forall2_nil_inv_l in H as ->.
      exists r, g, b, w. auto.
    + intros (r & g & b & w & -> & Hr & Hg & Hb & Hw).
      repeat (apply Forall2_cons; split; [assumption|]).
      apply Forall2_nil. exact I.
  - intros e. unfold RGBLoad.get_rgbw_color. rewrite rmapM_raise.
    unfold RGBLoad.RGBChannel_members. split.
    + intros (i & chan & Hi & Hf & Hbefore).
      exists (RGBLoad.RGBChannel_value chan). split; [destruct chan; cbn; lia|].
      split; [exact Hf|]. intros j Hj.
      destruct i as [|[|[|[|i]]]]; cbn in Hi; try discriminate Hi;
        injection Hi as <-; cbn in Hj;
        assert (Hcase : j = 0 \/ j = 1 \/ j = 2) by lia;
        destruct Hcase as [-> | [-> | ->]]; try lia.
      all: try (apply (Hbefore 0%nat RGBLoad.Red); [lia|reflexivity]).
      all: try (apply (Hbefore 1%nat RGBLoad.Green); [lia|reflexivity]).
      all: try (apply (Hbefore 2%nat RGBLoad.Blue); [lia|reflexivity]).
    + intros (k & Hk & Hf & Hbefore).
      assert (Hcase : k = 0 \/ k = 1 \/ k = 2 \/ k = 3) by lia.
      destruct Hcase as [->|[-> | [-> | ->]]].
      * exists 0%nat, RGBLoad.Red. repeat split; [exact Hf|].
        intros j y Hj. lia.
      * exists 1%nat, RGBLoad.Green. repeat split; [exact Hf|].
        intros [|j] y Hj Hy; [|lia]. injection Hy as <-.
        apply Hbefore; cbn [RGBLoad.RGBChannel_value]; lia.
      * exists 2%nat, RGBLoad.Blue. repeat split; [exact Hf|].
        intros [|[|j]] y Hj Hy; [| |lia]; injection Hy as <-;
          apply Hbefore; cbn [RGBLoad.RGBChannel_value]; lia.
      * exists 3%nat, RGBLoad.White. repeat split; [exact Hf|].
        intros [|[|[|j]]] y Hj Hy; [| | |lia]; injection Hy as <-;
          apply Hbefore; cbn [RGBLoad.RGBChannel_value]; lia.
  - intros l. unfold RGBLoad.get_hsl_color. rewrite rmapM_ok.
    unfold RGBLoad.HSLAttribute_members. split.
    + intros H.
      apply Forall2_cons_inv_l in H as (h & l1 & Hh & H & ->).
      apply Forall2_cons_inv_l in H as (s & l2 & Hs & H & ->).
      apply Forall2_cons_inv_l in H as (li & l3 & Hl & H & ->).
      apply Forall2_nil_inv_l in H as ->.
      exists h, s, li. auto.
    + intros (h & s & li & -> & Hh & Hs & Hl).
      repeat (apply Forall2_cons; split; [assumption|]).
      apply Forall2_nil. exact I.
Qed.

(** ** Thermostat modes *)

Lemma enum_getitem_spec {E} `{Thermostat.IntEnum E}
    (Hall : forall m : E, In m Thermostat.enum_members)
    (Hinj : forall m m' : E,
        Thermostat.enum_name m = Thermostat.enum_name m' -> m = m')
    (name : string) :
  (forall m, Thermostat.enum_getitem name = ok m <-> Thermostat.enum_name m = name)
  /\ (forall e,
         Thermostat.enum_getitem name = raise e <->
         e = KeyError name /\ forall m, Thermostat.enum_name m <> name).
Proof.
  unfold Thermostat.enum_getitem.
  destruct (List.find (fun m => String.eqb (Thermostat.enum_name m) name)
              Thermostat.enum_members) as [m0|] eqn:Hf; cbn [of_option].
  - apply List.find_some in Hf as [_ Hm0]. apply String.eqb_eq in Hm0. split.
    + intros m. split.
      * intros Hm. injection Hm as <-. exact Hm0.
      * intros Hm. f_equal. apply Hinj. congruence.
    + intros e. split; [discriminate|]. intros [_ Hno]. destruct (Hno m0 Hm0).
  - split.
    + intros m. split; [discriminate|]. intros Hm.
      pose proof (List.find_none _ _ Hf m (Hall m)) as Hne. cbn beta in Hne.
      apply String.eqb_neq in Hne. contradiction.
    + intros e. split.
      * intros He. injection He as <-. split; [reflexivity|].
        intros m. apply String.eqb_neq.
        exact (List.find_none _ _ Hf m (Hall m)).
      * intros [-> _]. reflexivity.
Qed.

Lemma enum_reply_spec {E} `{Thermostat.IntEnum E}
    (Hall : forall m : E, In m Thermostat.enum_members)
    (Hinj : forall m m' : E,
        Thermostat.enum_name m = Thermostat.enum_name m' -> m = m')
    (r : res Thermostat.CommandResponse) :
  let g := (let! response := r in
            let! name := subscript (Thermostat.args response) 1 in
            Thermostat.enum_getitem name) in
  (forall m,
      g = ok m <->
      exists response,
        r = ok response
        /\ Thermostat.args response !! 1%nat = Some (Thermostat.enum_name m))
  /\ (forall e,
         g = raise e <->
         r = raise e
         \/ exists response,
             r = ok response
             /\ ((Thermostat.args response !! 1%nat = None /\ e = IndexError)
                 \/ exists tok,
                     Thermostat.args response !! 1%nat = Some tok
                     /\ e = KeyError tok
                     /\ forall m, Thermostat.enum_name m <> tok)).
Proof.
  intros g. subst g. destruct r as [e0|response]; cbn [rbind].
  - split.
    + intros m. split; [discriminate|]. intros (response & Hr & _). discriminate Hr.
    + intros e. split.
      * intros He. left. injection He as ->. reflexivity.
      * intros [He|(response & Hr & _)]; [|discriminate Hr].
        injection He as ->. reflexivity.
  - unfold subscript.
    destruct (Thermostat.args response !! 1%nat) as [tok|] eqn:Htok;
      cbn [of_option rbind ok raise].
    + destruct (enum_getitem_spec Hall Hinj tok) as [Hok Herr]. split.
      * intros m. rewrite Hok. split.
        -- intros <-. exists response. split; [reflexivity|exact Htok].
        -- intros (response' & Hr & Hm). injection Hr as <-.
           rewrite Htok in Hm. injection Hm as ->. reflexivity.
      * intros e. rewrite Herr. split.
        -- intros [-> Hno]. right. exists response. split; [reflexivity|].
           right. exists tok. auto.
        -- intros [Hr|(response' & Hr & Hcase)]; [discriminate Hr|].
           injection Hr as <-.
           destruct Hcase as [[Hnone _]|(tok' & Htok' & -> & Hno)].
           ++ rewrite Htok in Hnone. discriminate Hnone.
           ++ rewrite Htok in Htok'. injection Htok' as <-. auto.
    + split.
      * intros m. split; [discriminate|]. intros (response' & Hr & Hm).
        injection Hr as <-. rewrite Htok in Hm. discriminate Hm.
      * intros e. split.
        -- intros He. injection He as <-. right. exists response.
           split; [reflexivity|]. left. auto.
        -- intros [Hr|(response' & Hr & Hcase)]; [discriminate Hr|].
           injection Hr as <-.
           destruct Hcase as [[_ ->]|(tok' & Htok' & _)]; [reflexivity|].
           rewrite Htok in Htok'. discriminate Htok'.
Qed.

(** X9: the four mode getters decode the token in the result position,
    [args[1]], by name: [get_operation_mode], [get_fan_mode],
    [get_day_mode] and [get_hold_mode] return member [m] exactly when the
    reply's second token is the name of [m], spelled as declared.  They
    fail in three ways only: an exception of [invoke] is passed on, a reply
    with fewer than two tokens raises [IndexError], and a token that names
    no member of that enumeration (an ordinal, or another enumeration's
    name) raises [KeyError] carrying the token. *)
Theorem mode_getters_by_name
    (invoke : Z -> string -> res Thermostat.CommandResponse) (vid : Z) :
  (forall m,
      Thermostat.get_operation_mode invoke vid = ok m <->
      exists response,
        invoke vid "Thermostat.GetOperationMode" = ok response
        /\ Thermostat.args response !! 1%nat = Some (Thermostat.enum_name m))
  /\ (forall m,
         Thermostat.get_fan_mode invoke vid = ok m <->
         exists response,
           invoke vid "Thermostat.GetFanMode" = ok response
           /\ Thermostat.args response !! 1%nat = Some (Thermostat.enum_name m))
  /\ (forall m,
         Thermostat.get_day_mode invoke vid = ok m <->
         exists response,
           invoke vid "Thermostat.GetDayMode" = ok response
           /\ Thermostat.args response !! 1%nat = Some (Thermostat.enum_name m))
  /\ (forall m,
         Thermostat.get_hold_mode invoke vid = ok m <->
         exists response,
           invoke vid "Thermostat.GetHoldMode" = ok response
           /\ Thermostat.args response !! 1%nat = Some (Thermostat.enum_name m))
  /\ (forall e,
         Thermostat.get_operation_mode invoke vid = raise e <->
         invoke vid "Thermostat.GetOperationMode" = raise e
         \/ exists response,
             invoke vid "Thermostat.GetOperationMode" = ok response
             /\ ((Thermostat.args response !! 1%nat = None /\ e = IndexError)
                 \/ exists tok,
                     Thermostat.args response !! 1%nat = Some tok
                     /\ e = KeyError tok
                     /\ forall m : Thermostat.OperationMode.t,
                         Thermostat.enum_name m <> tok))
  /\ (forall e,
         Thermostat.get_fan_mode invoke vid = raise e <->
         invoke vid "Thermostat.GetFanMode" = raise e
         \/ exists response,
             invoke vid "Thermostat.GetFanMode" = ok response
             /\ ((Thermostat.args response !! 1%nat = None /\ e = IndexError)
                 \/ exists tok,
                     Thermostat.args response !! 1%nat = Some tok
                     /\ e = KeyError tok
                     /\ forall m : Thermostat.FanMode.t,
                         Thermostat.enum_name m <> tok))
  /\ (forall e,
         Thermostat.get_day_mode invoke vid = raise e <->
         invoke vid "Thermostat.GetDayMode" = raise e
         \/ exists response,
             invoke vid "Thermostat.GetDayMode" = ok response
             /\ ((Thermostat.args response !! 1%nat = None /\ e = IndexError)
                 \/ exists tok,
                     Thermostat.args response !! 1%nat = Some tok
                     /\ e = KeyError tok
                     /\ forall m : Thermostat.DayMode.t,
                         Thermostat.enum_name m <> tok))
  /\ (forall e,
         Thermostat.get_hold_mode invoke vid = raise e <->
         invoke vid "Thermostat.GetHoldMode" = raise e
         \/ exists response,
             invoke vid "Thermostat.GetHoldMode" = ok response
             /\ ((Thermostat.args response !! 1%nat = None /\ e = IndexError)
                 \/ exists tok,
                     Thermostat.args response !! 1%nat = Some tok
                     /\ e = KeyError tok
                     /\ forall m : Thermostat.HoldMode.t,
                         Thermostat.enum_name m <> tok)).
Proof.
  assert (Ho : forall m : Thermostat.OperationMode.t, In m Thermostat.enum_members)
    by (intros []; cbn; tauto).
  assert (Hf : forall m : Thermostat.FanMode.t, In m Thermostat.enum_members)
    by (intros []; cbn; tauto).
  assert (Hd : forall m : Thermostat.DayMode.t, In m Thermostat.enum_members)
    by (intros []; cbn; tauto).
  assert (Hh : forall m : Thermostat.HoldMode.t, In m Thermostat.enum_members)
    by (intros []; cbn; tauto).
  assert (Io : forall m m' : Thermostat.OperationMode.t,
             Thermostat.enum_name m = Thermostat.enum_name m' -> m = m')
    by (intros [] []; cbn; intros Heq; first [reflexivity|discriminate Heq]).
  assert (If : forall m m' : Thermostat.FanMode.t,
             Thermostat.enum_name m = Thermostat.enum_name m' -> m = m')
    by (intros [] []; cbn; intros Heq; first [reflexivity|discriminate Heq]).
  assert (Id : forall m m' : Thermostat.DayMode.t,
             Thermostat.enum_name m = Thermostat.enum_name m' -> m = m')
    by (intros [] []; cbn; intros Heq; first [reflexivity|discriminate Heq]).
  assert (Ih : forall m m' : Thermostat.HoldMode.t,
             Thermostat.enum_name m = Thermostat.enum_name m' -> m = m')
    by (intros [] []; cbn; intros Heq; first [reflexivity|discriminate Heq]).
  pose proof (enum_reply_spec Ho Io (invoke vid "Thermostat.GetOperationMode"))
    as [Ho1 Ho2].
  pose proof (enum_reply_spec Hf If (invoke vid "Thermostat.GetFanMode"))
    as [Hf1 Hf2].
  pose proof (enum_reply_spec Hd Id (invoke vid "Thermostat.GetDayMode"))
    as [Hd1 Hd2].
  pose proof (enum_reply_spec Hh Ih (invoke vid "Thermostat.GetHoldMode"))
    as [Hh1 Hh2].
  repeat split; first
    [ apply Ho1 | apply Hf1 | apply Hd1 | apply Hh1
    | apply Ho2 | apply Hf2 | apply Hd2 | apply Hh2 ].
Qed.

(** ** Status pushes *)

Lemma py_eq_refl (v : Objects.value) : Objects.py_eq v v = true.
Proof.
  destruct v; unfold Objects.py_eq; cbn [Objects.numeric];
    unfold Objects.dec_eqb;
    first [ apply Z.eqb_refl | apply String.eqb_refl
          | apply bool_decide_eq_true; reflexivity | reflexivity ].
Qed.

Lemma differs_false (cached : option Objects.value) (v : Objects.value) :
  Controller.differs cached v = false <->
  exists old, cached = Some old /\ Objects.py_eq old v = true.
Proof.
  unfold Controller.differs. destruct cached as [old|].
  - rewrite negb_false_iff. split; [eauto|].
    intros (old' & Hold & Heq). injection Hold as ->. exact Heq.
  - split; [discriminate|]. intros (old & Hold & _). discriminate Hold.
Qed.

Lemma update_state_single (obj : Objects.SystemObject) (k : string)
    (v : Objects.value) :
  Controller.update_state obj [(k, v)]
  = if Controller.differs (Objects.getattr obj k) v
    then (Objects.setattr obj k v,
          [ {| Controller.ev_vid := Objects.obj_id obj;
               Controller.ev_attrs_changed := [k] |} ])
    else (obj, []).
Proof.
  unfold Controller.update_state. cbn [Controller.update_loop].
  destruct (Controller.differs (Objects.getattr obj k) v); reflexivity.
Qed.

(** ** Variables *)

Lemma endswith_cons (c a : ascii) (s : string) :
  s <> "" ->
  GMemInterface.endswith c (String a s) = GMemInterface.endswith c s.
Proof. destruct s; [congruence|reflexivity]. Qed.

Lemma endswith_app_last (c : ascii) (s : string) :
  GMemInterface.endswith c (s +:+ String c "") = true.
Proof.
  induction s as [|a s IH].
  - rewrite str_app_nil_l. cbn. apply Ascii.eqb_refl.
  - rewrite str_app_cons, endswith_cons; [exact IH|].
    destruct s; rewrite ?str_app_nil_l, ?str_app_cons; discriminate.
Qed.

Lemma decode_int_head (c : ascii) (r : string) (z : Z) :
  Codec.decode_int (String c r) = ok z ->
  c = "-"%char \/ Codec.is_digit c = true.
Proof.
  intros Hd.
  destruct (Codec.is_int_token (String c r)) eqn:Hg.
  - unfold Codec.is_int_token, Codec.optional_minus in Hg.
    destruct (Ascii.eqb_spec c "-") as [->|Hne]; [left; reflexivity|].
    right. cbn [snd Codec.digits1 Codec.all_chars] in Hg.
    apply andb_true_iff in Hg as [Hc _]. exact Hc.
  - rewrite (decode_int_rejects _ Hg) in Hd. discriminate Hd.
Qed.

Lemma startswith_encode_int (c : ascii) (z : Z) :
  c <> "-"%char -> Codec.is_digit c = false ->
  GMemInterface.startswith c (Codec.encode_int z) = false.
Proof.
  intros Hm Hd. pose proof (decode_int_encode_int z) as Hz.
  destruct (Codec.encode_int z) as [|c' r]; [reflexivity|].
  cbn [GMemInterface.startswith].
  destruct (Ascii.eqb_spec c' c) as [->|Hne]; [|reflexivity].
  apply decode_int_head in Hz as [->|Hc]; [congruence|].
  rewrite Hc in Hd. discriminate Hd.
Qed.

Lemma decoders_raise_DecodeError (tok : string) (e : exn) :
  (Codec.decode_str tok = raise e -> e = DecodeError)
  /\ (Codec.decode_bytes tok = raise e -> e = DecodeError)
  /\ (Codec.decode_int tok = raise e -> e = DecodeError).
Proof.
  split; [|split].
  - unfold Codec.decode_str. destruct tok as [|c rest].
    + intros H. injection H as <-. reflexivity.
    + destruct (Ascii.eqb c Codec.dquote).
      * destruct (Codec.unescape rest); cbn [of_option]; [discriminate|].
        intros H. injection H as <-. reflexivity.
      * intros H. injection H as <-. reflexivity.
  - unfold Codec.decode_bytes.
    assert (Hopt : forall o : option (list Z),
               of_option DecodeError o = raise e -> e = DecodeError).
    { intros [l|]; cbn [of_option]; [discriminate|].
      intros H. injection H as <-. reflexivity. }
    destruct tok as [|c rest]; [intros H; injection H as <-; reflexivity|].
    destruct (Ascii.eqb_spec c "{") as [->|H1]; [apply Hopt|].
    destruct (Ascii.eqb_spec c "[") as [->|H2]; [apply Hopt|].
    destruct c as [[] [] [] [] [] [] [] []];
      first [ congruence | intros H; injection H as <-; reflexivity ].
  - unfold Codec.decode_int.
    destruct (NilZero.int_of_string tok); cbn; [discriminate|].
    intros H. injection H as <-. reflexivity.
Qed.

(** X11: [_parse_value] reads back what the codec writes for the three
    kinds of variable: the encoding of a string gives that string, the
    encoding of a byte buffer (in either wire form) gives those bytes, and
    the encoding of an integer gives that integer.  Whatever the token, a
    result is a string, a byte buffer or an integer, never a boolean, a
    decimal or [None] (the tokens [0] and [1] come back as integers), and
    the only exception is [DecodeError]. *)
Theorem parse_value_reads_codec :
  (forall s,
      GMemInterface._parse_value (Codec.encode_str s) = ok (Objects.VStr s))
  /\ (forall form l,
         Forall (fun b => 0 <= b < 256) l ->
         GMemInterface._parse_value (Codec.encode_bytes form l)
         = ok (Objects.VBytes l))
  /\ (forall z,
         GMemInterface._parse_value (Codec.encode_int z) = ok (Objects.VInt z))
  /\ (forall tok v,
         GMemInterface._parse_value tok = ok v ->
         (exists s, v = Objects.VStr s)
         \/ (exists l, v = Objects.VBytes l)
         \/ (exists z, v = Objects.VInt z))
  /\ (forall tok e,
         GMemInterface._parse_value tok = raise e -> e = DecodeError).
Proof.
  split; [|split; [|split; [|split]]].
  - intros s. unfold GMemInterface._parse_value.
    assert (Hw : GMemInterface.startswith Codec.dquote (Codec.encode_str s)
                 && GMemInterface.endswith Codec.dquote (Codec.encode_str s)
                 = true).
    { unfold Codec.encode_str. rewrite <- str_app_cons, endswith_app_last.
      reflexivity. }
    rewrite Hw, decode_str_encode_str. reflexivity.
  - intros form l Hl. unfold GMemInterface._parse_value.
    rewrite (decode_bytes_encode_bytes form l Hl).
    destruct form; unfold Codec.encode_bytes.
    + change "}" with (String "}" ""). rewrite <- str_app_cons.
      cbn [GMemInterface.startswith]. rewrite endswith_app_last.
      reflexivity.
    + change "]" with (String "]" ""). rewrite <- str_app_cons.
      cbn [GMemInterface.startswith]. rewrite endswith_app_last.
      reflexivity.
  - intros z. unfold GMemInterface._parse_value.
    rewrite !startswith_encode_int by (first [discriminate|reflexivity]).
    cbn [andb orb]. rewrite decode_int_encode_int. reflexivity.
  - intros tok v. unfold GMemInterface._parse_value.
    destruct (GMemInterface.startswith Codec.dquote tok
              && GMemInterface.endswith Codec.dquote tok).
    + destruct (Codec.decode_str tok) as [e|s]; cbn [rbind ok]; [discriminate|].
      intros H. injection H as <-. eauto.
    + destruct ((GMemInterface.startswith "{" tok && GMemInterface.endswith "}" tok)
                || (GMemInterface.startswith "[" tok && GMemInterface.endswith "]" tok)).
      * destruct (Codec.decode_bytes tok) as [e|l]; cbn [rbind ok]; [discriminate|].
        intros H. injection H as <-. eauto.
      * destruct (Codec.decode_int tok) as [e|z]; cbn [rbind ok]; [discriminate|].
        intros H. injection H as <-. eauto.
  - intros tok e. unfold GMemInterface._parse_value.
    destruct (decoders_raise_DecodeError tok e) as (Hs & Hb & Hi).
    destruct (GMemInterface.startswith Codec.dquote tok
              && GMemInterface.endswith Codec.dquote tok).
    + destruct (Codec.decode_str tok) as [e'|s]; cbn [rbind ok]; [|discriminate].
      intros H. apply Hs. injection H as ->. reflexivity.
    + destruct ((GMemInterface.startswith "{" tok && GMemInterface.endswith "}" tok)
                || (GMemInterface.startswith "[" tok && GMemInterface.endswith "]" tok)).
      * destruct (Codec.decode_bytes tok) as [e'|l]; cbn [rbind ok]; [|discriminate].
        intros H. apply Hb. injection H as ->. reflexivity.
      * destruct (Codec.decode_int tok) as [e'|z]; cbn [rbind ok]; [|discriminate].
        intros H. apply Hi. injection H as ->. reflexivity.
Qed.

Lemma update_property_spec (obj : Objects.SystemObject) (p : string)
    (v : Objects.value) :
  let '(obj', r) := Interface.update_property obj p v in
  ((r = None /\ obj' = obj) \/ (r = Some p /\ obj' = Objects.setattr obj p v))
  /\ (exists v', Objects.getattr obj' p = Some v' /\ Objects.py_eq v' v = true)
  /\ Objects.obj_id obj' = Objects.obj_id obj
  /\ Interface.update_property obj' p v = (obj', None).
Proof.
  unfold Interface.update_property.
  destruct (Controller.differs (Objects.getattr obj p) v) eqn:Hdiff.
  - split; [right; auto|]. split.
    + exists v. split; [apply getattr_setattr_eq|apply py_eq_refl].
    + split; [reflexivity|]. rewrite getattr_setattr_eq.
      unfold Controller.differs. rewrite py_eq_refl. reflexivity.
  - split; [left; auto|]. split.
    + apply differs_false in Hdiff. exact Hdiff.
    + split; [reflexivity|]. rewrite Hdiff. reflexivity.
Qed.

(** X13: variables.  [handle_category_status] ignores every category but
    [VARIABLE]; on [VARIABLE] it stores the parsed first argument and
    reports [value] only when the stored value changed.  [fetch_state]
    raises [ValueError] when the object has no command client; otherwise
    it reads the token at [args[1]] of the reply to [GETVARIABLE <id>],
    and it returns either [None], leaving the object untouched, or the
    one-element list [["value"]], never an empty list; the object then
    holds a value equal to the one fetched, and fetching again from a
    controller that gives the same reply returns [None]. *)
Theorem variable_updates_report_change (obj : Objects.SystemObject) :
  (forall category args,
      category <> "VARIABLE" ->
      GMemInterface.handle_category_status obj category args = ok (obj, None))
  /\ (forall args obj' changed,
         GMemInterface.handle_category_status obj "VARIABLE" args
         = ok (obj', changed) ->
         (exists tok v v',
             args !! 0%nat = Some tok
             /\ GMemInterface._parse_value tok = ok v
             /\ Objects.getattr obj' "value" = Some v'
             /\ Objects.py_eq v' v = true)
         /\ ((changed = None /\ obj' = obj) \/ changed = Some "value")
         /\ GMemInterface.handle_category_status obj' "VARIABLE" args
            = ok (obj', None))
  /\ GMemInterface.fetch_state None obj = raise ValueError
  /\ (forall command obj' r,
         GMemInterface.fetch_state (Some command) obj = ok (obj', r) ->
         (exists response tok v v',
             command "GETVARIABLE" (Objects.obj_id obj) = ok response
             /\ Thermostat.args response !! 1%nat = Some tok
             /\ GMemInterface._parse_value tok = ok v
             /\ Objects.getattr obj' "value" = Some v'
             /\ Objects.py_eq v' v = true)
         /\ ((r = None /\ obj' = obj) \/ r = Some ["value"])
         /\ GMemInterface.fetch_state (Some command) obj' = ok (obj', None)).
Proof.
  split; [|split; [|split]].
  - intros category args Hne. unfold GMemInterface.handle_category_status.
    apply String.eqb_neq in Hne. rewrite Hne. reflexivity.
  - intros args obj' changed.
    unfold GMemInterface.handle_category_status, subscript.
    rewrite String.eqb_refl.
    destruct (args !! 0%nat) as [tok|];
      cbn [of_option rbind ok raise]; [|discriminate].
    destruct (GMemInterface._parse_value tok) as [e|v] eqn:Hp;
      cbn [rbind]; [discriminate|].
    pose proof (update_property_spec obj "value" v) as Hspec.
    destruct (Interface.update_property obj "value" v) as [obj1 r1].
    destruct Hspec as (Hcase & (v' & Hv & Heq) & _ & Hagain).
    intros H. injection H as <- <-. split; [|split].
    + exists tok, v, v'.
      split; [reflexivity|]. split; [exact Hp|]. split; assumption.
    + destruct Hcase as [[-> ->]|[-> _]]; auto.
    + rewrite Hagain. reflexivity.
  - reflexivity.
  - intros command obj' r.
    unfold GMemInterface.fetch_state, GMemInterface.get_value, subscript.
    destruct (command "GETVARIABLE" (Objects.obj_id obj)) as [e|response] eqn:Hc;
      cbn [rbind]; [discriminate|].
    destruct (Thermostat.args response !! 1%nat) as [tok|] eqn:Ha;
      cbn [of_option rbind ok raise]; [|discriminate].
    destruct (GMemInterface._parse_value tok) as [e|v] eqn:Hp;
      cbn [rbind]; [discriminate|].
    unfold GMem.fetch_state.
    pose proof (update_property_spec obj "value" v) as Hspec.
    destruct (Interface.update_property obj "value" v) as [obj1 r1].
    destruct Hspec as (Hcase & (v' & Hv & Heq) & Hid & Hagain).
    assert (Hres : (let! value := (let! response := command "GETVARIABLE" (Objects.obj_id obj1) in
                                   let! arg1 := of_option IndexError (Thermostat.args response !! 1%nat) in
                                   GMemInterface._parse_value arg1) in
                    ok (GMem.fetch_state obj1 value)) = ok (obj1, None)).
    { rewrite Hid, Hc. cbn [rbind]. rewrite Ha. cbn [of_option rbind ok].
      rewrite Hp. cbn [rbind]. unfold GMem.fetch_state. rewrite Hagain.
      reflexivity. }
    destruct Hcase as [[-> ->]|[-> ->]].
    + intros H. injection H as <- <-. split; [|split].
      * exists response, tok, v, v'. auto.
      * left. auto.
      * exact Hres.
    + cbn [String.eqb Ascii.eqb Bool.eqb]. intros H. injection H as <- <-.
      split; [|split].
      * exists response, tok, v, v'. auto.
      * right. reflexivity.
      * exact Hres.
Qed.

(** ** Loads and load groups *)

Lemma filter_view_elem (c : Registry.Controller)
    (p : Objects.SystemObject -> bool) (o : Objects.SystemObject) :
  o ∈ Loads.filter_view c p <->
  (exists vid, Registry.items c !! vid = Some o) /\ p o = true.
Proof.
  unfold Loads.filter_view, Registry.controller_iter.
  rewrite list_elem_of_In, List.filter_In, <- list_elem_of_In.
  rewrite list_elem_of_fmap. split.
  - intros [([vid o'] & -> & Hin) Hp]. apply elem_of_map_to_list in Hin. eauto.
  - intros [[vid Ho] Hp]. split; [|exact Hp].
    exists (vid, o). split; [reflexivity|]. apply elem_of_map_to_list. exact Ho.
Qed.

Lemma filter_negb_length {A} (p : A -> bool) (l : list A) :
  (length (List.filter p l) + length (List.filter (fun x => negb (p x)) l)
   = length l)%nat.
Proof.
  induction l as [|x l IH]; [reflexivity|].
  cbn [List.filter]. destruct (p x); cbn [negb length]; lia.
Qed.

(** X14: [on] and [off] split the cached loads in two: a cached load is in
    exactly one of them, according to its [is_on], so their lengths add up
    to the number of cached loads; [relays], [motors] and [lights] give
    cached loads only.  (The query view of the base controller is modelled
    from the spec as a scan of the cache.) *)
Theorem loads_on_off_partition
    (is_on is_relay is_motor is_light : Objects.SystemObject -> bool)
    (self : Registry.Controller) :
  (forall load,
      load ∈ Loads.on is_on self <->
      (exists vid, Registry.items self !! vid = Some load) /\ is_on load = true)
  /\ (forall load,
         load ∈ Loads.off is_on self <->
         (exists vid, Registry.items self !! vid = Some load)
         /\ is_on load = false)
  /\ (forall load,
         (exists vid, Registry.items self !! vid = Some load) ->
         (load ∈ Loads.on is_on self /\ load ∉ Loads.off is_on self)
         \/ (load ∈ Loads.off is_on self /\ load ∉ Loads.on is_on self))
  /\ (length (Loads.on is_on self) + length (Loads.off is_on self)
      = length (Registry.controller_iter self))%nat
  /\ (forall load,
         load ∈ Loads.relays is_relay self
         \/ load ∈ Loads.motors is_motor self
         \/ load ∈ Loads.lights is_light self ->
         exists vid, Registry.items self !! vid = Some load).
Proof.
  assert (Hon : forall load,
             load ∈ Loads.on is_on self <->
             (exists vid, Registry.items self !! vid = Some load)
             /\ is_on load = true)
    by (intros load; apply filter_view_elem).
  assert (Hoff : forall load,
             load ∈ Loads.off is_on self <->
             (exists vid, Registry.items self !! vid = Some load)
             /\ is_on load = false).
  { intros load. unfold Loads.off. rewrite filter_view_elem.
    rewrite negb_true_iff. reflexivity. }
  split; [exact Hon|]. split; [exact Hoff|]. split; [|split].
  - intros load Hc. rewrite !Hon, !Hoff.
    destruct (is_on load); [left|right]; split; try (split; auto; fail);
      intros [_ H]; discriminate H.
  - apply filter_negb_length.
  - intros load. unfold Loads.relays, Loads.motors, Loads.lights.
    rewrite !filter_view_elem. intros [[H _]|[[H _]|[H _]]]; exact H.
Qed.

(** X15: [LoadGroupsController.loads(vid)] raises [KeyError(vid)] when the
    controller caches no load group under [vid]; otherwise it gives
    exactly the loads cached by the loads controller whose id is in the
    group's table.  An id of the table that no cached load carries adds
    nothing and raises nothing, and a group with an empty table gives no
    load.  (The query view of the base controller is modelled from the
    spec as a scan of the cache.) *)
Theorem load_group_loads_members
    (load_table : Objects.SystemObject -> list Z)
    (self vantage_loads : Registry.Controller) (vid : Z) :
  (Registry.items self !! vid = None ->
   Loads.loads load_table self vantage_loads vid = raise (KeyErrorId vid))
  /\ (forall load_group,
         Registry.items self !! vid = Some load_group ->
         exists found,
           Loads.loads load_table self vantage_loads vid = ok found
           /\ (forall load,
                  load ∈ found <->
                  (exists k, Registry.items vantage_loads !! k = Some load)
                  /\ Objects.obj_id load ∈ load_table load_group)
           /\ (load_table load_group = [] -> found = [])
           /\ (length found <= length (Registry.controller_iter vantage_loads))%nat).
Proof.
  unfold Loads.loads, Registry.controller_getitem. split.
  - intros ->. reflexivity.
  - intros load_group ->. cbn [of_option rbind ok]. eexists.
    split; [reflexivity|]. split; [|split].
    + intros load. rewrite filter_view_elem, bool_decide_eq_true. reflexivity.
    + intros Hempty. unfold Loads.filter_view.
      induction (Registry.controller_iter vantage_loads) as [|x l IH];
        [reflexivity|].
      cbn [List.filter]. case_bool_decide as Hin; [|exact IH].
      rewrite Hempty in Hin. apply elem_of_nil in Hin. destruct Hin.
    + unfold Loads.filter_view. apply List.filter_length_le.
Qed.

(** ** Thermostat temperatures *)

Lemma Decimal_of_str_sign (s : string) :
  match s with
  | String "-" r => (true, r)
  | String "+" r => (false, r)
  | _ => (false, s)
  end
  = match s with
    | String c r =>
        if Ascii.eqb c "-" then (true, r)
        else if Ascii.eqb c "+" then (false, r) else (false, s)
    | EmptyString => (false, s)
    end.
Proof.
  destruct s as [|c r]; [reflexivity|].
  destruct c as [[] [] [] [] [] [] [] []]; reflexivity.
Qed.

Lemma Decimal_of_str_raises (tok : string) (e : exn) :
  Objects.Decimal_of_str tok = raise e -> e = InvalidOperation.
Proof.
  unfold Objects.Decimal_of_str.
  destruct (match tok with
            | String "-" r => (true, r)
            | String "+" r => (false, r)
            | _ => (false, tok)
            end) as [neg body].
  destruct (Objects.split_dot body) as [ip fp].
  destruct (String.eqb (ip +:+ default "" fp) "").
  - intros H. injection H as <-. reflexivity.
  - destruct (NilEmpty.uint_of_string (ip +:+ default "" fp)); [discriminate|].
    intros H. injection H as <-. reflexivity.
Qed.

Lemma Decimal_of_str_decode_decimal (tok : string) (d : Objects.PyDecimal) :
  Codec.decode_decimal tok = ok d -> Objects.Decimal_of_str tok = ok d.
Proof.
  unfold Codec.decode_decimal, Objects.Decimal_of_str, Codec.optional_minus.
  rewrite Decimal_of_str_sign.
  destruct tok as [|c r]; [discriminate|].
  destruct (Ascii.eqb c "-") eqn:Hm.
  - destruct (Objects.split_dot r) as [ip fp].
    destruct ip as [|c' ip']; [discriminate|].
    destruct fp as [[|c2 f']|]; [discriminate| |]; cbv zeta;
      rewrite str_app_cons; cbn [String.eqb];
      match goal with
      | |- context [NilEmpty.uint_of_string ?s] =>
          destruct (NilEmpty.uint_of_string s)
      end; first [discriminate | intros H; exact H].
  - destruct (Ascii.eqb_spec c "+") as [->|Hp].
    + cbn [Objects.split_dot].
      replace (Ascii.eqb "+" ".") with false by reflexivity.
      destruct (Objects.split_dot r) as [a b].
      destruct b as [[|c2 f']|]; [discriminate| |]; cbv zeta;
        rewrite str_app_cons; cbn [NilEmpty.uint_of_string];
        match goal with
        | |- context [NilEmpty.uint_of_string ?s] =>
            destruct (NilEmpty.uint_of_string s)
        end; discriminate.
    + destruct (Objects.split_dot (String c r)) as [ip fp].
      destruct ip as [|c' ip']; [discriminate|].
      destruct fp as [[|c2 f']|]; [discriminate| |]; cbv zeta;
        rewrite str_app_cons; cbn [String.eqb];
      match goal with
      | |- context [NilEmpty.uint_of_string ?s] =>
          destruct (NilEmpty.uint_of_string s)
      end; first [discriminate | intros H; exact H].
Qed.

(** X16: the five temperature getters ([get_indoor_temperature],
    [get_outdoor_temperature], [get_heat_set_point], [get_cool_set_point]
    and [get_auto_set_point]) read the token in the result position,
    [args[1]], as a decimal.  When that token is the fixed-point text of a
    decimal, as the codec writes it, the getter returns that decimal, with
    its digits and exponent kept.  A reply with fewer than two tokens
    raises [IndexError]; and a getter raises nothing but what [invoke]
    raised, [IndexError] and [InvalidOperation]. *)
Theorem temperature_getters_read_decimal
    (invoke : Z -> string -> res Thermostat.CommandResponse) (vid : Z) :
  Forall
    (fun '(getter, method) =>
       (forall response d,
           invoke vid method = ok response ->
           Thermostat.args response !! 1%nat = Some (Codec.encode_decimal d) ->
           Objects.expo d <= 0 ->
           getter invoke vid = ok d)
       /\ (forall response,
              invoke vid method = ok response ->
              Thermostat.args response !! 1%nat = None ->
              getter invoke vid = raise IndexError)
       /\ (forall e,
              getter invoke vid = raise e ->
              invoke vid method = raise e
              \/ e = IndexError \/ e = InvalidOperation))
    [ (Thermostat.get_indoor_temperature, "Thermostat.GetIndoorTemperature");
      (Thermostat.get_outdoor_temperature, "Thermostat.GetOutdoorTemperature");
      (Thermostat.get_heat_set_point, "Thermostat.GetHeatSetPoint");
      (Thermostat.get_cool_set_point, "Thermostat.GetCoolSetPoint");
      (Thermostat.get_auto_set_point, "Thermostat.GetAutoSetPoint") ].
Proof.
  assert (Hread : forall r : res Thermostat.CommandResponse,
             let g := (let! response := r in
                       let! temp := subscript (Thermostat.args response) 1 in
                       Objects.Decimal_of_str temp) in
             (forall response d,
                 r = ok response ->
                 Thermostat.args response !! 1%nat = Some (Codec.encode_decimal d) ->
                 Objects.expo d <= 0 ->
                 g = ok d)
             /\ (forall response,
                    r = ok response ->
                    Thermostat.args response !! 1%nat = None ->
                    g = raise IndexError)
             /\ (forall e,
                    g = raise e ->
                    r = raise e \/ e = IndexError \/ e = InvalidOperation)).
  { intros r g. subst g. split; [|split].
    - intros response d -> Htok Hexp. cbn [rbind ok]. unfold subscript.
      rewrite Htok. cbn [of_option rbind ok].
      apply Decimal_of_str_decode_decimal, decode_decimal_encode_decimal.
      exact Hexp.
    - intros response -> Hnone. cbn [rbind ok]. unfold subscript.
      rewrite Hnone. reflexivity.
    - intros e. destruct r as [e0|response]; cbn [rbind].
      + intros H. injection H as ->. left. reflexivity.
      + unfold subscript.
        destruct (Thermostat.args response !! 1%nat) as [tok|];
          cbn [of_option rbind ok raise].
        * intros H. apply Decimal_of_str_raises in H. auto.
        * intros H. injection H as <-. auto. }
  repeat (apply List.Forall_cons; [apply Hread|]). apply List.Forall_nil.
Qed.

(** ** RGB loads: floating-point levels *)

Lemma level_spec (hi : Z) (x : RGBLoadFloats.number) :
  0 <= hi ->
  RGBLoadFloats.level hi x
  = match x with
    | RGBLoadFloats.NInt z => inr (RGBLoad.clamp z hi)
    | RGBLoadFloats.NFloat n d => inr (RGBLoad.clamp (Z.quot n (Z.pos d)) hi)
    | RGBLoadFloats.NInf negative => inr (if negative then 0 else hi)
    | RGBLoadFloats.NNaN => inl RGBLoadFloats.IntValueError
    end.
Proof.
  intros Hhi.
  unfold RGBLoadFloats.level, RGBLoadFloats.py_min, RGBLoadFloats.py_max,
    RGBLoad.clamp.
  destruct x as [z|n d|[]|]; cbn [RGBLoadFloats.lt andb negb].
  - destruct (Z.ltb_spec hi z); cbn [RGBLoadFloats.lt];
      match goal with |- context [?a <? 0] => destruct (Z.ltb_spec a 0) end;
      cbn [RGBLoadFloats.py_int]; f_equal; lia.
  - destruct (Z.ltb_spec (hi * Z.pos d) n) as [Hbig|Hsmall];
      cbn [RGBLoadFloats.lt].
    + destruct (Z.ltb_spec hi 0); [lia|]. cbn [RGBLoadFloats.py_int]. f_equal.
      assert (hi <= Z.quot n (Z.pos d)).
      { rewrite Z.quot_div_nonneg by lia.
        apply Z.div_le_lower_bound; lia. }
      lia.
    + rewrite Z.mul_0_l. destruct (Z.ltb_spec n 0) as [Hneg|Hpos];
        cbn [RGBLoadFloats.py_int]; f_equal.
      * assert (Z.quot n (Z.pos d) <= 0).
        { replace n with (- - n) by lia. rewrite Z.quot_opp_l by lia.
          assert (0 <= Z.quot (- n) (Z.pos d)) by (apply Z.quot_pos; lia).
          lia. }
        lia.
      * assert (0 <= Z.quot n (Z.pos d) <= hi).
        { rewrite Z.quot_div_nonneg by lia. split.
          - apply Z.div_pos; lia.
          - apply Z.div_le_upper_bound; lia. }
        lia.
  - destruct (Z.ltb_spec 0 0); [lia|]. reflexivity.
  - destruct (Z.ltb_spec hi 0); [lia|]. reflexivity.
  - reflexivity.
Qed.

Lemma level_cases (hi : Z) (x : RGBLoadFloats.number) :
  0 <= hi ->
  (x = RGBLoadFloats.NNaN
   /\ RGBLoadFloats.level hi x = inl RGBLoadFloats.IntValueError)
  \/ (x <> RGBLoadFloats.NNaN
      /\ exists v,
          RGBLoadFloats.level hi x = inr v
          /\ 0 <= v <= hi
          /\ (forall z, x = RGBLoadFloats.NInt z -> v = RGBLoad.clamp z hi)
          /\ (forall n d, x = RGBLoadFloats.NFloat n d ->
                          v = RGBLoad.clamp (Z.quot n (Z.pos d)) hi)
          /\ (x = RGBLoadFloats.NInf false -> v = hi)
          /\ (x = RGBLoadFloats.NInf true -> v = 0)).
Proof.
  intros Hhi. rewrite (level_spec hi x Hhi).
  destruct x as [z|n d|[]|].
  - right. split; [discriminate|]. eexists. split; [reflexivity|].
    split; [unfold RGBLoad.clamp; lia|].
    repeat split; intros; try discriminate; congruence.
  - right. split; [discriminate|]. eexists. split; [reflexivity|].
    split; [unfold RGBLoad.clamp; lia|].
    repeat split; intros; try discriminate; congruence.
  - right. split; [discriminate|]. eexists. split; [reflexivity|].
    split; [lia|]. repeat split; intros; try discriminate; reflexivity.
  - right. split; [discriminate|]. eexists. split; [reflexivity|].
    split; [lia|]. repeat split; intros; try discriminate; reflexivity.
  - left. auto.
Qed.

(** X17: [set_rgbw], [dissolve_rgb] and [dissolve_hsl] send whole numbers
    within bounds whatever numbers they are given: each level sent lies in
    [0, 255] (hue in [0, 360], saturation and lightness in [0, 100]); an
    [int] is clamped, a finite [float] is cut to its integer part and
    clamped, plus infinity gives the upper bound and minus infinity 0;
    the rate of a dissolve is passed on untouched.  The only failure is
    NaN for a level, which raises [ValueError] from [int]; an
    [OverflowError] never arises. *)
Theorem float_setters_send_levels (vid : Z) :
  let sent (hi : Z) (x : RGBLoadFloats.number) (v : Z) :=
    0 <= v <= hi
    /\ (forall z, x = RGBLoadFloats.NInt z -> v = RGBLoad.clamp z hi)
    /\ (forall n d, x = RGBLoadFloats.NFloat n d ->
                    v = RGBLoad.clamp (Z.quot n (Z.pos d)) hi)
    /\ (x = RGBLoadFloats.NInf false -> v = hi)
    /\ (x = RGBLoadFloats.NInf true -> v = 0) in
  (forall red green blue white,
      (In RGBLoadFloats.NNaN [red; green; blue; white]
       /\ RGBLoadFloats.set_rgbw vid red green blue white
          = inl RGBLoadFloats.IntValueError)
      \/ exists r g b w,
          RGBLoadFloats.set_rgbw vid red green blue white
          = inr {| RGBLoadFloats.inv_vid := vid;
                   RGBLoadFloats.inv_method := "RGBLoad.SetRGBW";
                   RGBLoadFloats.inv_params :=
                     [RGBLoadFloats.NInt r; RGBLoadFloats.NInt g;
                      RGBLoadFloats.NInt b; RGBLoadFloats.NInt w] |}
          /\ sent 255 red r /\ sent 255 green g
          /\ sent 255 blue b /\ sent 255 white w)
  /\ (forall red green blue rate,
         (In RGBLoadFloats.NNaN [red; green; blue]
          /\ RGBLoadFloats.dissolve_rgb vid red green blue rate
             = inl RGBLoadFloats.IntValueError)
         \/ exists r g b,
             RGBLoadFloats.dissolve_rgb vid red green blue rate
             = inr {| RGBLoadFloats.inv_vid := vid;
                      RGBLoadFloats.inv_method := "RGBLoad.DissolveRGB";
                      RGBLoadFloats.inv_params :=
                        [RGBLoadFloats.NInt r; RGBLoadFloats.NInt g;
                         RGBLoadFloats.NInt b; rate] |}
             /\ sent 255 red r /\ sent 255 green g /\ sent 255 blue b)
  /\ (forall hue saturation lightness rate,
         (In RGBLoadFloats.NNaN [hue; saturation; lightness]
          /\ RGBLoadFloats.dissolve_hsl vid hue saturation lightness rate
             = inl RGBLoadFloats.IntValueError)
         \/ exists h s l,
             RGBLoadFloats.dissolve_hsl vid hue saturation lightness rate
             = inr {| RGBLoadFloats.inv_vid := vid;
                      RGBLoadFloats.inv_method := "RGBLoad.DissolveHSL";
                      RGBLoadFloats.inv_params :=
                        [RGBLoadFloats.NInt h; RGBLoadFloats.NInt s;
                         RGBLoadFloats.NInt l; rate] |}
             /\ sent 360 hue h /\ sent 100 saturation s
             /\ sent 100 lightness l).
Proof.
  intros sent. subst sent. cbv beta.
  split; [|split].
  - intros red green blue white.
    unfold RGBLoadFloats.set_rgbw.
    destruct (level_cases 255 red ltac:(lia)) as [[-> ->]|(_ & r & -> & Hr)];
      [left; split; [cbn; tauto|reflexivity]|].
    destruct (level_cases 255 green ltac:(lia)) as [[-> ->]|(_ & g & -> & Hg)];
      [left; split; [cbn; tauto|reflexivity]|].
    destruct (level_cases 255 blue ltac:(lia)) as [[-> ->]|(_ & b & -> & Hb)];
      [left; split; [cbn; tauto|reflexivity]|].
    destruct (level_cases 255 white ltac:(lia)) as [[-> ->]|(_ & w & -> & Hw)];
      [left; split; [cbn; tauto|reflexivity]|].
    right. exists r, g, b, w. cbn [RGBLoadFloats.bind]. auto.
  - intros red green blue rate.
    unfold RGBLoadFloats.dissolve_rgb.
    destruct (level_cases 255 red ltac:(lia)) as [[-> ->]|(_ & r & -> & Hr)];
      [left; split; [cbn; tauto|reflexivity]|].
    destruct (level_cases 255 green ltac:(lia)) as [[-> ->]|(_ & g & -> & Hg)];
      [left; split; [cbn; tauto|reflexivity]|].
    destruct (level_cases 255 blue ltac:(lia)) as [[-> ->]|(_ & b & -> & Hb)];
      [left; split; [cbn; tauto|reflexivity]|].
    right. exists r, g, b. cbn [RGBLoadFloats.bind]. auto.
  - intros hue saturation lightness rate.
    unfold RGBLoadFloats.dissolve_hsl.
    destruct (level_cases 360 hue ltac:(lia)) as [[-> ->]|(_ & h & -> & Hh)];
      [left; split; [cbn; tauto|reflexivity]|].
    destruct (level_cases 100 saturation ltac:(lia))
      as [[-> ->]|(_ & s & -> & Hs)];
      [left; split; [cbn; tauto|reflexivity]|].
    destruct (level_cases 100 lightness ltac:(lia))
      as [[-> ->]|(_ & l & -> & Hl)];
      [left; split; [cbn; tauto|reflexivity]|].
    right. exists h, s, l. cbn [RGBLoadFloats.bind]. auto.
Qed.

Lemma clamp_number_spec (hi : Z) (x : RGBLoadFloats.number) :
  0 <= hi ->
  RGBLoadFloats.py_max (RGBLoadFloats.py_min x (RGBLoadFloats.NInt hi))
    (RGBLoadFloats.NInt 0)
  = match x with
    | RGBLoadFloats.NInt z => RGBLoadFloats.NInt (RGBLoad.clamp z hi)
    | RGBLoadFloats.NFloat n d =>
        if n <? 0 then RGBLoadFloats.NInt 0
        else if hi * Z.pos d <? n then RGBLoadFloats.NInt hi
        else RGBLoadFloats.NFloat n d
    | RGBLoadFloats.NInf negative =>
        RGBLoadFloats.NInt (if negative then 0 else hi)
    | RGBLoadFloats.NNaN => RGBLoadFloats.NNaN
    end.
Proof.
  intros Hhi.
  unfold RGBLoadFloats.py_min, RGBLoadFloats.py_max, RGBLoad.clamp.
  destruct x as [z|n d|[]|]; cbn [RGBLoadFloats.lt andb negb].
  - destruct (Z.ltb_spec hi z); cbn [RGBLoadFloats.lt];
      match goal with |- context [?a <? 0] => destruct (Z.ltb_spec a 0) end;
      f_equal; lia.
  - destruct (Z.ltb_spec (hi * Z.pos d) n) as [Hbig|Hsmall];
      cbn [RGBLoadFloats.lt].
    + destruct (Z.ltb_spec hi 0); [lia|].
      destruct (Z.ltb_spec n 0); [lia|]. reflexivity.
    + rewrite Z.mul_0_l. destruct (Z.ltb_spec n 0); reflexivity.
  - destruct (Z.ltb_spec 0 0); [lia|]. reflexivity.
  - destruct (Z.ltb_spec hi 0); [lia|]. reflexivity.
  - reflexivity.
Qed.

(** ** [set_hsl]: levels of any numeric kind *)

Lemma clamp_operand_spec (hi : Z) (x : RGBLoadFloats.operand) :
  0 <= hi ->
  RGBLoadFloats.clamp_operand hi x
  = match x with
    | RGBLoadFloats.ONumber n =>
        inr (RGBLoadFloats.ONumber
               (RGBLoadFloats.py_max
                  (RGBLoadFloats.py_min n (RGBLoadFloats.NInt hi))
                  (RGBLoadFloats.NInt 0)))
    | RGBLoadFloats.ODecimal RGBLoadFloats.DNaN =>
        inl RGBLoadFloats.DecimalInvalidOperation
    | RGBLoadFloats.ODecimal (RGBLoadFloats.DInfinity negative) =>
        inr (RGBLoadFloats.ONumber
               (RGBLoadFloats.NInt (if negative then 0 else hi)))
    | RGBLoadFloats.ODecimal (RGBLoadFloats.DFinite d) =>
        inr (if fst (RGBLoadFloats.fraction d) <? 0
             then RGBLoadFloats.ONumber (RGBLoadFloats.NInt 0)
             else if hi * Z.pos (snd (RGBLoadFloats.fraction d))
                     <? fst (RGBLoadFloats.fraction d)
                  then RGBLoadFloats.ONumber (RGBLoadFloats.NInt hi)
                  else x)
    end.
Proof.
  intros Hhi.
  unfold RGBLoadFloats.clamp_operand, RGBLoadFloats.operand_min,
    RGBLoadFloats.operand_max.
  destruct x as [n|[d|[]|]].
  - cbn [RGBLoadFloats.operand_lt].
    unfold RGBLoadFloats.py_max, RGBLoadFloats.py_min.
    destruct (RGBLoadFloats.lt (RGBLoadFloats.NInt hi) n);
      cbn [RGBLoadFloats.operand_lt];
      match goal with
      | |- context [RGBLoadFloats.lt ?a (RGBLoadFloats.NInt 0)] =>
          destruct (RGBLoadFloats.lt a (RGBLoadFloats.NInt 0))
      end; reflexivity.
  - unfold RGBLoadFloats.operand_lt, RGBLoadFloats.number_of_operand,
      RGBLoadFloats.number_of_decimal.
    destruct (RGBLoadFloats.fraction d) as [n q] eqn:Hfr. cbn [fst snd].
    cbn [RGBLoadFloats.is_nan orb RGBLoadFloats.lt].
    destruct (Z.ltb_spec (hi * Z.pos q) n) as [Hbig|Hsmall].
    + cbn [RGBLoadFloats.lt].
      destruct (Z.ltb_spec hi 0); [lia|].
      destruct (Z.ltb_spec n 0); [lia|]. reflexivity.
    + rewrite Hfr. cbn [RGBLoadFloats.is_nan orb RGBLoadFloats.lt].
      rewrite Z.mul_0_l. destruct (Z.ltb_spec n 0); reflexivity.
  - reflexivity.
  - cbn. destruct (Z.ltb_spec hi 0); [lia|]. reflexivity.
  - reflexivity.
Qed.

Lemma clamp_operand_cases (hi : Z) (x : RGBLoadFloats.operand) :
  0 <= hi ->
  (x = RGBLoadFloats.ODecimal RGBLoadFloats.DNaN
   /\ RGBLoadFloats.clamp_operand hi x
      = inl RGBLoadFloats.DecimalInvalidOperation)
  \/ (x <> RGBLoadFloats.ODecimal RGBLoadFloats.DNaN
      /\ exists y,
          RGBLoadFloats.clamp_operand hi x = inr y
          /\ (forall z,
                 x = RGBLoadFloats.ONumber (RGBLoadFloats.NInt z) ->
                 y = RGBLoadFloats.ONumber
                       (RGBLoadFloats.NInt (RGBLoad.clamp z hi)))
          /\ (forall n q,
                 x = RGBLoadFloats.ONumber (RGBLoadFloats.NFloat n q)
                 \/ (exists d, x = RGBLoadFloats.ODecimal (RGBLoadFloats.DFinite d)
                               /\ RGBLoadFloats.fraction d = (n, q)) ->
                 (0 <= n <= hi * Z.pos q -> y = x)
                 /\ (n < 0 -> y = RGBLoadFloats.ONumber (RGBLoadFloats.NInt 0))
                 /\ (hi * Z.pos q < n ->
                     y = RGBLoadFloats.ONumber (RGBLoadFloats.NInt hi)))
          /\ (x = RGBLoadFloats.ONumber (RGBLoadFloats.NInf false)
              \/ x = RGBLoadFloats.ODecimal (RGBLoadFloats.DInfinity false) ->
              y = RGBLoadFloats.ONumber (RGBLoadFloats.NInt hi))
          /\ (x = RGBLoadFloats.ONumber (RGBLoadFloats.NInf true)
              \/ x = RGBLoadFloats.ODecimal (RGBLoadFloats.DInfinity true) ->
              y = RGBLoadFloats.ONumber (RGBLoadFloats.NInt 0))
          /\ (x = RGBLoadFloats.ONumber RGBLoadFloats.NNaN -> y = x)).
Proof.
  intros Hhi. rewrite (clamp_operand_spec hi x Hhi).
  destruct x as [n|[d|neg|]].
  - right. split; [discriminate|]. eexists. split; [reflexivity|].
    rewrite (clamp_number_spec hi n Hhi).
    split; [|split; [|split; [|split]]].
    + intros z Hx. injection Hx as ->. reflexivity.
    + intros m q [Hx|(d & Hx & _)]; [|discriminate Hx]. injection Hx as ->.
      repeat split; intros Hm.
      * destruct (Z.ltb_spec m 0); [lia|].
        destruct (Z.ltb_spec (hi * Z.pos q) m); [lia|]. reflexivity.
      * destruct (Z.ltb_spec m 0); [reflexivity|lia].
      * destruct (Z.ltb_spec m 0); [lia|].
        destruct (Z.ltb_spec (hi * Z.pos q) m); [reflexivity|lia].
    + intros [Hx|Hx]; [|discriminate Hx]. injection Hx as ->. reflexivity.
    + intros [Hx|Hx]; [|discriminate Hx]. injection Hx as ->. reflexivity.
    + intros Hx. injection Hx as ->. reflexivity.
  - right. split; [discriminate|]. eexists. split; [reflexivity|].
    split; [|split; [|split; [|split]]].
    + intros z Hx. discriminate Hx.
    + intros m q [Hx|(d' & Hx & Hfr)]; [discriminate Hx|]. injection Hx as <-.
      rewrite Hfr. cbn [fst snd]. repeat split; intros Hm.
      * destruct (Z.ltb_spec m 0); [lia|].
        destruct (Z.ltb_spec (hi * Z.pos q) m); [lia|]. reflexivity.
      * destruct (Z.ltb_spec m 0); [reflexivity|lia].
      * destruct (Z.ltb_spec m 0); [lia|].
        destruct (Z.ltb_spec (hi * Z.pos q) m); [reflexivity|lia].
    + intros [Hx|Hx]; discriminate Hx.
    + intros [Hx|Hx]; discriminate Hx.
    + intros Hx. discriminate Hx.
  - right. split; [discriminate|]. eexists. split; [reflexivity|].
    split; [|split; [|split; [|split]]].
    + intros z Hx. discriminate Hx.
    + intros m q [Hx|(d' & Hx & _)]; discriminate Hx.
    + intros [Hx|Hx]; [discriminate Hx|]. injection Hx as ->. reflexivity.
    + intros [Hx|Hx]; [discriminate Hx|]. injection Hx as ->. reflexivity.
    + intros Hx. discriminate Hx.
  - left. auto.
Qed.

(** X18: [set_hsl] clamps its three levels (hue into [0, 360], saturation
    and lightness into [0, 100]) but, unlike the dissolve setters, does not
    convert them.  An [int] is clamped; a finite [float] or [Decimal]
    inside the range is sent as it is, fraction kept, and one outside is
    replaced by the [int] bound; an infinity of either kind is replaced by
    the bound on its side; a [float] NaN is sent on as NaN.  The one
    failure is a [Decimal] NaN, whose comparison raises
    [decimal.InvalidOperation]: [set_hsl] raises exactly when one of the
    three levels is a [Decimal] NaN. *)
Theorem set_hsl_clamps_without_converting
    (vid : Z) (hue saturation lightness : RGBLoadFloats.operand) :
  let kept (hi : Z) (x y : RGBLoadFloats.operand) :=
    (forall z,
        x = RGBLoadFloats.ONumber (RGBLoadFloats.NInt z) ->
        y = RGBLoadFloats.ONumber (RGBLoadFloats.NInt (RGBLoad.clamp z hi)))
    /\ (forall n q,
           x = RGBLoadFloats.ONumber (RGBLoadFloats.NFloat n q)
           \/ (exists d, x = RGBLoadFloats.ODecimal (RGBLoadFloats.DFinite d)
                         /\ RGBLoadFloats.fraction d = (n, q)) ->
           (0 <= n <= hi * Z.pos q -> y = x)
           /\ (n < 0 -> y = RGBLoadFloats.ONumber (RGBLoadFloats.NInt 0))
           /\ (hi * Z.pos q < n ->
               y = RGBLoadFloats.ONumber (RGBLoadFloats.NInt hi)))
    /\ (x = RGBLoadFloats.ONumber (RGBLoadFloats.NInf false)
        \/ x = RGBLoadFloats.ODecimal (RGBLoadFloats.DInfinity false) ->
        y = RGBLoadFloats.ONumber (RGBLoadFloats.NInt hi))
    /\ (x = RGBLoadFloats.ONumber (RGBLoadFloats.NInf true)
        \/ x = RGBLoadFloats.ODecimal (RGBLoadFloats.DInfinity true) ->
        y = RGBLoadFloats.ONumber (RGBLoadFloats.NInt 0))
    /\ (x = RGBLoadFloats.ONumber RGBLoadFloats.NNaN -> y = x) in
  (RGBLoadFloats.set_hsl vid hue saturation lightness
   = inl RGBLoadFloats.DecimalInvalidOperation
   <-> In (RGBLoadFloats.ODecimal RGBLoadFloats.DNaN)
          [hue; saturation; lightness])
  /\ (forall call,
         RGBLoadFloats.set_hsl vid hue saturation lightness = inr call ->
         exists h s l,
           call = {| RGBLoadFloats.call_vid := vid;
                     RGBLoadFloats.call_method := "RGBLoad.SetHSL";
                     RGBLoadFloats.call_params := [h; s; l] |}
           /\ kept 360 hue h /\ kept 100 saturation s
           /\ kept 100 lightness l).
Proof.
  intros kept. subst kept. cbv beta.
  unfold RGBLoadFloats.set_hsl.
  destruct (clamp_operand_cases 360 hue ltac:(lia))
    as [[-> ->]|(Hh & h & -> & Kh)].
  { split; [|discriminate]. split; [intros _; cbn; tauto|reflexivity]. }
  destruct (clamp_operand_cases 100 saturation ltac:(lia))
    as [[-> ->]|(Hs & s & -> & Ks)].
  { split; [|discriminate]. split; [intros _; cbn; tauto|reflexivity]. }
  destruct (clamp_operand_cases 100 lightness ltac:(lia))
    as [[-> ->]|(Hl & l & -> & Kl)].
  { split; [|discriminate]. split; [intros _; cbn; tauto|reflexivity]. }
  split.
  - split; [discriminate|]. cbn [In].
    intros [H|[H|[H|[]]]]; contradiction.
  - intros call Hc. injection Hc as <-. exists h, s, l. auto.
Qed.

(** ** Status pushes of fixed-point readings *)

(** X10: the temperature controller's status handler.  A status other than
    [TEMP] is ignored without looking at the arguments; a [TEMP] status
    without arguments raises [IndexError], and the handler raises nothing
    but [IndexError] and [InvalidOperation].  When the first argument is
    the fixed-point text of a decimal, the handler returns and the object
    then holds a value equal to that decimal; at most one event was
    emitted (for [value], carrying the object's id), no event means the
    object is untouched, and handling the same push again changes nothing
    and emits nothing.  Arguments after the first are not read. *)
Theorem temp_status_handler_edges (obj : Objects.SystemObject) :
  (forall status args,
      status <> "TEMP" ->
      Controller.handle_category_status obj status args = ok (obj, []))
  /\ Controller.handle_category_status obj "TEMP" [] = raise IndexError
  /\ (forall args e,
         Controller.handle_category_status obj "TEMP" args = raise e ->
         e = IndexError \/ e = InvalidOperation)
  /\ (forall d rest,
         Objects.expo d <= 0 ->
         exists obj' events v,
           Controller.handle_category_status obj "TEMP"
             (Codec.encode_decimal d :: rest)
           = ok (obj', events)
           /\ Objects.getattr obj' "value" = Some v
           /\ Objects.py_eq v (Objects.VDecimal d) = true
           /\ ((events = [] /\ obj' = obj)
               \/ events = [ {| Controller.ev_vid := Objects.obj_id obj;
                                Controller.ev_attrs_changed := ["value"] |} ])
           /\ Controller.handle_category_status obj' "TEMP"
                (Codec.encode_decimal d :: rest)
              = ok (obj', [])).
Proof.
  split; [|split; [|split]].
  - intros status args Hne. unfold Controller.handle_category_status.
    apply String.eqb_neq in Hne. rewrite Hne. reflexivity.
  - reflexivity.
  - intros args e. unfold Controller.handle_category_status, subscript.
    rewrite String.eqb_refl. cbn [negb].
    destruct (args !! 0%nat) as [tok|]; cbn [of_option rbind ok raise].
    + destruct (Objects.Decimal_of_str tok) as [e'|d] eqn:Hd;
        cbn [rbind]; [|discriminate].
      intros H. injection H as ->. right.
      apply (Decimal_of_str_raises tok). exact Hd.
    + intros H. injection H as <-. left. reflexivity.
  - intros d rest Hexp.
    assert (Hd : Objects.Decimal_of_str (Codec.encode_decimal d) = ok d)
      by (apply Decimal_of_str_decode_decimal, decode_decimal_encode_decimal;
          exact Hexp).
    assert (Hrun : forall o,
               Controller.handle_category_status o "TEMP"
                 (Codec.encode_decimal d :: rest)
               = ok (Controller.update_state o [("value", Objects.VDecimal d)])).
    { intros o. unfold Controller.handle_category_status, subscript.
      rewrite String.eqb_refl.
      cbn [negb lookup list_lookup of_option rbind ok].
      rewrite Hd. reflexivity. }
    rewrite Hrun, update_state_single.
    destruct (Controller.differs (Objects.getattr obj "value") (Objects.VDecimal d))
      eqn:Hdiff.
    + eexists _, _, (Objects.VDecimal d). split; [reflexivity|].
      split; [apply getattr_setattr_eq|]. split; [apply py_eq_refl|].
      split; [right; reflexivity|].
      rewrite Hrun, update_state_single, getattr_setattr_eq.
      unfold Controller.differs. rewrite py_eq_refl. reflexivity.
    + apply differs_false in Hdiff as Hold. destruct Hold as (old & Hold & Heq).
      eexists _, _, old. split; [reflexivity|].
      split; [exact Hold|]. split; [exact Heq|].
      split; [left; auto|].
      rewrite Hrun, update_state_single, Hdiff. reflexivity.
Qed.

Lemma temp_status_handler_edges_witness :
  exists obj' events v,
    Controller.handle_category_status (Objects.Temperature 10 3) "TEMP" ["21.5"]
    = ok (obj', events)
    /\ Objects.getattr obj' "value" = Some v
    /\ Objects.py_eq v
         (Objects.VDecimal {| Objects.coeff := 215; Objects.expo := -1 |})
       = true
    /\ ((events = [] /\ obj' = Objects.Temperature 10 3)
        \/ events = [ {| Controller.ev_vid := 10;
                         Controller.ev_attrs_changed := ["value"] |} ])
    /\ Controller.handle_category_status obj' "TEMP" ["21.5"] = ok (obj', []).
Proof.
  apply (proj2 (proj2 (proj2
           (temp_status_handler_edges (Objects.Temperature 10 3))))
           {| Objects.coeff := 215; Objects.expo := -1 |} []).
  cbn [Objects.expo]. lia.
Defined.

(** X12: the current sensor's status handler.  A category other than
    [CURRENT] is ignored without looking at the arguments and reports no
    change; a [CURRENT] status without arguments raises [IndexError], and
    the handler raises nothing but [IndexError] and [InvalidOperation].
    When the first argument is the fixed-point text of a decimal, the
    handler returns and the object then holds a current equal to that
    decimal; it reports either no change, and then the object is untouched,
    or the name [current]; and handling the same push again reports no
    change and leaves the object as it is. *)
Theorem current_status_handler_edges (obj : Objects.SystemObject) :
  (forall category args,
      category <> "CURRENT" ->
      CurrentSensor.handle_category_status obj category args = ok (obj, None))
  /\ CurrentSensor.handle_category_status obj "CURRENT" [] = raise IndexError
  /\ (forall args e,
         CurrentSensor.handle_category_status obj "CURRENT" args = raise e ->
         e = IndexError \/ e = InvalidOperation)
  /\ (forall d rest,
         Objects.expo d <= 0 ->
         exists obj' changed v,
           CurrentSensor.handle_category_status obj "CURRENT"
             (Codec.encode_decimal d :: rest)
           = ok (obj', changed)
           /\ Objects.getattr obj' "current" = Some v
           /\ Objects.py_eq v (Objects.VDecimal d) = true
           /\ ((changed = None /\ obj' = obj) \/ changed = Some "current")
           /\ CurrentSensor.handle_category_status obj' "CURRENT"
                (Codec.encode_decimal d :: rest)
              = ok (obj', None)).
Proof.
  split; [|split; [|split]].
  - intros category args Hne. unfold CurrentSensor.handle_category_status.
    apply String.eqb_neq in Hne. rewrite Hne. reflexivity.
  - reflexivity.
  - intros args e. unfold CurrentSensor.handle_category_status, subscript.
    rewrite String.eqb_refl.
    destruct (args !! 0%nat) as [tok|]; cbn [of_option rbind ok raise].
    + destruct (Objects.Decimal_of_str tok) as [e'|d] eqn:Hd;
        cbn [rbind]; [|discriminate].
      intros H. injection H as ->. right.
      apply (Decimal_of_str_raises tok). exact Hd.
    + intros H. injection H as <-. left. reflexivity.
  - intros d rest Hexp.
    assert (Hd : Objects.Decimal_of_str (Codec.encode_decimal d) = ok d)
      by (apply Decimal_of_str_decode_decimal, decode_decimal_encode_decimal;
          exact Hexp).
    assert (Hrun : forall o,
               CurrentSensor.handle_category_status o "CURRENT"
                 (Codec.encode_decimal d :: rest)
               = ok (Interface.update_property o "current" (Objects.VDecimal d))).
    { intros o. unfold CurrentSensor.handle_category_status, subscript.
      rewrite String.eqb_refl.
      cbn [lookup list_lookup of_option rbind ok].
      rewrite Hd. reflexivity. }
    rewrite Hrun.
    pose proof (update_property_spec obj "current" (Objects.VDecimal d)) as Hspec.
    destruct (Interface.update_property obj "current" (Objects.VDecimal d))
      as [obj1 r1].
    destruct Hspec as (Hcase & (v & Hv & Heq) & _ & Hagain).
    exists obj1, r1, v. split; [reflexivity|].
    split; [exact Hv|]. split; [exact Heq|]. split.
    + destruct Hcase as [[-> ->]|[-> _]]; auto.
    + rewrite Hrun, Hagain. reflexivity.
Qed.

Lemma current_status_handler_edges_witness :
  exists obj' changed v,
    CurrentSensor.handle_category_status (Objects.Temperature 10 3) "CURRENT"
      ["0.25"]
    = ok (obj', changed)
    /\ Objects.getattr obj' "current" = Some v
    /\ Objects.py_eq v
         (Objects.VDecimal {| Objects.coeff := 25; Objects.expo := -2 |})
       = true
    /\ ((changed = None /\ obj' = Objects.Temperature 10 3)
        \/ changed = Some "current")
    /\ CurrentSensor.handle_category_status obj' "CURRENT" ["0.25"]
       = ok (obj', None).
Proof.
  apply (proj2 (proj2 (proj2
           (current_status_handler_edges (Objects.Temperature 10 3))))
           {| Objects.coeff := 25; Objects.expo := -2 |} []).
  cbn [Objects.expo]. lia.
Defined.

(** ** The further definitions at work *)

Example operation_mode_reply :
  Thermostat.get_operation_mode
    (Thermostat.replying "R:INVOKE 7 Cool Thermostat.GetOperationMode") 7
  = ok Thermostat.OperationMode.Cool
  /\ Thermostat.get_operation_mode
       (Thermostat.replying "R:INVOKE 7 1 Thermostat.GetOperationMode") 7
     = raise (KeyError "1")
  /\ Thermostat.get_fan_mode
       (Thermostat.replying "R:INVOKE 7 Cool Thermostat.GetFanMode") 7
     = raise (KeyError "Cool").
Proof. repeat split; vm_compute; reflexivity. Qed.

Example indoor_temperature_reply :
  Thermostat.get_indoor_temperature
    (Thermostat.replying "R:INVOKE 7 21.50 Thermostat.GetIndoorTemperature") 7
  = ok {| Objects.coeff := 2150; Objects.expo := -2 |}
  /\ Thermostat.get_indoor_temperature
       (Thermostat.replying "R:INVOKE 7") 7
     = raise IndexError.
Proof. split; vm_compute; reflexivity. Qed.

Example variable_tokens :
  GMemInterface._parse_value "{0A,ff}" = ok (Objects.VBytes [10; 255])
  /\ GMemInterface._parse_value "[1,2,3]" = ok (Objects.VBytes [1; 2; 3])
  /\ GMemInterface._parse_value "-42" = ok (Objects.VInt (-42))
  /\ GMemInterface._parse_value "{0A" = raise DecodeError
  /\ GMemInterface._parse_value "on" = raise DecodeError.
Proof. repeat split; vm_compute; reflexivity. Qed.

Example rgbw_levels :
  RGBLoadFloats.set_rgbw 5
    (RGBLoadFloats.NFloat 2549 10) (RGBLoadFloats.NInt 300)
    (RGBLoadFloats.NInf true) (RGBLoadFloats.NFloat (-1) 2)
  = inr {| RGBLoadFloats.inv_vid := 5;
           RGBLoadFloats.inv_method := "RGBLoad.SetRGBW";
           RGBLoadFloats.inv_params :=
             [RGBLoadFloats.NInt 254; RGBLoadFloats.NInt 255;
              RGBLoadFloats.NInt 0; RGBLoadFloats.NInt 0] |}
  /\ RGBLoadFloats.set_rgbw 5
       (RGBLoadFloats.NInt 1) RGBLoadFloats.NNaN
       (RGBLoadFloats.NInt 3) (RGBLoadFloats.NInt 4)
     = inl RGBLoadFloats.IntValueError.
Proof. repeat split; vm_compute; reflexivity. Qed.

Example hsl_levels :
  RGBLoadFloats.set_hsl 5
    (RGBLoadFloats.ONumber (RGBLoadFloats.NInt 400))
    (RGBLoadFloats.ODecimal
       (RGBLoadFloats.DFinite {| Objects.coeff := 995; Objects.expo := -1 |}))
    (RGBLoadFloats.ONumber RGBLoadFloats.NNaN)
  = inr {| RGBLoadFloats.call_vid := 5;
           RGBLoadFloats.call_method := "RGBLoad.SetHSL";
           RGBLoadFloats.call_params :=
             [RGBLoadFloats.ONumber (RGBLoadFloats.NInt 360);
              RGBLoadFloats.ODecimal
                (RGBLoadFloats.DFinite
                   {| Objects.coeff := 995; Objects.expo := -1 |});
              RGBLoadFloats.ONumber RGBLoadFloats.NNaN] |}
  /\ RGBLoadFloats.set_hsl 5
       (RGBLoadFloats.ONumber (RGBLoadFloats.NInt 10))
       (RGBLoadFloats.ODecimal RGBLoadFloats.DNaN)
       (RGBLoadFloats.ONumber (RGBLoadFloats.NInt 50))
     = inl RGBLoadFloats.DecimalInvalidOperation
  /\ RGBLoadFloats.set_hsl 5
       (RGBLoadFloats.ONumber (RGBLoadFloats.NInt (-5)))
       (RGBLoadFloats.ODecimal
          (RGBLoadFloats.DFinite {| Objects.coeff := 1005; Objects.expo := -1 |}))
       (RGBLoadFloats.ODecimal (RGBLoadFloats.DInfinity true))
     = inr {| RGBLoadFloats.call_vid := 5;
              RGBLoadFloats.call_method := "RGBLoad.SetHSL";
              RGBLoadFloats.call_params :=
                [RGBLoadFloats.ONumber (RGBLoadFloats.NInt 0);
                 RGBLoadFloats.ONumber (RGBLoadFloats.NInt 100);
                 RGBLoadFloats.ONumber (RGBLoadFloats.NInt 0)] |}.
Proof. repeat split; vm_compute; reflexivity. Qed.
